(** * listall: directory listing pipeline (walker, path adjuster, renderer)

    A shallow embedding of [listall.py].  Python strings are lists of
    characters, Python integers are [Z], dictionaries are association lists
    in insertion order, and the file system is a finite tree snapshot.  The
    [os.path] and [fnmatch] functions the program calls form the interface
    [OsPath]; [posixpath] and [ntpath] are its two instances. *)

From Stdlib Require Import Ascii String ZArith Lia Bool Arith List.
From Stdlib Require Import Permutation Sorted.
Import ListNotations.

Set Implicit Arguments.

(** ** Strings *)

Definition str := list ascii.
Abbreviation lit := list_ascii_of_string.

Definition chr_eqb (a b : ascii) : bool := Ascii.eqb a b.

Fixpoint str_eqb (a b : str) : bool :=
  match a, b with
  | [], [] => true
  | x :: a', y :: b' => chr_eqb x y && str_eqb a' b'
  | _, _ => false
  end.

(** [a < b] on Python strings: lexicographic on code points. *)
Fixpoint str_ltb (a b : str) : bool :=
  match a, b with
  | _, [] => false
  | [], _ :: _ => true
  | x :: a', y :: b' =>
      if (nat_of_ascii x <? nat_of_ascii y)%nat then true
      else if chr_eqb x y then str_ltb a' b'
      else false
  end.

Definition is_upper (c : ascii) : bool :=
  (65 <=? nat_of_ascii c)%nat && (nat_of_ascii c <=? 90)%nat.

Definition is_digit (c : ascii) : bool :=
  (48 <=? nat_of_ascii c)%nat && (nat_of_ascii c <=? 57)%nat.

(** [str.lower()], on the ASCII letters. *)
Definition lower_chr (c : ascii) : ascii :=
  if is_upper c then ascii_of_nat (nat_of_ascii c + 32) else c.

Definition lower (s : str) : str := map lower_chr s.

Definition mem_chr (c : ascii) (cs : str) : bool := existsb (chr_eqb c) cs.

(** [s.lstrip(chars)]: drops the longest prefix made of characters of
    [chars]. *)
Fixpoint lstrip (chars s : str) : str :=
  match s with
  | [] => []
  | c :: s' => if mem_chr c chars then lstrip chars s' else s
  end.

(** [s.replace(old, new)] for one-character [old] and [new]. *)
Definition replace (old new : ascii) (s : str) : str :=
  map (fun c => if chr_eqb c old then new else c) s.

Definition startswith (p s : str) : bool := str_eqb (firstn (length p) s) p.

Definition endswith_chr (c : ascii) (s : str) : bool :=
  match rev s with
  | x :: _ => chr_eqb x c
  | [] => false
  end.

(** [s.split(sep)] for a one-character separator. *)
Fixpoint split (sep : ascii) (s : str) : list str :=
  match s with
  | [] => [[]]
  | c :: s' =>
      if chr_eqb c sep then [] :: split sep s'
      else match split sep s' with
           | h :: t => (c :: h) :: t
           | [] => [[c]]
           end
  end.

(** [sep.join(parts)]. *)
Fixpoint join_with (sep : str) (parts : list str) : str :=
  match parts with
  | [] => []
  | [p] => p
  | p :: ps => p ++ sep ++ join_with sep ps
  end.

(** The part of [p] after its last [c] ([p[p.rfind(c)+1:]]). *)
Fixpoint after_last (c : ascii) (p : str) : str :=
  match p with
  | [] => []
  | x :: p' =>
      if mem_chr c p' then after_last c p'
      else if chr_eqb x c then p' else p
  end.

(** ** The platform interface: [os.path] and [fnmatch] *)

Class OsPath := {
  sep : ascii;                         (* os.sep *)
  join : str -> str -> str;            (* os.path.join(a, b) *)
  basename : str -> str;               (* os.path.basename *)
  abspath : str -> str;                (* os.path.abspath *)
  splitdrive : str -> str * str;       (* os.path.splitdrive *)
  relpath : str -> str -> str;         (* os.path.relpath(path, start) *)
  fnmatch : str -> str -> bool         (* fnmatch.fnmatch(name, pat) *)
}.

(** ** Sort engine *)

Inductive sort_mode :=
| Sequence | ISequence | WinSequence | Name | IName | Date.

(** The values the key functions return: a string, an [(int, str)] pair,
    or a modification time. *)
Inductive key :=
| KStr (s : str)
| KNum (n : Z) (s : str)
| KTime (t : Z).

(** [a < b] on keys; a sort only compares keys of one shape. *)
Definition key_ltb (a b : key) : bool :=
  match a, b with
  | KStr x, KStr y => str_ltb x y
  | KNum n x, KNum m y => (n <? m)%Z || ((n =? m)%Z && str_ltb x y)
  | KTime t, KTime u => (t <? u)%Z
  | _, _ => false
  end.

(** [sorted(xs, key=k)]: a stable sort that only uses [<] on keys. *)
Section Sorted.
Variable A : Type.
Variable k : A -> key.

Fixpoint insert_sorted (x : A) (l : list A) : list A :=
  match l with
  | [] => [x]
  | y :: l' =>
      if key_ltb (k y) (k x) then y :: insert_sorted x l'
      else x :: l
  end.

Definition sorted (l : list A) : list A := fold_right insert_sorted [] l.
End Sorted.

(** [re.findall(r'\d+', value)[0]], when there is a match. *)
Fixpoint take_digits (s : str) : str :=
  match s with
  | c :: s' => if is_digit c then c :: take_digits s' else []
  | [] => []
  end.

Fixpoint first_digits (s : str) : option str :=
  match s with
  | [] => None
  | c :: s' => if is_digit c then Some (c :: take_digits s') else first_digits s'
  end.

(** [int(digits)]. *)
Definition int_of_digits (ds : str) : Z :=
  fold_left (fun acc c => (10 * acc + Z.of_nat (nat_of_ascii c - 48))%Z) ds 0%Z.

Definition numerical_sort (value : str) : key :=
  match first_digits value with
  | Some ds => KNum (int_of_digits ds) value
  | None => KNum 0 value
  end.

Section SortEngine.
Context {OS : OsPath}.

Definition windows_explorer_sort (value : str) : key :=
  KStr (lower (basename value)).

(** [sort_map[sort_mode]]; [getmtime] is [os.path.getmtime] on the
    file system the walk runs on. *)
Definition sort_map (getmtime : str -> Z) (mode : sort_mode) : str -> key :=
  match mode with
  | Sequence => fun x => numerical_sort (basename x)
  | ISequence => fun x => numerical_sort (lower (basename x))
  | WinSequence => windows_explorer_sort
  | Name => fun x => KStr (basename x)
  | IName => fun x => KStr (lower (basename x))
  | Date => fun x => KTime (getmtime x)
  end.

Definition sort_files (getmtime : str -> Z) (files : list str) (mode : sort_mode)
  : list str :=
  sorted (sort_map getmtime mode) files.

(** [get_subdir_sort_key(name, sort_by)]: the key of a bare segment name
    of the tree. *)
Definition get_subdir_sort_key (name : str) (sort_by : sort_mode) : key :=
  match sort_by with
  | Sequence => numerical_sort name
  | ISequence => numerical_sort (lower name)
  | WinSequence => KStr (lower name)
  | Name => KStr name
  | IName => KStr (lower name)
  | Date => KStr name
  end.
End SortEngine.

(** ** Decoration transform *)

Inductive decoration := Unix | Windows | RelLeader | NoLeader.

Definition decoration_eqb (a b : decoration) : bool :=
  match a, b with
  | Unix, Unix | Windows, Windows | RelLeader, RelLeader | NoLeader, NoLeader => true
  | _, _ => false
  end.

(** ["name" in decorations] on the set of selected decorations. *)
Definition has (d : decoration) (decorations : list decoration) : bool :=
  existsb (decoration_eqb d) decorations.

Definition apply_decorations (path : str) (decorations : list decoration) : str :=
  let path :=
    if has NoLeader decorations then
      lstrip (lit "./") (lstrip (lit ".\") path)
    else if has RelLeader decorations then
      (if has Windows decorations then lit ".\" else lit "./")
        ++ lstrip (lit "./") (lstrip (lit ".\") path)
    else path in
  if has Unix decorations then replace "\" "/" path
  else if has Windows decorations then replace "/" "\" path
  else path.

(** ** Dictionaries

    A Python [dict] from strings to lists of strings, in insertion order. *)

Definition dict := list (str * list str).

Fixpoint assoc (V : Type) (k : str) (l : list (str * V)) : option V :=
  match l with
  | [] => None
  | (k', v) :: l' => if str_eqb k' k then Some v else assoc k l'
  end.

(** [d.get(k)] *)
Definition dict_get (k : str) (d : dict) : option (list str) := assoc k d.

(** [k in d] *)
Definition dict_in (k : str) (d : dict) : bool :=
  match dict_get k d with Some _ => true | None => false end.

(** [d[k] = v]: an existing key keeps its place. *)
Fixpoint dict_set (k : str) (v : list str) (d : dict) : dict :=
  match d with
  | [] => [(k, v)]
  | (k', v') :: d' =>
      if str_eqb k' k then (k', v) :: d' else (k', v') :: dict_set k v d'
  end.

(** [d.setdefault(k, [])] *)
Definition dict_setdefault (k : str) (d : dict) : dict :=
  if dict_in k d then d else d ++ [(k, [])].

(** [d.setdefault(k, []).extend(vs)] *)
Definition dict_extend (k : str) (vs : list str) (d : dict) : dict :=
  match dict_get k d with
  | Some v => dict_set k (v ++ vs) d
  | None => d ++ [(k, vs)]
  end.

Definition keys (d : dict) : list str := map fst d.

(** ** File system

    The snapshot a walk runs on: a file, or a directory with its entries in
    the order [os.listdir] returns them.  Listing an unreadable directory
    raises [OSError]. *)

#[local] Set Warnings "-register-all".

Inductive node :=
| File (mtime : Z)
| Dir (mtime : Z) (readable : bool) (entries : list (str * node)).

Definition isdir (n : node) : bool :=
  match n with Dir _ _ _ => true | File _ => false end.

Definition mtime_of (n : node) : Z :=
  match n with Dir t _ _ => t | File t => t end.

(** ** Traversal walker *)

Inductive collect_strategy := All | DirsOnly | Dirs1stLastFile | FilesOnlyC.

Inductive action := Descend | Skip | Partial.

Definition on_visit_directory (root : str) (dirs files : list str) (depth : nat)
    (max_depth prune_large_dirs : option Z) : action :=
  if match max_depth with
     | Some md => (md <=? Z.of_nat depth)%Z
     | None => false
     end then Skip
  else if match prune_large_dirs with
          | Some pl => (pl <=? Z.of_nat (length files))%Z
          | None => false
          end then Partial
  else Descend.

(** [[files[0], files[-1]]] when there is more than one file. *)
Definition first_last (files : list str) : list str :=
  if (1 <? length files)%nat then [nth 0 files []; last files []] else files.

Section Walker.
Context {OS : OsPath}.

Variable exclude_patterns : list str.
Variable sort_by : sort_mode.
Variable collect : collect_strategy.
Variable max_depth : option Z.
Variable prune_large_dirs : option Z.

Definition is_excluded (p : str) : bool :=
  let bn := basename p in
  existsb (fun pat => fnmatch bn pat) exclude_patterns.

(** The body of [recurse_dir] between the listing and the descent: given
    the sorted sub-directories and files of [root], the updated dictionary
    and the sub-directories to descend into. *)
Definition visit (root : str) (depth : nat) (subdirs files : list str)
    (collected : dict) : dict * list str :=
  let action :=
    on_visit_directory root (map basename subdirs) (map basename files)
      depth max_depth prune_large_dirs in
  let collected :=
    match collect with
    | FilesOnlyC => collected
    | _ => dict_setdefault root collected
    end in
  let '(files, subdirs) :=
    match action with
    | Skip => (files, subdirs)
    | Partial => (first_last files, [])
    | Descend => (files, subdirs)
    end in
  let collected :=
    match collect with
    | DirsOnly => collected
    | Dirs1stLastFile => dict_set root (first_last files) collected
    | FilesOnlyC => dict_extend root files collected
    | All => dict_set root files collected
    end in
  (collected, match action with Skip => [] | _ => subdirs end).

(** The entries of [root] by full path, exclusions dropped, in listing
    order. *)
Definition listing (root : str) (entries : list (str * node)) : list (str * node) :=
  filter (fun '(fp, _) => negb (is_excluded fp))
    (map (fun '(e, c) => (join root e, c)) entries).

Definition getmtime_in (children : list (str * node)) (p : str) : Z :=
  match assoc p children with Some c => mtime_of c | None => 0%Z end.

Definition subdirs_of (root : str) (entries : list (str * node)) : list str :=
  let kept := listing root entries in
  sort_files (getmtime_in kept) (map fst (filter (fun '(_, c) => isdir c) kept)) sort_by.

Definition files_of (root : str) (entries : list (str * node)) : list str :=
  let kept := listing root entries in
  sort_files (getmtime_in kept)
    (map fst (filter (fun '(_, c) => negb (isdir c)) kept)) sort_by.

(** [recurse_dir(root, depth)] on the directory [n] found at [root].  The
    sort works on path strings, so the recursive call on each child is
    prepared by path ([walks]) and looked up when the sorted sub-directory
    is reached. *)
Fixpoint recurse_dir (n : node) (root : str) (depth : nat) (collected : dict)
    {struct n} : dict :=
  match n with
  | File _ => collected
  | Dir _ false _ => collected
  | Dir _ true entries =>
      let walks :=
        map (fun '(e, c) => (join root e, recurse_dir c (join root e) (S depth)))
          entries in
      let '(collected, subdirs) :=
        visit root depth (subdirs_of root entries) (files_of root entries)
          collected in
      fold_left
        (fun acc sd =>
           match assoc sd walks with
           | Some walk => walk acc
           | None => acc
           end)
        subdirs collected
  end.

End Walker.

(** [exclude_patterns or []] *)
Definition or_empty (o : option (list str)) : list str :=
  match o with Some l => l | None => [] end.

Definition walk_directories {OS : OsPath} (fs : node) (start_path_abs : str)
    (exclude_patterns : option (list str)) (sort_by : sort_mode)
    (collect : collect_strategy) (collect_limit collect_limit_min : option Z)
    (max_depth prune_large_dirs : option Z) : dict :=
  recurse_dir (or_empty exclude_patterns) sort_by collect max_depth
    prune_large_dirs fs start_path_abs 0 [].

(** ** Errors

    [adjust_paths] either returns or raises [ValueError] with a message. *)

Inductive result (A : Type) :=
| Ok (a : A)
| ValueError (msg : str).
Arguments Ok {A} a.
Arguments ValueError {A} msg.

Definition bind (A B : Type) (r : result A) (f : A -> result B) : result B :=
  match r with
  | Ok a => f a
  | ValueError msg => ValueError msg
  end.

Notation "x <- r ;; k" := (bind r (fun x => k))
  (at level 61, r at next level, right associativity).

(** ** Secondary truncation and [collect_files] *)

Inductive path_style := Full | Rel | RelBase | FilesOnlyP.

(** [collect_limit_min or 2] *)
Definition or_2 (o : option Z) : Z :=
  match o with
  | Some z => if (z =? 0)%Z then 2%Z else z
  | None => 2%Z
  end.

(** [flist[:half] + flist[-half:]] for [half >= 1]. *)
Definition ends (half : nat) (flist : list str) : list str :=
  firstn half flist ++ skipn (length flist - half) flist.

(** The loop over [raw.items()] of [collect_files]. *)
Definition truncate (collect_limit : Z) (collect_limit_min : option Z) (raw : dict)
  : dict :=
  fold_left
    (fun raw '(dkey, flist) =>
       if (collect_limit <? Z.of_nat (length flist))%Z then
         let half := Z.to_nat (Z.max (or_2 collect_limit_min / 2) 1) in
         dict_set dkey (ends half flist) raw
       else raw)
    raw raw.

(** ** Path adjuster *)

Section Adjust.
Context {OS : OsPath}.

Variable start_path_abs : str.
Variable style : path_style.
Variable decorations : list decoration.
Variable strict_rel : bool.
Variable base_label : option str.

Definition drive_of (p : str) : str := lower (fst (splitdrive p)).

Definition same_drive (p : str) : bool :=
  str_eqb (drive_of p) (drive_of start_path_abs).

Definition is_rel (st : path_style) : bool :=
  match st with Rel | RelBase => true | _ => false end.

Definition cross_drive_error (p : str) : str :=
  lit "Cannot create relative path across drives: " ++ p.

(** [base_label if base_label else os.path.basename(start_path_abs)] *)
Definition label : str :=
  match base_label with
  | Some (c :: l) => c :: l
  | _ => basename start_path_abs
  end.

(** The body of the loop over [file_list]. *)
Definition adjust_file (f : str) : result str :=
  let f_abs := abspath f in
  if strict_rel && is_rel style && negb (same_drive f_abs) then
    ValueError (cross_drive_error f_abs)
  else
    Ok match style with
       | FilesOnlyP => basename f_abs
       | Rel =>
           if same_drive f_abs then
             apply_decorations (relpath f_abs start_path_abs) decorations
           else f_abs
       | RelBase =>
           if same_drive f_abs then
             apply_decorations (join label (relpath f_abs start_path_abs)) decorations
           else f_abs
       | Full => f_abs
       end.

Fixpoint adjust_files (file_list : list str) : result (list str) :=
  match file_list with
  | [] => Ok []
  | f :: rest =>
      adjusted_file <- adjust_file f ;;
      adjusted_files <- adjust_files rest ;;
      Ok (adjusted_file :: adjusted_files)
  end.

(** The directory key of one entry. *)
Definition adjust_dir (dir_abs : str) : result str :=
  let dir_abs_norm := abspath dir_abs in
  match style with
  | FilesOnlyP => Ok dir_abs_norm
  | _ =>
      if strict_rel && is_rel style && negb (same_drive dir_abs_norm) then
        ValueError (cross_drive_error dir_abs_norm)
      else
        Ok match style with
           | Rel =>
               if same_drive dir_abs_norm then
                 apply_decorations (relpath dir_abs_norm start_path_abs) decorations
               else dir_abs_norm
           | RelBase =>
               if same_drive dir_abs_norm then
                 let rel_dir := relpath dir_abs_norm start_path_abs in
                 if str_eqb rel_dir (lit ".") then apply_decorations label decorations
                 else apply_decorations (join label rel_dir) decorations
               else dir_abs_norm
           | _ => dir_abs_norm
           end
  end.

(** The loop over [collected_dict.items()], filling [adjusted]. *)
Fixpoint adjust_loop (items : dict) (adjusted : dict) : result dict :=
  match items with
  | [] => Ok adjusted
  | (dir_abs, file_list) :: rest =>
      adjusted_files <- adjust_files file_list ;;
      dir_key <- adjust_dir dir_abs ;;
      adjust_loop rest (dict_set dir_key adjusted_files adjusted)
  end.

End Adjust.

Definition adjust_paths {OS : OsPath} (collected_dict : dict) (start_path_abs : str)
    (style : path_style) (decorations : list decoration) (collect : collect_strategy)
    (strict_rel : bool) (base_label : option str) : result dict :=
  adjust_loop start_path_abs style decorations strict_rel base_label
    collected_dict [].

(** The dictionary [collect_files] hands to [adjust_paths]. *)
Definition collect_raw {OS : OsPath} (fs : node) (start_path_abs : str)
    (collect : collect_strategy) (sort_by : sort_mode)
    (exclude_patterns : option (list str)) (collect_limit collect_limit_min : option Z)
    (max_depth prune_large_dirs : option Z) : dict :=
  let raw :=
    walk_directories fs start_path_abs exclude_patterns sort_by collect
      collect_limit collect_limit_min max_depth prune_large_dirs in
  match collect, collect_limit with
  | All, Some limit =>
      (* [if collect == "all" and collect_limit]: a limit of 0 is false *)
      if (limit =? 0)%Z then raw else truncate limit collect_limit_min raw
  | _, _ => raw
  end.

Definition collect_files {OS : OsPath} (fs : node) (start_path_abs : str)
    (style : path_style) (collect : collect_strategy) (sort_by : sort_mode)
    (decorations : list decoration) (exclude_patterns : option (list str))
    (collect_limit collect_limit_min : option Z) (strict_rel : bool)
    (base_label : option str) (max_depth prune_large_dirs : option Z) : result dict :=
  adjust_paths
    (collect_raw fs start_path_abs collect sort_by exclude_patterns collect_limit
       collect_limit_min max_depth prune_large_dirs)
    start_path_abs style decorations collect strict_rel base_label.

(** ** Tree builder

    The nested [defaultdict]: named children in insertion order. *)

Inductive tree := Node (children : list (str * tree)).

Definition children_of (t : tree) : list (str * tree) :=
  match t with Node kids => kids end.

(** [bool(t)] *)
Definition nonempty_tree (t : tree) : bool :=
  match children_of t with [] => false | _ :: _ => true end.

(** [current[p]] followed by [f] on the child, which is created when
    missing. *)
Fixpoint upsert (p : str) (f : tree -> tree) (kids : list (str * tree))
  : list (str * tree) :=
  match kids with
  | [] => [(p, f (Node []))]
  | (q, t) :: kids' =>
      if str_eqb q p then (q, f t) :: kids' else (q, t) :: upsert p f kids'
  end.

Fixpoint insert_parts (parts : list str) (t : tree) : tree :=
  match parts with
  | [] => t
  | p :: ps => Node (upsert p (insert_parts ps) (children_of t))
  end.

Definition build_directory_tree {OS : OsPath} (collected : dict) : tree :=
  fold_left
    (fun root '(dkey, _) =>
       match dkey with
       | [] => root
       | _ :: _ => insert_parts (split sep dkey) root
       end)
    collected (Node []).

(** ** Renderer *)

Inductive format_style := Inline | Summary.

(** [" " * n] *)
Definition spaces (n : Z) : str := repeat " "%char (Z.to_nat n).

(** [lines[-1] += "}"] *)
Fixpoint close_last (lines : list str) : list str :=
  match lines with
  | [] => []
  | [l] => [l ++ lit "}"]
  | l :: ls => l :: close_last ls
  end.

(** [dir_display] of [format_directory]: in style [rel-base] the segment
    name is shown without decorations. *)
Definition dir_display (style : path_style) (decorations : list decoration)
    (subdir_name : str) : str :=
  match style with
  | RelBase => subdir_name
  | _ => apply_decorations subdir_name decorations
  end.

Section Render.
Context {OS : OsPath}.

Variable full_map : dict.
Variable collect : collect_strategy.
Variable decorations : list decoration.
Variable style : path_style.
Variable sort_by : sort_mode.
Variable indent_size : Z.
Variable compact_braces : bool.

(** A child of a tree node as the loop of [format_directory] sees it: its
    name, whether it has children of its own, and the recursive call on
    it. *)
Definition item : Type := str * (bool * (str -> nat -> list str -> list str)).

Definition close_brace (indent : str) (is_last : bool) (lines : list str)
  : list str :=
  if compact_braces && is_last then close_last lines
  else lines ++ [indent ++ lit "}"].

Definition basename_lines (findent : str) (files : list str) : list str :=
  map (fun f => findent ++ apply_decorations (basename f) decorations) files.

(** One iteration of the loop of [format_directory]. *)
Definition format_item (it : item) (is_last : bool) (current_path : str)
    (level : nat) (lines : list str) : list str :=
  let '(subdir_name, (has_sub, recurse)) := it in
  let indent := spaces (indent_size * Z.of_nat level) in
  let findent := indent ++ spaces indent_size in
  let full_path :=
    match current_path with
    | [] => subdir_name
    | _ :: _ => join current_path subdir_name
    end in
  let dir_display := dir_display style decorations subdir_name in
  match collect with
  | DirsOnly =>
      if has_sub then
        let lines := lines ++ [indent ++ dir_display ++ lit ":{"] in
        let lines := recurse full_path (S level) lines in
        close_brace indent is_last lines
      else lines ++ [indent ++ dir_display]
  | FilesOnlyC =>
      let lines := lines ++ [indent ++ lit "{"] in
      let lines :=
        match dict_get full_path full_map with
        | Some flist => lines ++ basename_lines findent flist
        | None => lines
        end in
      let lines := recurse full_path (S level) lines in
      close_brace indent is_last lines
  | Dirs1stLastFile =>
      let braces :=
        has_sub || match current_path with [] => false | _ :: _ => true end in
      let lines :=
        if braces then lines ++ [indent ++ dir_display ++ lit ":{"]
        else lines ++ [indent ++ dir_display] in
      let lines :=
        match dict_get full_path full_map with
        | Some (f :: rest) =>
            let lines := lines ++ basename_lines findent [f] in
            if (1 <? length (f :: rest))%nat
            then lines ++ basename_lines findent [last (f :: rest) []]
            else lines
        | _ => lines
        end in
      let lines := if has_sub then recurse full_path (S level) lines else lines in
      if braces then close_brace indent is_last lines else lines
  | All =>
      let lines := lines ++ [indent ++ dir_display ++ lit ":{"] in
      let lines :=
        match dict_get full_path full_map with
        | Some flist => lines ++ basename_lines findent flist
        | None => lines
        end in
      let lines := if has_sub then recurse full_path (S level) lines else lines in
      close_brace indent is_last lines
  end.

Fixpoint format_items (items : list item) (current_path : str) (level : nat)
    (lines : list str) : list str :=
  match items with
  | [] => lines
  | it :: rest =>
      let is_last := match rest with [] => true | _ :: _ => false end in
      format_items rest current_path level
        (format_item it is_last current_path level lines)
  end.

(** [format_directory(node, full_map, current_path, level)], appending to
    [lines].  The children are sorted by name key before the loop, so each
    one carries its recursive call. *)
Fixpoint format_directory (node : tree) (current_path : str) (level : nat)
    (lines : list str) {struct node} : list str :=
  match node with
  | Node kids =>
      let items :=
        sorted (fun it : item => get_subdir_sort_key (fst it) sort_by)
          (map (fun '(name, sub) => (name, (nonempty_tree sub, format_directory sub)))
             kids) in
      format_items items current_path level lines
  end.

End Render.

Definition newline : str := [ascii_of_nat 10].

Definition format_lines {OS : OsPath} (collected_dict : dict)
    (fmt : format_style) (collect : collect_strategy)
    (decorations : list decoration) (style : path_style) (sort_by : sort_mode)
    (indent_size : Z) (compact_braces : bool) : list str :=
  let directory_tree := build_directory_tree collected_dict in
  match fmt with
  | Inline =>
      match collect with
      | DirsOnly =>
          map (fun dkey => apply_decorations dkey decorations) (keys collected_dict)
      | _ =>
          flat_map
            (fun '(_, flist) => map (fun f => apply_decorations f decorations) flist)
            collected_dict
      end
  | Summary =>
      format_directory collected_dict collect decorations style sort_by
        indent_size compact_braces directory_tree [] 0 []
  end.

Definition format_collected_items {OS : OsPath} (collected_dict : dict)
    (fmt : format_style) (collect : collect_strategy)
    (decorations : list decoration) (style : path_style) (sort_by : sort_mode)
    (indent_size : Z) (compact_braces : bool) : str :=
  join_with newline
    (format_lines collected_dict fmt collect decorations style sort_by
       indent_size compact_braces).

(** ** The two platforms *)

(** [fnmatch] patterns made of [*], [?] and literal characters. *)
Fixpoint glob (pat name : str) : bool :=
  match pat with
  | [] => match name with [] => true | _ :: _ => false end
  | p :: pat' =>
      if chr_eqb p "*" then
        (fix star (name : str) : bool :=
           glob pat' name
           || match name with
              | [] => false
              | _ :: name' => star name'
              end) name
      else
        match name with
        | [] => false
        | c :: name' => (chr_eqb p "?" || chr_eqb p c) && glob pat' name'
        end
  end.

(** The loop of [normpath] over the components; [rooted] says whether the
    path starts at a root. *)
Fixpoint norm_comps (rooted : bool) (comps new_comps : list str) : list str :=
  match comps with
  | [] => new_comps
  | comp :: rest =>
      if str_eqb comp [] || str_eqb comp (lit ".") then
        norm_comps rooted rest new_comps
      else if str_eqb comp (lit "..") then
        match rev new_comps with
        | [] =>
            if rooted then norm_comps rooted rest new_comps
            else norm_comps rooted rest (new_comps ++ [comp])
        | prev :: _ =>
            if str_eqb prev (lit "..") then norm_comps rooted rest (new_comps ++ [comp])
            else norm_comps rooted rest (removelast new_comps)
        end
      else norm_comps rooted rest (new_comps ++ [comp])
  end.

Definition nonempty (s : str) : bool :=
  match s with [] => false | _ :: _ => true end.

(** [len(os.path.commonprefix([a, b]))] on two component lists. *)
Fixpoint common_len (eqb : str -> str -> bool) (a b : list str) : nat :=
  match a, b with
  | x :: a', y :: b' => if eqb x y then S (common_len eqb a' b') else 0
  | _, _ => 0
  end.

(** [rel_list] of [relpath]. *)
Definition rel_list (eqb : str -> str -> bool) (start_list path_list : list str)
  : list str :=
  let i := common_len eqb start_list path_list in
  repeat (lit "..") (length start_list - i) ++ skipn i path_list.

Module posixpath.

Definition sep : ascii := "/".

Definition join (a b : str) : str :=
  if startswith [sep] b then b
  else if negb (nonempty a) || endswith_chr sep a then a ++ b
  else a ++ [sep] ++ b.

(** [join] folded over a non-empty list of parts. *)
Definition join_all (parts : list str) : str :=
  match parts with
  | [] => []
  | a :: p => fold_left join p a
  end.

Definition basename (p : str) : str := after_last sep p.

Definition splitdrive (p : str) : str * str := ([], p).

Definition normpath (path : str) : str :=
  match path with
  | [] => lit "."
  | _ :: _ =>
      let initial_slashes :=
        if startswith [sep] path then
          if startswith [sep; sep] path && negb (startswith [sep; sep; sep] path)
          then 2 else 1
        else 0 in
      let comps := norm_comps (0 <? initial_slashes) (split sep path) [] in
      let path := repeat sep initial_slashes ++ join_with [sep] comps in
      match path with
      | [] => lit "."
      | _ :: _ => path
      end
  end.

Section Cwd.
Variable cwd : str.     (* os.getcwd() *)

Definition abspath (path : str) : str :=
  if startswith [sep] path then normpath path
  else normpath (join cwd path).

(** [relpath(path, start)] for a non-empty [path]. *)
Definition relpath (path start : str) : str :=
  let start_list := filter nonempty (split sep (abspath start)) in
  let path_list := filter nonempty (split sep (abspath path)) in
  match rel_list str_eqb start_list path_list with
  | [] => lit "."
  | l => join_all l
  end.

Definition fnmatch (name pat : str) : bool := glob pat name.

End Cwd.
End posixpath.

#[export] Instance posix (cwd : str) : OsPath := {|
  sep := posixpath.sep;
  join := posixpath.join;
  basename := posixpath.basename;
  abspath := posixpath.abspath cwd;
  splitdrive := posixpath.splitdrive;
  relpath := posixpath.relpath cwd;
  fnmatch := posixpath.fnmatch
|}.

(** [ntpath] on paths with a drive letter or no drive (UNC shares are not
    modelled). *)
Module ntpath.

Definition sep : ascii := "\".
Definition altsep : ascii := "/".

Definition is_sep (c : ascii) : bool := chr_eqb c sep || chr_eqb c altsep.

Definition splitdrive (p : str) : str * str :=
  match p with
  | d :: c :: rest => if chr_eqb c ":" then ([d; c], rest) else ([], p)
  | _ => ([], p)
  end.

Definition starts_with_sep (p : str) : bool :=
  match p with c :: _ => is_sep c | [] => false end.

Definition ends_with_sep (p : str) : bool :=
  match rev p with c :: _ => is_sep c | [] => false end.

Definition join (path p : str) : str :=
  let '(result_drive, result_path) := splitdrive path in
  let '(p_drive, p_path) := splitdrive p in
  if starts_with_sep p_path then
    (if nonempty p_drive || negb (nonempty result_drive) then p_drive
     else result_drive) ++ p_path
  else if nonempty p_drive && negb (str_eqb p_drive result_drive)
          && negb (str_eqb (lower p_drive) (lower result_drive)) then
    p_drive ++ p_path
  else
    let result_drive :=
      if nonempty p_drive && negb (str_eqb p_drive result_drive) then p_drive
      else result_drive in
    let result_path :=
      if nonempty result_path && negb (ends_with_sep result_path)
      then result_path ++ [sep] else result_path in
    result_drive ++ result_path ++ p_path.

Definition join_all (parts : list str) : str :=
  match parts with
  | [] => []
  | a :: p => fold_left join p a
  end.

(** The part after the last separator of the path without its drive. *)
Fixpoint tail_of (p : str) : str :=
  match p with
  | [] => []
  | x :: p' =>
      if existsb is_sep p' then tail_of p'
      else if is_sep x then p' else p
  end.

Definition basename (p : str) : str := tail_of (snd (splitdrive p)).

Definition normpath (path : str) : str :=
  let path := replace altsep sep path in
  let '(drive, path) := splitdrive path in
  let rooted := startswith [sep] path in
  let prefix := if rooted then drive ++ [sep] else drive in
  let path := lstrip [sep] path in
  let comps := norm_comps rooted (split sep path) [] in
  match prefix, comps with
  | [], [] => lit "."
  | _, _ => prefix ++ join_with [sep] comps
  end.

Definition normcase (s : str) : str := lower (replace altsep sep s).

Section Cwd.
Variable cwd : str.     (* os.getcwd() *)

Definition isabs (p : str) : bool :=
  starts_with_sep (snd (splitdrive p)).

Definition abspath (path : str) : str :=
  if isabs path then normpath path else normpath (join cwd path).

(** [relpath(path, start)] for a non-empty [path] on the drive of
    [start]; across drives [relpath] raises, and the program does not call
    it there. *)
Definition relpath (path start : str) : str :=
  let start_rest := snd (splitdrive (abspath (normpath start))) in
  let path_rest := snd (splitdrive (abspath (normpath path))) in
  let start_list := filter nonempty (split sep start_rest) in
  let path_list := filter nonempty (split sep path_rest) in
  match
    rel_list (fun a b => str_eqb (normcase a) (normcase b)) start_list path_list
  with
  | [] => lit "."
  | l => join_all l
  end.

Definition fnmatch (name pat : str) : bool := glob (normcase pat) (normcase name).

End Cwd.
End ntpath.

#[export] Instance nt (cwd : str) : OsPath := {|
  sep := ntpath.sep;
  join := ntpath.join;
  basename := ntpath.basename;
  abspath := ntpath.abspath cwd;
  splitdrive := ntpath.splitdrive;
  relpath := ntpath.relpath cwd;
  fnmatch := ntpath.fnmatch
|}.

(** ** Notions the properties are stated with *)

(** [visited patterns fs start p n]: the walk from [start] over the tree
    [fs] comes to the node [n] at the path [p]: the start directory, or an
    entry of a directory it has come to and could list, by a path that no
    pattern excludes. *)
Inductive visited {OS : OsPath} (patterns : list str) (fs : node) (start : str)
  : str -> node -> Prop :=
| visited_start : visited patterns fs start start fs
| visited_child (p e : str) (t : Z) (entries : list (str * node)) (c : node) :
    visited patterns fs start p (Dir t true entries) ->
    In (e, c) entries ->
    is_excluded patterns (join p e) = false ->
    visited patterns fs start (join p e) c.

(** [node_at fs start depth p n]: in the tree [fs] found at [start], the
    node [n] is found at path [p], [depth] levels below [start]. *)
Inductive node_at {OS : OsPath} (fs : node) (start : str) : nat -> str -> node -> Prop :=
| at_start : node_at fs start 0 start fs
| at_child (depth : nat) (p e : str) (t : Z) (r : bool)
    (entries : list (str * node)) (c : node) :
    node_at fs start depth p (Dir t r entries) ->
    In (e, c) entries ->
    node_at fs start (S depth) (join p e) c.

(** What the truncation loop does to one file list. *)
Definition truncated (collect_limit : Z) (collect_limit_min : option Z)
    (flist : list str) : list str :=
  if (collect_limit <? Z.of_nat (length flist))%Z then
    ends (Z.to_nat (Z.max (or_2 collect_limit_min / 2) 1)) flist
  else flist.

(** A name [os.listdir] can return on a POSIX system: not empty, without
    [/], and neither [.] nor [..]. *)
Definition valid_name (e : str) : bool :=
  nonempty e && negb (mem_chr "/" e)
  && negb (str_eqb e (lit ".")) && negb (str_eqb e (lit "..")).

(** The normalised absolute POSIX path with the components [comps]. *)
Definition abs_of (comps : list str) : str := "/"%char :: join_with (lit "/") comps.

(** Every entry name of the tree satisfies [ok]. *)
Fixpoint names_ok (ok : str -> bool) (n : node) : bool :=
  match n with
  | File _ => true
  | Dir _ _ entries => forallb (fun '(e, c) => ok e && names_ok ok c) entries
  end.

Definition no_backslash (e : str) : bool := negb (mem_chr "\" e).

(** Whether the decoration set rewrites slashes. *)
Definition rewrites_slashes (decorations : list decoration) : bool :=
  has Unix decorations || has Windows decorations.

(** What the slash decorations do to one character. *)
Definition slash_chr (decorations : list decoration) (c : ascii) : ascii :=
  if has Unix decorations then (if chr_eqb c "\" then "/"%char else c)
  else if has Windows decorations then (if chr_eqb c "/" then "\"%char else c)
  else c.

(** The path of a directory relative to the start directory, from its
    components below it. *)
Definition rel_of (names : list str) : str :=
  match names with
  | [] => lit "."
  | _ :: _ => join_with (lit "/") names
  end.

(** The key [adjust_paths] stores a directory under (empty when the
    adjuster raises). *)
Definition rendered_key {OS : OsPath} (start : str) (style : path_style)
    (decorations : list decoration) (strict_rel : bool) (base_label : option str)
    (dir_abs : str) : str :=
  match adjust_dir start style decorations strict_rel base_label dir_abs with
  | Ok k => k
  | ValueError _ => []
  end.

(** [segment_in t base level name]: when [t] is rendered from level
    [base], [name] is the name of a node at level [level]. *)
Inductive segment_in : tree -> nat -> nat -> str -> Prop :=
| seg_child (kids : list (str * tree)) (base : nat) (name : str) (sub : tree) :
    In (name, sub) kids -> segment_in (Node kids) base base name
| seg_below (kids : list (str * tree)) (base level : nat) (name parent : str)
    (sub : tree) :
    In (parent, sub) kids -> segment_in sub (S base) level name ->
    segment_in (Node kids) base level name.

(** [b] is the line [a] with closing braces appended to it. *)
Definition braced (a b : str) : Prop := exists k, b = a ++ repeat "}"%char k.

(** Every line of [l] is still in [l'], up to appended closing braces. *)
Definition later (l l' : list str) : Prop :=
  forall a, In a l -> exists b, In b l' /\ braced a b.

(** The lines [l] show the header of a directory segment: [target],
    possibly followed by an opening brace, then closing braces. *)
Definition shows (target : str) (l : list str) : Prop :=
  exists line sfx,
    In line l /\ (sfx = [] \/ sfx = lit ":{") /\ braced (target ++ sfx) line.

(** A line of the summary mode: an indentation, then an unlabeled brace,
    the header of a directory segment ([names]), or the decorated basename
    of a file ([files]); then closing braces. *)
Definition summary_line {OS : OsPath} (names files : str -> Prop)
    (style : path_style) (decorations : list decoration) (line : str) : Prop :=
  exists n body,
    braced (repeat " "%char n ++ body) line /\
    (body = lit "{" \/ body = lit "}" \/
     (exists name sfx,
        names name /\ (sfx = [] \/ sfx = lit ":{") /\
        body = dir_display style decorations name ++ sfx) \/
     (exists f, files f /\ body = apply_decorations (basename f) decorations)).

(** Following the words of the specification and of the docstring of
    [apply_decorations]: [no-leader] removes one leading relative-path
    marker and nothing else. *)
Definition remove_leader (path : str) : str :=
  if startswith (lit "./") path || startswith (lit ".\") path then skipn 2 path
  else path.

(** ** Example inputs *)

Definition linux : OsPath := posix (lit "/").
Definition win : OsPath := nt (lit "C:\").

Definition files_named (names : list string) : list (str * node) :=
  map (fun n => (lit n, File 0)) names.

(** A start directory whose own name matches [*.tmp]. *)
Definition build_tmp : node := Dir 0 true (files_named ["notes.txt"]%string).

(** Five files next to a sub-directory. *)
Definition five_files : node :=
  Dir 0 true
    (files_named ["c"; "a"; "e"; "b"; "d"]%string
       ++ [(lit "sub", Dir 0 true (files_named ["x"]%string))]).

(** Two levels of directories. *)
Definition two_levels : node :=
  Dir 0 true
    [(lit "top.txt", File 0);
     (lit "one", Dir 0 true
        [(lit "b.txt", File 0); (lit "a.txt", File 0);
         (lit "two", Dir 0 true (files_named ["deep.txt"]%string))])].

Definition ten_files : node :=
  Dir 0 true (files_named ["f0"; "f1"; "f2"; "f3"; "f4"; "f5"; "f6"; "f7"; "f8"; "f9"]%string).

Definition three_files : node := Dir 0 true (files_named ["a"; "b"; "c"]%string).

(** A directory [a] holding [b], next to a directory named [a\b]. *)
Definition slash_names : node :=
  Dir 0 true
    [(lit "a", Dir 0 true [(lit "b", Dir 0 true [])]);
     (lit "a\b", Dir 0 true [])].

(** The directories [.git] and [git] side by side. *)
Definition dot_git : node :=
  Dir 0 true
    [(lit ".git", Dir 0 true (files_named ["config"]%string));
     (lit "git", Dir 0 true (files_named ["x"]%string))].

(** An adjusted map in style [rel-base] with a dotted directory. *)
Definition dotted_map : dict :=
  [(lit "src", [lit "src/main.py"]); (lit "src/.git", [lit "src/.git/config"])].

(** The tree [dotted_map] is collected from. *)
Definition src_tree : node :=
  Dir 0 true
    [(lit "main.py", File 0);
     (lit ".git", Dir 0 true (files_named ["config"]%string))].

(** A file and a directory that [*.tmp] matches, next to a kept file. *)
Definition with_tmp : node :=
  Dir 0 true
    [(lit "keep.txt", File 0); (lit "cache.tmp", File 0);
     (lit "old.tmp", Dir 0 true (files_named ["inside.txt"]%string))].

(** ** Notions of the further properties *)

(** Two keys of one shape, the only ones a sort compares. *)
Definition same_kind (a b : key) : bool :=
  match a, b with
  | KStr _, KStr _ | KNum _ _, KNum _ _ | KTime _, KTime _ => true
  | _, _ => false
  end.

(** [listed patterns n root depth p]: walking the node [n] found at
    [root], the path [p] is a directory that can be listed, [depth] levels
    below [root], reached through directories that can be listed and that
    no pattern excludes; at each level the entry is the one found at its
    path. *)
Inductive listed {OS : OsPath} (patterns : list str) : node -> str -> nat -> str -> Prop :=
| listed_here (t : Z) (entries : list (str * node)) (root : str) :
    listed patterns (Dir t true entries) root 0 root
| listed_below (t : Z) (entries : list (str * node)) (root e : str) (c : node)
    (depth : nat) (p : str) :
    assoc (join root e) (map (fun '(e, c) => (join root e, c)) entries) = Some c ->
    is_excluded patterns (join root e) = false ->
    listed patterns c (join root e) depth p ->
    listed patterns (Dir t true entries) root (S depth) p.

(** [has_path parts t]: following the names [parts] from the root of [t]
    leads to a node of [t]. *)
Fixpoint has_path (parts : list str) (t : tree) : bool :=
  match parts with
  | [] => true
  | p :: ps =>
      match assoc p (children_of t) with
      | Some sub => has_path ps sub
      | None => false
      end
  end.

(** No name of the tree contains the character [c]. *)
Inductive sep_free (c : ascii) : tree -> Prop :=
| sep_free_node (kids : list (str * tree)) :
    Forall (fun ns => mem_chr c (fst ns) = false /\ sep_free c (snd ns)) kids ->
    sep_free c (Node kids).

(** A path that does not start with a slash. *)
Definition relative (p : str) : Prop := forall s, p <> "/"%char :: s.

(** ** Command line

    The parts of [main] that do not go through [argparse]: the extended
    help lookup on the raw argument list, and the choice of the decoration
    set. *)

(** [x in l] on a list of strings. *)
Definition str_in (x : str) (l : list str) : bool := existsb (str_eqb x) l.

(** [l.index(x)]; [None] stands for the [ValueError] of a missing [x]. *)
Fixpoint index (x : str) (l : list str) : option nat :=
  match l with
  | [] => None
  | y :: l' =>
      if str_eqb y x then Some 0
      else match index x l' with Some i => Some (S i) | None => None end
  end.

(** The keys of [EXTENDED_HELP]. *)
Definition EXTENDED_HELP : list str := [lit "path-style"; lit "sort"].

(** What [extended_help_lookup] does: it returns, or it prints the
    extended help of a topic and exits. *)
Inductive lookup_outcome :=
| Returns
| PrintsAndExits (topic : str).

Definition extended_help_lookup (argv : list str) : lookup_outcome :=
  if str_in (lit "-h") argv || str_in (lit "--help") argv then
    let idx :=
      if str_in (lit "-h") argv then index (lit "-h") argv
      else index (lit "--help") argv in
    match idx with
    | Some idx =>
        match nth_error argv (idx + 1) with
        | Some topic =>
            if str_in topic EXTENDED_HELP then PrintsAndExits topic else Returns
        | None => Returns
        end
    | None => Returns
    end
  else Returns.

(** [sys_def_dec] of [main], from [platform.system()]. *)
Definition sys_def_dec (os_type : str) : decoration :=
  if str_in os_type [lit "Darwin"; lit "Linux"; lit "Unix"; lit "FreeBSD"; lit "BSD"]
  then Unix else Windows.

(** [final_decs] of [main]: the set of the decorations given on the command
    line, the system default when none is given; when it holds both [unix]
    and [windows] the system default is discarded. *)
Definition final_decs (os_type : str) (decorator : list decoration) : list decoration :=
  let final_decs :=
    match decorator with
    | [] => [sys_def_dec os_type]
    | _ :: _ => decorator
    end in
  if has Unix final_decs && has Windows final_decs then
    filter (fun d => negb (decoration_eqb d (sys_def_dec os_type))) final_decs
  else final_decs.

(** * Properties *)

Unset Implicit Arguments.
Arguments chr_eqb : simpl never.

(** ** Strings and dictionaries *)

Lemma chr_eqb_eq (a b : ascii) : chr_eqb a b = true <-> a = b.
Proof. apply Ascii.eqb_eq. Qed.

Lemma chr_eqb_refl (a : ascii) : chr_eqb a a = true.
Proof. apply Ascii.eqb_refl. Qed.

Lemma chr_eqb_sym (a b : ascii) : chr_eqb a b = chr_eqb b a.
Proof. apply Ascii.eqb_sym. Qed.

Lemma str_eqb_eq (a b : str) : str_eqb a b = true <-> a = b.
Proof.
  revert b; induction a as [|x a IH]; intros [|y b]; simpl; split;
    try congruence; try reflexivity.
  - intros H. apply andb_true_iff in H as [H1 H2].
    apply chr_eqb_eq in H1. apply IH in H2. congruence.
  - intros H. inversion H; subst. rewrite chr_eqb_refl. simpl. now apply IH.
Qed.

Lemma str_eqb_refl (a : str) : str_eqb a a = true.
Proof. now apply str_eqb_eq. Qed.

Lemma str_eqb_neq (a b : str) : str_eqb a b = false <-> a <> b.
Proof.
  split; intros H.
  - intros E. apply str_eqb_eq in E. congruence.
  - destruct (str_eqb a b) eqn:E; [apply str_eqb_eq in E; contradiction | reflexivity].
Qed.

Lemma assoc_in (V : Type) (k : str) (l : list (str * V)) (v : V) :
  assoc k l = Some v -> In (k, v) l.
Proof.
  induction l as [|[k' v'] l IH]; simpl; [discriminate|].
  destruct (str_eqb k' k) eqn:E.
  - apply str_eqb_eq in E. intros [= ->]. left. now subst.
  - intros H. right. now apply IH.
Qed.

Lemma dict_in_keys (k : str) (d : dict) : dict_in k d = true <-> In k (keys d).
Proof.
  unfold dict_in, dict_get, keys.
  induction d as [|[k' v'] d IH]; simpl.
  - split; [discriminate | contradiction].
  - destruct (str_eqb k' k) eqn:E.
    + apply str_eqb_eq in E. split; auto.
    + apply str_eqb_neq in E. rewrite IH. split; [auto | intros [?|?]; [contradiction | auto]].
Qed.

Lemma keys_app (d e : dict) : keys (d ++ e) = keys d ++ keys e.
Proof. apply map_app. Qed.

Lemma keys_dict_set_in (k : str) (v : list str) (d : dict) :
  In k (keys d) -> keys (dict_set k v d) = keys d.
Proof.
  induction d as [|[k' v'] d IH]; simpl; [contradiction|].
  intros H. destruct (str_eqb k' k) eqn:E; simpl; [reflexivity|].
  apply str_eqb_neq in E. destruct H as [H|H]; [contradiction|].
  now rewrite IH.
Qed.

Lemma keys_dict_set_new (k : str) (v : list str) (d : dict) :
  ~ In k (keys d) -> dict_set k v d = d ++ [(k, v)].
Proof.
  induction d as [|[k' v'] d IH]; simpl; [reflexivity|].
  intros H. destruct (str_eqb k' k) eqn:E.
  - apply str_eqb_eq in E. tauto.
  - rewrite IH; tauto.
Qed.

Lemma in_dict_set (k : str) (v : list str) (d : dict) (k' : str) (v' : list str) :
  In (k', v') (dict_set k v d) -> (k' = k /\ v' = v) \/ In (k', v') d.
Proof.
  induction d as [|[k0 v0] d IH]; simpl.
  - intros [[= <- <-]|[]]. now left.
  - destruct (str_eqb k0 k) eqn:E; simpl.
    + apply str_eqb_eq in E. intros [[= <- <-]|H]; auto.
    + intros [H|H]; auto. apply IH in H. tauto.
Qed.

Lemma NoDup_keys_dict_set (k : str) (v : list str) (d : dict) :
  NoDup (keys d) -> NoDup (keys (dict_set k v d)).
Proof.
  intros H. destruct (in_dec (list_eq_dec ascii_dec) k (keys d)) as [I|I].
  - now rewrite keys_dict_set_in.
  - rewrite keys_dict_set_new, keys_app by assumption. simpl.
    apply NoDup_app; [assumption | repeat constructor; intros [] | ].
    intros x Hx [<-|[]]. contradiction.
Qed.

Lemma dict_get_set_same (k : str) (v : list str) (d : dict) :
  dict_get k (dict_set k v d) = Some v.
Proof.
  unfold dict_get. induction d as [|[k' v'] d IH]; simpl.
  - now rewrite str_eqb_refl.
  - destruct (str_eqb k' k) eqn:E; simpl; rewrite E; [reflexivity | exact IH].
Qed.

Lemma dict_get_set_other (k k' : str) (v : list str) (d : dict) :
  k' <> k -> dict_get k' (dict_set k v d) = dict_get k' d.
Proof.
  unfold dict_get. intros N. induction d as [|[k0 v0] d IH]; simpl.
  - apply str_eqb_neq in N. destruct (str_eqb k k') eqn:E; [|reflexivity].
    apply str_eqb_eq in E. apply str_eqb_neq in N. congruence.
  - destruct (str_eqb k0 k) eqn:E; simpl.
    + apply str_eqb_eq in E. subst k0.
      destruct (str_eqb k k') eqn:E'; [|reflexivity].
      apply str_eqb_eq in E'. congruence.
    + destruct (str_eqb k0 k'); [reflexivity | exact IH].
Qed.

(** ** Sorting *)

Section SortedFacts.
Variable A : Type.
Variable k : A -> key.

Lemma in_insert_sorted (x y : A) (l : list A) :
  In y (insert_sorted k x l) <-> y = x \/ In y l.
Proof.
  induction l as [|z l IH]; simpl.
  - intuition.
  - destruct (key_ltb (k z) (k x)); simpl; rewrite ?IH; intuition.
Qed.

Lemma in_sorted (y : A) (l : list A) : In y (sorted k l) <-> In y l.
Proof.
  induction l as [|x l IH]; simpl; [tauto|].
  rewrite in_insert_sorted, IH. intuition.
Qed.

Lemma length_insert_sorted (x : A) (l : list A) :
  length (insert_sorted k x l) = S (length l).
Proof.
  induction l as [|z l IH]; simpl; [reflexivity|].
  destruct (key_ltb (k z) (k x)); simpl; congruence.
Qed.

Lemma length_sorted (l : list A) : length (sorted k l) = length l.
Proof.
  induction l as [|x l IH]; simpl; [reflexivity|].
  now rewrite length_insert_sorted, IH.
Qed.
End SortedFacts.

(** ** The file-system tree *)

Lemma node_induction (P : node -> Prop) :
  (forall t, P (File t)) ->
  (forall t r entries, Forall (fun ec => P (snd ec)) entries -> P (Dir t r entries)) ->
  forall n, P n.
Proof.
  intros Hfile Hdir. fix IH 1. intros [t|t r entries]; [apply Hfile | apply Hdir].
  induction entries as [|[e c] es IHes]; constructor; [apply IH | exact IHes].
Qed.

Lemma in_first_last (f : str) (files : list str) :
  In f (first_last files) -> In f files.
Proof.
  unfold first_last. destruct (1 <? length files)%nat eqn:E; [|auto].
  apply Nat.ltb_lt in E. intros [<-|[<-|[]]].
  - apply nth_In. lia.
  - destruct files as [|x files]; [simpl in E; lia|].
    destruct (exists_last (l := x :: files)) as (l' & a & ->); [discriminate|].
    rewrite last_last. apply in_or_app. right. now left.
Qed.

(** ** The walker *)

Section WalkerFacts.
Context {OS : OsPath}.

Variable exclude_patterns : list str.
Variable sort_by : sort_mode.
Variable collect : collect_strategy.
Variable max_depth : option Z.
Variable prune_large_dirs : option Z.

Local Abbreviation excluded := (is_excluded exclude_patterns).
Local Abbreviation entries_of := (listing exclude_patterns).
Local Abbreviation subdirs := (subdirs_of exclude_patterns sort_by).
Local Abbreviation files := (files_of exclude_patterns sort_by).
Local Abbreviation visit_dir := (visit collect max_depth prune_large_dirs).
Local Abbreviation walk :=
  (recurse_dir exclude_patterns sort_by collect max_depth prune_large_dirs).

Lemma in_listing (root : str) (entries : list (str * node)) (fp : str) (c : node) :
  In (fp, c) (entries_of root entries) <->
  (exists e, In (e, c) entries /\ fp = join root e) /\ excluded fp = false.
Proof.
  unfold listing. rewrite filter_In, in_map_iff. split.
  - intros [([e c'] & [= <- <-] & Hin) Hex].
    split; [eauto | now apply negb_true_iff].
  - intros [(e & Hin & ->) Hex]. split.
    + exists (e, c). auto.
    + now apply negb_true_iff.
Qed.

Lemma in_subdirs_of (root : str) (entries : list (str * node)) (sd : str) :
  In sd (subdirs root entries) <->
  exists e c, In (e, c) entries /\ isdir c = true /\ sd = join root e
              /\ excluded sd = false.
Proof.
  unfold subdirs_of, sort_files. rewrite in_sorted, in_map_iff. split.
  - intros ([fp c] & <- & H). apply filter_In in H as [H Hd].
    apply in_listing in H as [(e & Hin & ->) Hex]. exists e, c. auto.
  - intros (e & c & Hin & Hd & -> & Hex). exists (join root e, c). split; [reflexivity|].
    apply filter_In. split; [|exact Hd]. apply in_listing. eauto.
Qed.

Lemma in_files_of (root : str) (entries : list (str * node)) (f : str) :
  In f (files root entries) <->
  exists e c, In (e, c) entries /\ isdir c = false /\ f = join root e
              /\ excluded f = false.
Proof.
  unfold files_of, sort_files. rewrite in_sorted, in_map_iff. split.
  - intros ([fp c] & <- & H). apply filter_In in H as [H Hd].
    apply negb_true_iff in Hd.
    apply in_listing in H as [(e & Hin & ->) Hex]. exists e, c. auto.
  - intros (e & c & Hin & Hd & -> & Hex). exists (join root e, c). split; [reflexivity|].
    apply filter_In. split; [|now apply negb_true_iff]. apply in_listing. eauto.
Qed.

Lemma in_visit_subdirs (root : str) (depth : nat) (sds fl : list str)
    (d : dict) (sd : str) :
  In sd (snd (visit_dir root depth sds fl d)) -> In sd sds.
Proof.
  unfold visit.
  destruct (on_visit_directory _ _ _ _ _ _); simpl; tauto.
Qed.

Lemma assoc_walks (root : str) (depth : nat) (entries : list (str * node))
    (sd : str) (w : dict -> dict) :
  assoc sd
    (map (fun '(e, c) => (join root e, walk c (join root e) (S depth)))
       entries) = Some w ->
  exists e c, In (e, c) entries /\ sd = join root e
              /\ w = walk c sd (S depth).
Proof.
  intros H. apply assoc_in in H. apply in_map_iff in H as ([e c] & [= <- <-] & Hin).
  eauto.
Qed.

(** A property of the dictionary kept by every visit is kept by the whole
    walk; [Q] describes the calls [recurse_dir(root, depth)] that occur. *)
Lemma recurse_dir_invariant (Q : str -> nat -> node -> Prop) (I : dict -> Prop) :
  (forall root depth t entries d,
      Q root depth (Dir t true entries) -> I d ->
      I (fst (visit_dir root depth (subdirs root entries) (files root entries) d))) ->
  (forall root depth t entries d e c,
      Q root depth (Dir t true entries) -> In (e, c) entries ->
      In (join root e)
        (snd (visit_dir root depth (subdirs root entries) (files root entries) d)) ->
      Q (join root e) (S depth) c) ->
  forall n root depth d, Q root depth n -> I d -> I (walk n root depth d).
Proof.
  intros Hvisit Hchild n.
  induction n as [t|t r entries IH] using node_induction; intros root depth d HQ HI;
    [exact HI|].
  destruct r; [|exact HI]. simpl.
  specialize (Hvisit root depth t entries d HQ HI).
  specialize (Hchild root depth t entries d).
  destruct (visit_dir root depth (subdirs root entries) (files root entries) d)
    as [d' sds]. simpl in *.
  assert (Hfold : forall l d', (forall sd, In sd l -> In sd sds) -> I d' ->
            I (fold_left
                 (fun acc sd =>
                    match
                      assoc sd
                        (map (fun '(e, c) =>
                                (join root e, walk c (join root e) (S depth)))
                           entries)
                    with
                    | Some w => w acc
                    | None => acc
                    end) l d')); [|now apply Hfold].
  induction l as [|sd l IHl]; intros d'' Hl HI'; simpl; [exact HI'|].
  apply IHl; [intros; apply Hl; now right|].
  destruct (assoc sd _) as [w|] eqn:E; [|exact HI'].
  apply assoc_walks in E as (e & c & Hin & -> & ->).
  rewrite Forall_forall in IH. apply (IH (e, c) Hin); [|exact HI'].
  apply Hchild; [exact HQ | exact Hin | apply Hl; now left].
Qed.

End WalkerFacts.

Lemma dict_get_setdefault_other (k k' : str) (d : dict) :
  k' <> k -> dict_get k' (dict_setdefault k d) = dict_get k' d.
Proof.
  intros N. unfold dict_setdefault. destruct (dict_in k d); [reflexivity|].
  unfold dict_get. induction d as [|[k0 v0] d IH]; simpl.
  - destruct (str_eqb k k') eqn:E; [|reflexivity].
    apply str_eqb_eq in E. congruence.
  - destruct (str_eqb k0 k'); [reflexivity | exact IH].
Qed.

Lemma NoDup_keys_setdefault (k : str) (d : dict) :
  NoDup (keys d) -> NoDup (keys (dict_setdefault k d)).
Proof.
  intros H. unfold dict_setdefault. destruct (dict_in k d) eqn:E; [exact H|].
  rewrite <- (keys_dict_set_new k []).
  - now apply NoDup_keys_dict_set.
  - intros I. apply dict_in_keys in I. congruence.
Qed.

Lemma NoDup_keys_extend (k : str) (vs : list str) (d : dict) :
  NoDup (keys d) -> NoDup (keys (dict_extend k vs d)).
Proof.
  intros H. unfold dict_extend. destruct (dict_get k d) eqn:E.
  - now apply NoDup_keys_dict_set.
  - rewrite <- (keys_dict_set_new k vs).
    + now apply NoDup_keys_dict_set.
    + intros I. apply dict_in_keys in I. unfold dict_in in I. now rewrite E in I.
Qed.

Lemma in_setdefault (k : str) (d : dict) (k' : str) (v' : list str) :
  In (k', v') (dict_setdefault k d) -> (k' = k /\ v' = []) \/ In (k', v') d.
Proof.
  unfold dict_setdefault. destruct (dict_in k d); [auto|].
  intros H. apply in_app_or in H as [H|[[= <- <-]|[]]]; auto.
Qed.

Lemma in_extend (k : str) (vs : list str) (d : dict) (k' : str) (v' : list str) :
  In (k', v') (dict_extend k vs d) ->
  (k' = k /\ exists v, v' = v ++ vs /\ (v = [] \/ In (k, v) d)) \/ In (k', v') d.
Proof.
  unfold dict_extend. destruct (dict_get k d) as [v|] eqn:E.
  - intros H. apply in_dict_set in H as [[-> ->]|H]; [|auto].
    left. split; [reflexivity|]. exists v. split; [reflexivity|].
    right. now apply assoc_in.
  - intros H. apply in_app_or in H as [H|[[= <- <-]|[]]]; [auto|].
    left. split; [reflexivity|]. exists []. auto.
Qed.

Section WalkerTheorems.
Context {OS : OsPath}.

Lemma NoDup_keys_visit (collect : collect_strategy) (max_depth prune : option Z)
    (root : str) (depth : nat) (subdirs files : list str) (d : dict) :
  NoDup (keys d) ->
  NoDup (keys (fst (visit collect max_depth prune root depth subdirs files d))).
Proof.
  intros H. unfold visit.
  destruct (on_visit_directory _ _ _ _ _ _), collect; simpl;
    auto using NoDup_keys_dict_set, NoDup_keys_setdefault, NoDup_keys_extend.
Qed.

Lemma NoDup_keys_walk (fs : node) (start : str) (exclude_patterns : option (list str))
    (sort_by : sort_mode) (collect : collect_strategy)
    (collect_limit collect_limit_min max_depth prune : option Z) :
  NoDup
    (keys
       (walk_directories fs start exclude_patterns sort_by collect collect_limit
          collect_limit_min max_depth prune)).
Proof.
  unfold walk_directories.
  apply (recurse_dir_invariant _ _ _ _ _ (fun _ _ _ => True)
           (fun d => NoDup (keys d))); auto.
  - intros. now apply NoDup_keys_visit.
  - constructor.
Qed.

(** What [visit] leaves in the dictionary: old entries, or an entry for
    [root] whose files are among the old ones and [files]. *)
Lemma in_visit (collect : collect_strategy) (max_depth prune : option Z)
    (root : str) (depth : nat) (subdirs files : list str) (d : dict)
    (k : str) (fl : list str) :
  In (k, fl) (fst (visit collect max_depth prune root depth subdirs files d)) ->
  In (k, fl) d \/
  (k = root /\
   forall f, In f fl -> In f files \/ exists fl0, In (k, fl0) d /\ In f fl0).
Proof.
  unfold visit.
  destruct (on_visit_directory _ _ _ _ _ _), collect; simpl; intros H;
    repeat match goal with
      | H : In _ (dict_set _ _ _) |- _ => apply in_dict_set in H as [[-> ->]|H]
      | H : In _ (dict_setdefault _ _) |- _ => apply in_setdefault in H as [[-> ->]|H]
      | H : In _ (dict_extend _ _ _) |- _ =>
          apply in_extend in H as [[-> (v & -> & [->|Hv])]|H]
      end;
    auto; right; (split; [reflexivity|]); intros f Hf;
    try (apply in_first_last in Hf); auto; try contradiction.
  all: try (apply in_app_or in Hf as [Hf|Hf]); try (apply in_first_last in Hf);
    eauto.
Qed.

End WalkerTheorems.

Section WalkClaims.
Context {OS : OsPath}.

Variable exclude_patterns : list str.
Variable sort_by : sort_mode.

Lemma recurse_dir_no_descent (collect : collect_strategy) (max_depth prune : option Z)
    (t : Z) (entries : list (str * node)) (root : str) (depth : nat) (d : dict) :
  let v :=
    visit collect max_depth prune root depth
      (subdirs_of exclude_patterns sort_by root entries)
      (files_of exclude_patterns sort_by root entries) d in
  snd v = [] ->
  recurse_dir exclude_patterns sort_by collect max_depth prune (Dir t true entries)
    root depth d = fst v.
Proof.
  simpl. destruct (visit _ _ _ _ _ _ _ _) as [d' sds]. simpl. now intros ->.
Qed.

Lemma keys_set_setdefault (root : str) (fl : list str) (d : dict) (k : str) :
  In k (keys (dict_set root fl (dict_setdefault root d))) -> k = root \/ In k (keys d).
Proof.
  unfold keys. rewrite in_map_iff. intros ([k' v] & <- & H). simpl.
  apply in_dict_set in H as [[-> _]|H]; [now left|].
  apply in_setdefault in H as [[-> _]|H]; [now left|].
  right. apply in_map_iff. now exists (k', v).
Qed.

End WalkClaims.

Section DepthAndPruning.
Context {OS : OsPath}.

Variable exclude_patterns : list str.
Variable sort_by : sort_mode.

Lemma on_visit_skip (root : str) (dirs files : list str) (depth : nat) (md : Z)
    (prune : option Z) :
  (md <= Z.of_nat depth)%Z ->
  on_visit_directory root dirs files depth (Some md) prune = Skip.
Proof.
  intros H. unfold on_visit_directory.
  now replace (md <=? Z.of_nat depth)%Z with true by (symmetry; now apply Z.leb_le).
Qed.

Lemma on_visit_partial (root : str) (dirs files : list str) (depth : nat)
    (max_depth : option Z) (threshold : Z) :
  (forall md, max_depth = Some md -> (Z.of_nat depth < md)%Z) ->
  (threshold <= Z.of_nat (length files))%Z ->
  on_visit_directory root dirs files depth max_depth (Some threshold) = Partial.
Proof.
  intros Hd Hp. unfold on_visit_directory.
  replace (threshold <=? Z.of_nat (length files))%Z with true
    by (symmetry; now apply Z.leb_le).
  destruct max_depth as [md|]; [|reflexivity].
  specialize (Hd md eq_refl).
  now replace (md <=? Z.of_nat depth)%Z with false by (symmetry; apply Z.leb_gt; lia).
Qed.

Lemma descent_below_max_depth (collect : collect_strategy) (md : Z) (prune : option Z)
    (root : str) (depth : nat) (sds fl : list str) (d : dict) (sd : str) :
  In sd (snd (visit collect (Some md) prune root depth sds fl d)) ->
  (Z.of_nat depth < md)%Z.
Proof.
  unfold visit, on_visit_directory.
  destruct (md <=? Z.of_nat depth)%Z eqn:E; simpl; [contradiction|].
  intros _. now apply Z.leb_gt.
Qed.

Lemma keys_visit (collect : collect_strategy) (max_depth prune : option Z)
    (root : str) (depth : nat) (sds fl : list str) (d : dict) (k : str) :
  In k (keys (fst (visit collect max_depth prune root depth sds fl d))) ->
  k = root \/ In k (keys d).
Proof.
  unfold keys. rewrite in_map_iff. intros ([k' v] & <- & H). simpl.
  apply in_visit in H as [H|[-> _]]; [right | now left].
  apply in_map_iff. now exists (k', v).
Qed.

Lemma partial_records_first_last (max_depth : option Z) (threshold : Z) (t : Z)
    (entries : list (str * node)) (root : str) (depth : nat) (d : dict) :
  (forall md, max_depth = Some md -> (Z.of_nat depth < md)%Z) ->
  (threshold <= Z.of_nat (length (files_of exclude_patterns sort_by root entries)))%Z ->
  recurse_dir exclude_patterns sort_by All max_depth (Some threshold)
    (Dir t true entries) root depth d
  = dict_set root (first_last (files_of exclude_patterns sort_by root entries))
      (dict_setdefault root d).
Proof.
  intros Hd Hp.
  rewrite recurse_dir_no_descent; unfold visit; rewrite on_visit_partial;
    try assumption; try reflexivity; rewrite length_map; exact Hp.
Qed.

Lemma skip_records_full_list (md : Z) (prune : option Z) (t : Z)
    (entries : list (str * node)) (root : str) (depth : nat) (d : dict) :
  (md <= Z.of_nat depth)%Z ->
  recurse_dir exclude_patterns sort_by All (Some md) prune (Dir t true entries)
    root depth d
  = dict_set root (files_of exclude_patterns sort_by root entries)
      (dict_setdefault root d).
Proof.
  intros H.
  rewrite recurse_dir_no_descent; unfold visit; rewrite on_visit_skip;
    try assumption; reflexivity.
Qed.

Lemma keys_within_max_depth (md : Z) (prune : option Z) (collect : collect_strategy)
    (fs : node) (start k : str) :
  In k (keys (recurse_dir exclude_patterns sort_by collect (Some md) prune
                fs start 0 [])) ->
  exists depth n,
    node_at fs start depth k n /\ isdir n = true /\
    (Z.of_nat depth <= Z.max md 0)%Z.
Proof.
  revert k.
  apply (recurse_dir_invariant _ _ _ _ _
           (fun root depth n =>
              node_at fs start depth root n /\ (Z.of_nat depth <= Z.max md 0)%Z)
           (fun d => forall k, In k (keys d) ->
              exists depth n,
                node_at fs start depth k n /\ isdir n = true /\
                (Z.of_nat depth <= Z.max md 0)%Z)).
  - intros root depth t entries d [Hat Hle] HI k Hk.
    apply keys_visit in Hk as [->|Hk]; [|now apply HI].
    exists depth, (Dir t true entries). auto.
  - intros root depth t entries d e c [Hat Hle] Hin Hsd.
    apply descent_below_max_depth in Hsd.
    split; [eapply at_child; eassumption | lia].
  - split; [constructor | lia].
  - intros k [].
Qed.

End DepthAndPruning.

(** ** The walker's claims *)

(** C2: a visited directory whose file count reaches the prune threshold
    (and whose depth is below any depth limit) is recorded, under
    [collect = all], with the first and last of its sorted files (all of
    them when there is at most one), and the visit descends into no
    sub-directory: the call changes the entry of that directory only, so
    no other key is added; from the start directory the whole map is that
    one entry. *)
Theorem prune_keeps_first_and_last {OS : OsPath} (exclude_patterns : option (list str))
    (sort_by : sort_mode) (collect_limit collect_limit_min max_depth : option Z)
    (threshold : Z) (t : Z) (entries : list (str * node)) (root : str)
    (depth : nat) (d : dict)
    (Hdepth : forall md, max_depth = Some md -> (Z.of_nat depth < md)%Z)
    (Hcount :
      (threshold <=
       Z.of_nat (length (files_of (or_empty exclude_patterns) sort_by root entries)))%Z) :
  let files := files_of (or_empty exclude_patterns) sort_by root entries in
  let result :=
    recurse_dir (or_empty exclude_patterns) sort_by All max_depth (Some threshold)
      (Dir t true entries) root depth d in
  dict_get root result =
    Some (if (1 <? length files)%nat then [nth 0 files []; last files []] else files) /\
  (forall k, k <> root -> dict_get k result = dict_get k d) /\
  (forall k, In k (keys result) -> k = root \/ In k (keys d)) /\
  (depth = 0 ->
   walk_directories (Dir t true entries) root exclude_patterns sort_by All
     collect_limit collect_limit_min max_depth (Some threshold)
   = [(root, first_last files)]).
Proof.
  intros files result.
  assert (E : result = dict_set root (first_last files) (dict_setdefault root d))
    by now apply partial_records_first_last.
  rewrite E. repeat split.
  - apply dict_get_set_same.
  - intros k Hk. rewrite dict_get_set_other by exact Hk.
    now apply dict_get_setdefault_other.
  - apply keys_set_setdefault.
  - intros ->. unfold walk_directories.
    rewrite partial_records_first_last by assumption.
    unfold dict_setdefault. simpl. now rewrite str_eqb_refl.
Qed.


(** ** Secondary truncation *)

Lemma dict_set_middle (k : str) (v v0 : list str) (pre rest : dict) :
  ~ In k (keys pre) ->
  dict_set k v (pre ++ (k, v0) :: rest) = pre ++ (k, v) :: rest.
Proof.
  induction pre as [|[k' v'] pre IH]; simpl; intros H.
  - now rewrite str_eqb_refl.
  - destruct (str_eqb k' k) eqn:E.
    + apply str_eqb_eq in E. tauto.
    + rewrite IH; tauto.
Qed.

Lemma truncate_as_map (limit : Z) (limit_min : option Z) (raw : dict) :
  NoDup (keys raw) ->
  truncate limit limit_min raw
  = map (fun '(k, fl) => (k, truncated limit limit_min fl)) raw.
Proof.
  unfold truncate.
  assert (G : forall items pre,
             NoDup (keys (pre ++ items)) ->
             fold_left
               (fun raw '(dkey, flist) =>
                  if (limit <? Z.of_nat (length flist))%Z then
                    dict_set dkey
                      (ends (Z.to_nat (Z.max (or_2 limit_min / 2) 1)) flist) raw
                  else raw)
               items (pre ++ items)
             = pre ++ map (fun '(k, fl) => (k, truncated limit limit_min fl)) items).
  { induction items as [|[k fl] items IH]; intros pre ND; simpl; [reflexivity|].
    assert (Hk : ~ In k (keys pre)).
    { rewrite keys_app in ND. simpl in ND. apply NoDup_remove_2 in ND.
      intros I. apply ND. apply in_or_app. now left. }
    assert (E : (if (limit <? Z.of_nat (length fl))%Z
                 then dict_set k
                        (ends (Z.to_nat (Z.max (or_2 limit_min / 2) 1)) fl)
                        (pre ++ (k, fl) :: items)
                 else pre ++ (k, fl) :: items)
                = (pre ++ [(k, truncated limit limit_min fl)]) ++ items).
    { unfold truncated. rewrite <- app_assoc. simpl.
      destruct (limit <? Z.of_nat (length fl))%Z; [|reflexivity].
      now apply dict_set_middle. }
    rewrite E, IH, <- app_assoc; [reflexivity|].
    rewrite keys_app in *. rewrite keys_app. simpl in *.
    now rewrite <- app_assoc. }
  intros ND. exact (G raw [] ND).
Qed.

Lemma half_formula (limit_min : option Z) :
  Z.max (or_2 limit_min / 2) 1
  = Z.max 1 (match limit_min with Some m => m | None => 2 end / 2).
Proof.
  destruct limit_min as [m|]; simpl; [|reflexivity].
  destruct (m =? 0)%Z eqn:E; [|apply Z.max_comm].
  apply Z.eqb_eq in E. subst m. reflexivity.
Qed.

(** C4 (as amended): under [collect = all] with a collect-limit that is
    set and not zero, every entry with more files than the limit is
    replaced by its first [h] and last [h] files, [h = max(1,
    floor(minimum / 2))] with the minimum defaulting to 2, and the other
    entries are unchanged; no other strategy runs the pass; with limit 5
    and minimum 4 a directory of 10 files ends with its first two and last
    two files. *)
Theorem collect_limit_truncates {OS : OsPath} (fs : node) (start : str)
    (sort_by : sort_mode) (exclude_patterns : option (list str)) (limit : Z)
    (limit_min max_depth prune : option Z) (Hlimit : limit <> 0%Z) :
  let h :=
    Z.to_nat (Z.max 1 (match limit_min with Some m => m | None => 2 end / 2)) in
  let walked :=
    walk_directories fs start exclude_patterns sort_by All (Some limit) limit_min
      max_depth prune in
  collect_raw fs start All sort_by exclude_patterns (Some limit) limit_min
    max_depth prune
  = map (fun '(k, fl) =>
           (k, if (limit <? Z.of_nat (length fl))%Z
               then firstn h fl ++ skipn (length fl - h) fl
               else fl))
      walked /\
  (forall collect collect_limit,
      collect <> All ->
      collect_raw fs start collect sort_by exclude_patterns collect_limit limit_min
        max_depth prune
      = walk_directories fs start exclude_patterns sort_by collect collect_limit
          limit_min max_depth prune) /\
  (limit = 5%Z -> limit_min = Some 4%Z ->
   forall k fl, In (k, fl) walked -> length fl = 10 ->
     In (k, [nth 0 fl []; nth 1 fl []; nth 8 fl []; nth 9 fl []])
       (collect_raw fs start All sort_by exclude_patterns (Some limit) limit_min
          max_depth prune)).
Proof.
  intros h walked.
  assert (E : collect_raw fs start All sort_by exclude_patterns (Some limit)
                limit_min max_depth prune
              = map (fun '(k, fl) =>
                       (k, if (limit <? Z.of_nat (length fl))%Z
                           then firstn h fl ++ skipn (length fl - h) fl
                           else fl)) walked).
  { unfold collect_raw.
    replace (limit =? 0)%Z with false by (symmetry; now apply Z.eqb_neq).
    rewrite truncate_as_map by apply NoDup_keys_walk.
    apply map_ext. intros [k fl]. unfold truncated, ends.
    now rewrite half_formula. }
  split; [exact E|]. split.
  - intros collect collect_limit H. unfold collect_raw.
    destruct collect; [contradiction | reflexivity ..].
  - intros -> -> k fl Hin Hlen. rewrite E.
    apply in_map_iff. exists (k, fl). split; [|exact Hin].
    subst h. rewrite Hlen.
    do 10 (destruct fl as [|? fl]; [discriminate|]).
    destruct fl; [reflexivity | discriminate].
Qed.

(** ** The sort engine *)

(** C10: sorting with mode [winsequence] returns the same list as sorting
    with mode [iname]: both compare the lower-cased basename. *)
Theorem winsequence_sorts_as_iname {OS : OsPath} (getmtime : str -> Z)
    (files : list str) :
  sort_files getmtime files WinSequence = sort_files getmtime files IName.
Proof. reflexivity. Qed.

(** ** The decoration transform *)

(** C7 (the code departs from the claim): with [no-leader] the transform
    strips every leading character of a class, so [..config/file], which
    starts with no [./] marker and which removing a marker leaves as it
    is, loses its two dots. *)
Theorem no_leader_strips_leading_dots :
  apply_decorations (lit "..config/file") [NoLeader] = lit "config/file" /\
  remove_leader (lit "..config/file") = lit "..config/file" /\
  apply_decorations (lit "./a") [NoLeader] = remove_leader (lit "./a").
Proof. repeat split. Qed.

(** ** The path adjuster *)

Section AdjustFacts.
Context {OS : OsPath}.

Variable start : str.
Variable style : path_style.
Variable decorations : list decoration.
Variable strict_rel : bool.
Variable base_label : option str.

Local Abbreviation adjust_one := (adjust_file start style decorations strict_rel base_label).
Local Abbreviation adjust_list := (adjust_files start style decorations strict_rel base_label).
Local Abbreviation adjust_key := (adjust_dir start style decorations strict_rel base_label).
Local Abbreviation adjust_all := (adjust_loop start style decorations strict_rel base_label).

Lemma adjust_files_ok (fl fl' : list str) :
  adjust_list fl = Ok fl' ->
  Forall2 (fun f f' => adjust_one f = Ok f') fl fl'.
Proof.
  revert fl'. induction fl as [|f fl IH]; simpl; intros fl' H.
  - injection H as <-. constructor.
  - destruct (adjust_one f) as [f'|m] eqn:E; simpl in H; [|discriminate].
    destruct (adjust_list fl) as [fs'|m] eqn:E'; simpl in H; [|discriminate].
    injection H as <-. constructor; [exact E | now apply IH].
Qed.

Lemma adjust_files_error (fl : list str) (msg : str) :
  adjust_list fl = ValueError msg ->
  exists f, In f fl /\ adjust_one f = ValueError msg.
Proof.
  induction fl as [|f fl IH]; simpl; intros H; [discriminate|].
  destruct (adjust_one f) as [f'|m] eqn:E; simpl in H.
  - destruct (adjust_list fl) as [fs'|m] eqn:E'; simpl in H; [discriminate|].
    injection H as ->. destruct (IH eq_refl) as (f0 & Hin & Hf0). eauto.
  - injection H as ->. eauto.
Qed.

(** Every entry of the adjusted dictionary comes from an entry of the
    input, key and files adjusted one by one. *)
Lemma adjust_loop_entries (items adjusted adj : dict) (k' : str) (fl' : list str) :
  adjust_all items adjusted = Ok adj ->
  In (k', fl') adj ->
  In (k', fl') adjusted \/
  exists k fl, In (k, fl) items /\ adjust_key k = Ok k' /\ adjust_list fl = Ok fl'.
Proof.
  revert adjusted. induction items as [|[k fl] items IH]; simpl; intros adjusted H Hin.
  - injection H as <-. now left.
  - destruct (adjust_list fl) as [fs'|m] eqn:E; simpl in H; [|discriminate].
    destruct (adjust_key k) as [key|m] eqn:E'; simpl in H; [|discriminate].
    destruct (IH _ H Hin) as [Hold|(k0 & fl0 & Hi & Hk & Hf)].
    + apply in_dict_set in Hold as [[-> ->]|Hold]; [|now left].
      right. exists k, fl. auto.
    + right. exists k0, fl0. auto.
Qed.

Lemma adjust_loop_error (items adjusted : dict) (msg : str) :
  adjust_all items adjusted = ValueError msg ->
  exists k fl, In (k, fl) items /\
    (adjust_key k = ValueError msg \/ exists f, In f fl /\ adjust_one f = ValueError msg).
Proof.
  revert adjusted. induction items as [|[k fl] items IH]; simpl; intros adjusted H;
    [discriminate|].
  destruct (adjust_list fl) as [fs'|m] eqn:E; simpl in H.
  - destruct (adjust_key k) as [key|m] eqn:E'; simpl in H.
    + destruct (IH _ H) as (k0 & fl0 & Hin & Hor). exists k0, fl0. auto.
    + injection H as ->. exists k, fl. auto.
  - injection H as ->. apply adjust_files_error in E. exists k, fl. auto.
Qed.

Lemma adjust_loop_all_ok (items adjusted adj : dict) :
  adjust_all items adjusted = Ok adj ->
  forall k fl, In (k, fl) items ->
    (exists k', adjust_key k = Ok k') /\
    forall f, In f fl -> exists f', adjust_one f = Ok f'.
Proof.
  revert adjusted. induction items as [|[k fl] items IH]; simpl; intros adjusted H k0 fl0;
    [intros []|].
  destruct (adjust_list fl) as [fs'|m] eqn:E; simpl in H; [|discriminate].
  destruct (adjust_key k) as [key|m] eqn:E'; simpl in H; [|discriminate].
  intros [[= <- <-]|Hin]; [|eapply IH; eassumption].
  split; [eauto|]. apply adjust_files_ok in E. clear H.
  induction E as [|x y l l' Hxy _ IHE]; intros f Hf; [contradiction|].
  destruct Hf as [<-|Hf]; eauto.
Qed.

End AdjustFacts.

Section Lenient.
Context {OS : OsPath}.

Variable start : str.
Variable style : path_style.
Variable decorations : list decoration.
Variable base_label : option str.

Lemma adjust_file_lenient (f : str) :
  exists f', adjust_file start style decorations false base_label f = Ok f'.
Proof. unfold adjust_file. simpl. eauto. Qed.

Lemma adjust_dir_lenient (k : str) :
  exists k', adjust_dir start style decorations false base_label k = Ok k'.
Proof. unfold adjust_dir. simpl. destruct style; eauto. Qed.

Lemma adjust_files_lenient (fl : list str) :
  exists fl', adjust_files start style decorations false base_label fl = Ok fl'.
Proof.
  induction fl as [|f fl [fl' IH]]; cbn [adjust_files]; [eauto|].
  destruct (adjust_file_lenient f) as [f' ->]. rewrite IH. cbn [bind]. eauto.
Qed.

Lemma adjust_loop_lenient (items adjusted : dict) :
  exists adj, adjust_loop start style decorations false base_label items adjusted = Ok adj.
Proof.
  revert adjusted.
  induction items as [|[k fl] items IH]; cbn [adjust_loop]; intros adjusted; [eauto|].
  destruct (adjust_files_lenient fl) as [fl' ->].
  destruct (adjust_dir_lenient k) as [k' ->]. cbn [bind]. apply IH.
Qed.

End Lenient.

Section CrossRoot.
Context {OS : OsPath}.

Variable start : str.
Variable style : path_style.
Variable decorations : list decoration.
Variable base_label : option str.
Hypothesis Hstyle : is_rel style = true.

Lemma adjust_file_strict (f : str) :
  adjust_file start style decorations true base_label f
  = if same_drive start (abspath f)
    then adjust_file start style decorations false base_label f
    else ValueError (cross_drive_error (abspath f)).
Proof.
  unfold adjust_file. rewrite Hstyle. simpl.
  now destruct (same_drive start (abspath f)).
Qed.

Lemma adjust_dir_strict (k : str) :
  adjust_dir start style decorations true base_label k
  = if same_drive start (abspath k)
    then adjust_dir start style decorations false base_label k
    else ValueError (cross_drive_error (abspath k)).
Proof.
  unfold adjust_dir. rewrite Hstyle. simpl.
  destruct style; try discriminate; now destruct (same_drive start (abspath k)).
Qed.

End CrossRoot.


(** ** Exclusion *)

Lemma in_firstn (A : Type) (n : nat) (l : list A) (x : A) :
  In x (firstn n l) -> In x l.
Proof.
  revert l. induction n as [|n IH]; intros [|y l]; simpl; try tauto.
  intros [H|H]; auto.
Qed.

Lemma in_skipn (A : Type) (n : nat) (l : list A) (x : A) :
  In x (skipn n l) -> In x l.
Proof.
  revert l. induction n as [|n IH]; intros [|y l]; simpl; try tauto.
  intros H. right. now apply IH.
Qed.

Lemma in_truncated (limit : Z) (limit_min : option Z) (fl : list str) (f : str) :
  In f (truncated limit limit_min fl) -> In f fl.
Proof.
  unfold truncated, ends. destruct (limit <? Z.of_nat (length fl))%Z; [|auto].
  intros H. apply in_app_or in H as [H|H]; eauto using in_firstn, in_skipn.
Qed.

Lemma in_collect_raw {OS : OsPath} (fs : node) (start : str)
    (collect : collect_strategy) (sort_by : sort_mode)
    (exclude_patterns : option (list str))
    (collect_limit collect_limit_min max_depth prune : option Z)
    (k : str) (fl' : list str) :
  In (k, fl')
    (collect_raw fs start collect sort_by exclude_patterns collect_limit
       collect_limit_min max_depth prune) ->
  exists fl,
    In (k, fl)
      (walk_directories fs start exclude_patterns sort_by collect collect_limit
         collect_limit_min max_depth prune) /\
    incl fl' fl.
Proof.
  unfold collect_raw. intros H.
  assert (Hsame : forall d, In (k, fl') d -> exists fl, In (k, fl) d /\ incl fl' fl)
    by (intros d Hd; exists fl'; split; [exact Hd | apply incl_refl]).
  destruct collect; auto. destruct collect_limit as [limit|]; auto.
  destruct (limit =? 0)%Z; auto.
  rewrite truncate_as_map in H by apply NoDup_keys_walk.
  apply in_map_iff in H as ([k0 fl] & [= <- <-] & Hin).
  exists fl. split; [exact Hin|]. intros f. apply in_truncated.
Qed.


(** ** Concrete runs *)



(** C2, witness: with threshold 3 the five files of [/d] are recorded as
    the first and the last one, and [/d/sub] is not visited. *)
Lemma prune_keeps_first_and_last_witness :
  walk_directories (OS := linux) five_files (lit "/d") None IName All None None
    None (Some 3%Z)
  = [(lit "/d", [lit "/d/a"; lit "/d/e"])].
Proof.
  refine (proj2 (proj2 (proj2
            (@prune_keeps_first_and_last linux None IName None None None 3%Z 0%Z
               (files_named ["c"; "a"; "e"; "b"; "d"]%string
                  ++ [(lit "sub", Dir 0 true (files_named ["x"]%string))])
               (lit "/d") 0 [] _ _))) eq_refl).
  - intros md H. discriminate.
  - vm_compute. discriminate.
Defined.



(** C4, witness: limit 5 and minimum 4 leave four of ten files. *)
Lemma collect_limit_truncates_witness :
  collect_raw (OS := linux) ten_files (lit "/d") All IName None (Some 5%Z)
    (Some 4%Z) None None
  = [(lit "/d", [lit "/d/f0"; lit "/d/f1"; lit "/d/f8"; lit "/d/f9"])].
Proof.
  refine (proj1 (@collect_limit_truncates linux ten_files (lit "/d") IName None 5%Z
                   (Some 4%Z) None None _)).
  discriminate.
Defined.

(** C4, counterexample: a collect-limit of 0 is set, three files exceed
    it, and the list is left as it is. *)
Lemma collect_limit_zero_truncates_nothing :
  ~ (collect_raw (OS := linux) three_files (lit "/d") All IName None (Some 0%Z)
       None None None
     = map (fun '(k, fl) =>
              (k, if (0 <? Z.of_nat (length fl))%Z
                  then firstn 1 fl ++ skipn (length fl - 1) fl
                  else fl))
         (walk_directories (OS := linux) three_files (lit "/d") None IName All
            (Some 0%Z) None None None)).
Proof. vm_compute. discriminate. Qed.


(** ** POSIX paths *)

Lemma mem_chr_app (c : ascii) (a b : str) :
  mem_chr c (a ++ b) = mem_chr c a || mem_chr c b.
Proof. apply existsb_app. Qed.

Lemma split_no_sep (c : ascii) (s : str) : mem_chr c s = false -> split c s = [s].
Proof.
  induction s as [|x s IH]; simpl; [reflexivity|].
  intros H. apply orb_false_iff in H as [H1 H2].
  unfold chr_eqb in *. rewrite Ascii.eqb_sym, H1. now rewrite IH.
Qed.

Lemma split_app_sep (c : ascii) (a b : str) :
  mem_chr c a = false -> split c (a ++ c :: b) = a :: split c b.
Proof.
  induction a as [|x a IH]; simpl; intros H.
  - now rewrite chr_eqb_refl.
  - apply orb_false_iff in H as [H1 H2].
    unfold chr_eqb in *. rewrite Ascii.eqb_sym, H1. now rewrite IH.
Qed.

Lemma split_join_with (c : ascii) (comps : list str) :
  comps <> [] ->
  Forall (fun e => mem_chr c e = false) comps ->
  split c (join_with [c] comps) = comps.
Proof.
  induction comps as [|e comps IH]; [congruence|]. intros _ H.
  inversion H as [|? ? He Hrest]; subst.
  destruct comps as [|e' comps]; simpl.
  - now apply split_no_sep.
  - rewrite split_app_sep by exact He. f_equal. apply IH; [discriminate | exact Hrest].
Qed.

Lemma join_with_snoc (sp : str) (comps : list str) (e : str) :
  comps <> [] -> join_with sp (comps ++ [e]) = join_with sp comps ++ sp ++ e.
Proof.
  induction comps as [|x comps IH]; [congruence|]. intros _.
  destruct comps as [|y comps]; simpl; [reflexivity|].
  simpl in IH. rewrite IH by discriminate. now rewrite <- !app_assoc.
Qed.

Lemma valid_name_spec (e : str) :
  valid_name e = true ->
  e <> [] /\ mem_chr "/" e = false /\ e <> lit "." /\ e <> lit "..".
Proof.
  unfold valid_name. intros H.
  repeat (apply andb_true_iff in H as [H ?]).
  repeat match goal with
         | H : negb _ = true |- _ => apply negb_true_iff in H
         end.
  repeat split; try assumption.
  - destruct e; [discriminate | congruence].
  - now apply str_eqb_neq.
  - now apply str_eqb_neq.
Qed.

Lemma norm_comps_valid (rooted : bool) (comps acc : list str) :
  Forall (fun e => valid_name e = true) comps ->
  norm_comps rooted comps acc = acc ++ comps.
Proof.
  revert acc. induction comps as [|e comps IH]; intros acc H; cbn [norm_comps].
  - now rewrite app_nil_r.
  - inversion H as [|? ? He Hrest]; subst.
    apply valid_name_spec in He as (Hne & _ & Hdot & Hdots).
    apply str_eqb_neq in Hne, Hdot, Hdots. rewrite Hne, Hdot, Hdots. cbn [orb].
    rewrite IH by exact Hrest. now rewrite <- app_assoc.
Qed.

Lemma valid_no_slash (comps : list str) :
  Forall (fun e => valid_name e = true) comps ->
  Forall (fun e => mem_chr "/" e = false) comps.
Proof.
  apply Forall_impl. intros e H. now apply valid_name_spec in H.
Qed.

Lemma valid_nonempty (comps : list str) :
  Forall (fun e => valid_name e = true) comps ->
  filter nonempty comps = comps.
Proof.
  induction 1 as [|e comps He _ IH]; simpl; [reflexivity|].
  apply valid_name_spec in He as (Hne & _). destruct e; [congruence|].
  simpl. now rewrite IH.
Qed.

Lemma split_abs_of (comps : list str) :
  Forall (fun e => valid_name e = true) comps ->
  split "/" (abs_of comps) = [] :: match comps with [] => [[]] | _ => comps end.
Proof.
  intros H. unfold abs_of. simpl. f_equal.
  destruct comps as [|e comps]; [reflexivity|].
  apply (split_join_with "/"); [discriminate | now apply valid_no_slash].
Qed.

Lemma comps_abs_of (comps : list str) :
  Forall (fun e => valid_name e = true) comps ->
  filter nonempty (split "/" (abs_of comps)) = comps.
Proof.
  intros H. rewrite split_abs_of by exact H. simpl.
  destruct comps; [reflexivity | now apply valid_nonempty].
Qed.

Lemma join_with_head (sp : str) (e : str) (comps : list str) :
  e <> [] -> exists c rest, e = c :: rest /\ exists tl, join_with sp (e :: comps) = c :: tl.
Proof.
  intros H. destruct e as [|c rest]; [congruence|].
  exists c, rest. split; [reflexivity|].
  destruct comps; simpl; eauto.
Qed.

Lemma normpath_abs_of (comps : list str) :
  Forall (fun e => valid_name e = true) comps ->
  posixpath.normpath (abs_of comps) = abs_of comps.
Proof.
  intros H. unfold posixpath.normpath.
  change (abs_of comps) with ("/"%char :: join_with (lit "/") comps) at 1.
  cbv iota.
  assert (E1 : startswith [posixpath.sep] (abs_of comps) = true) by reflexivity.
  assert (E2 : startswith [posixpath.sep; posixpath.sep] (abs_of comps) = false).
  { destruct comps as [|e comps]; [reflexivity|].
    inversion H as [|? ? He _]; subst.
    apply valid_name_spec in He as (Hne & Hsl & _).
    destruct (join_with_head (lit "/") e comps Hne) as (c & rest & -> & tl & Etl).
    unfold abs_of, startswith. rewrite Etl. simpl in *.
    apply orb_false_iff in Hsl as [Hc _].
    rewrite chr_eqb_sym in Hc. unfold posixpath.sep. now rewrite Hc. }
  rewrite E1, E2, split_abs_of by exact H.
  destruct comps as [|e comps]; [reflexivity|].
  change (norm_comps ?r ([] :: e :: comps) []) with (norm_comps r (e :: comps) []).
  rewrite norm_comps_valid by exact H. reflexivity.
Qed.

Lemma abspath_abs_of (cwd : str) (comps : list str) :
  Forall (fun e => valid_name e = true) comps ->
  posixpath.abspath cwd (abs_of comps) = abs_of comps.
Proof.
  intros H. unfold posixpath.abspath.
  replace (startswith [posixpath.sep] (abs_of comps)) with true by reflexivity.
  now apply normpath_abs_of.
Qed.

Lemma endswith_chr_app (c : ascii) (a e : str) :
  e <> [] -> endswith_chr c (a ++ e) = endswith_chr c e.
Proof.
  intros H. unfold endswith_chr. rewrite rev_app_distr.
  destruct (exists_last H) as (e' & x & ->). now rewrite rev_app_distr.
Qed.

Lemma endswith_chr_absent (c : ascii) (e : str) :
  mem_chr c e = false -> endswith_chr c e = false.
Proof.
  intros H. unfold endswith_chr. destruct (rev e) as [|x r] eqn:E; [reflexivity|].
  assert (Hin : In x e) by (apply in_rev; rewrite E; now left).
  destruct (chr_eqb x c) eqn:Ex; [|reflexivity].
  apply chr_eqb_eq in Ex. subst x. unfold mem_chr in H.
  assert (existsb (chr_eqb c) e = true)
    by (apply existsb_exists; exists c; split; [exact Hin | apply chr_eqb_refl]).
  congruence.
Qed.

Lemma join_with_last (sp : str) (comps : list str) :
  comps <> [] -> exists pre, join_with sp comps = pre ++ last comps [].
Proof.
  induction comps as [|e comps IH]; [congruence|]. intros _.
  destruct comps as [|e' comps].
  - exists []. reflexivity.
  - destruct IH as [pre E]; [discriminate|].
    exists (e ++ sp ++ pre). cbn [join_with last] in *. rewrite E.
    now rewrite <- !app_assoc.
Qed.

Lemma join_abs_of (comps : list str) (e : str) :
  Forall (fun e => valid_name e = true) comps ->
  valid_name e = true ->
  posixpath.join (abs_of comps) e = abs_of (comps ++ [e]).
Proof.
  intros H He. unfold posixpath.join.
  apply valid_name_spec in He as (Hne & Hsl & _).
  assert (E1 : startswith [posixpath.sep] e = false).
  { destruct e as [|c e]; [congruence|]. simpl in Hsl.
    apply orb_false_iff in Hsl as [Hc _]. unfold startswith. simpl.
    rewrite chr_eqb_sym in Hc. unfold posixpath.sep. now rewrite Hc. }
  rewrite E1. simpl negb. simpl orb.
  destruct comps as [|e0 comps]; [reflexivity|].
  assert (E2 : endswith_chr posixpath.sep (abs_of (e0 :: comps)) = false).
  { destruct (join_with_last (lit "/") (e0 :: comps)) as [pre E]; [discriminate|].
    unfold abs_of. rewrite E, app_comm_cons.
    assert (Hl : In (last (e0 :: comps) []) (e0 :: comps))
      by (destruct (exists_last (l := e0 :: comps)) as (l' & a & ->);
          [discriminate | rewrite last_last; apply in_or_app; right; now left]).
    rewrite Forall_forall in H. apply H, valid_name_spec in Hl as (Hn & Hs & _).
    rewrite endswith_chr_app by exact Hn. now apply endswith_chr_absent. }
  rewrite E2. unfold abs_of.
  rewrite (join_with_snoc (lit "/")) by discriminate. reflexivity.
Qed.

Lemma join_with_flat (e : str) (rest : list str) :
  join_with (lit "/") (e :: rest) = e ++ flat_map (fun x => "/"%char :: x) rest.
Proof.
  revert e. induction rest as [|y rest IH]; intros e; simpl.
  - now rewrite app_nil_r.
  - f_equal. f_equal. apply IH.
Qed.

Lemma fold_join_valid (rest : list str) (a : str) :
  a <> [] -> endswith_chr "/" a = false ->
  Forall (fun e => valid_name e = true) rest ->
  fold_left posixpath.join rest a = a ++ flat_map (fun x => "/"%char :: x) rest.
Proof.
  revert a. induction rest as [|e rest IH]; intros a Ha Hend H; simpl.
  - now rewrite app_nil_r.
  - inversion H as [|? ? He Hrest]; subst.
    apply valid_name_spec in He as (Hne & Hsl & _).
    assert (E : posixpath.join a e = a ++ "/"%char :: e).
    { unfold posixpath.join.
      assert (E1 : startswith [posixpath.sep] e = false).
      { destruct e as [|c e]; [congruence|]. simpl in Hsl.
        apply orb_false_iff in Hsl as [Hc _]. unfold startswith. simpl.
        rewrite chr_eqb_sym in Hc. unfold posixpath.sep. now rewrite Hc. }
      rewrite E1. unfold posixpath.sep. rewrite Hend.
      destruct a; [congruence | reflexivity]. }
    rewrite E, IH; [now rewrite <- app_assoc | | | exact Hrest].
    + destruct a; discriminate.
    + rewrite (endswith_chr_app "/" a ("/"%char :: e)) by discriminate.
      change ("/"%char :: e) with (["/"%char] ++ e).
      rewrite endswith_chr_app by exact Hne. now apply endswith_chr_absent.
Qed.

Lemma join_all_valid (names : list str) :
  Forall (fun e => valid_name e = true) names ->
  posixpath.join_all names = join_with (lit "/") names.
Proof.
  destruct names as [|e rest]; [reflexivity|]. intros H.
  inversion H as [|? ? He Hrest]; subst.
  apply valid_name_spec in He as (Hne & Hsl & _).
  unfold posixpath.join_all.
  rewrite fold_join_valid, join_with_flat; auto using endswith_chr_absent.
Qed.

Lemma common_len_prefix (cs names : list str) :
  common_len str_eqb cs (cs ++ names) = length cs.
Proof.
  induction cs as [|c cs IH]; simpl; [now destruct names|].
  now rewrite str_eqb_refl, IH.
Qed.

Lemma rel_list_under (cs names : list str) :
  rel_list str_eqb cs (cs ++ names) = names.
Proof.
  unfold rel_list. rewrite common_len_prefix, Nat.sub_diag. simpl.
  rewrite skipn_app, Nat.sub_diag, skipn_all. reflexivity.
Qed.

(** [relpath] of a path below [start]: the remaining components. *)
Lemma relpath_under (cwd : str) (cs names : list str) :
  Forall (fun e => valid_name e = true) cs ->
  Forall (fun e => valid_name e = true) names ->
  posixpath.relpath cwd (abs_of (cs ++ names)) (abs_of cs) = rel_of names.
Proof.
  intros Hcs Hn. unfold posixpath.relpath.
  assert (Hall : Forall (fun e => valid_name e = true) (cs ++ names))
    by (apply Forall_app; auto).
  rewrite !abspath_abs_of, !comps_abs_of, rel_list_under by assumption.
  destruct names as [|e rest]; [reflexivity|].
  now apply join_all_valid.
Qed.

Lemma same_drive_posix (cwd start p : str) :
  same_drive (OS := posix cwd) start p = true.
Proof. reflexivity. Qed.

(** ** Files directly inside the start directory *)

Lemma posix_direct_child (cwd : str) (comps : list str) (name : str) :
  forallb valid_name comps = true -> valid_name name = true ->
  let start := abs_of comps in
  let f := join (OsPath := posix cwd) start name in
  same_drive (OS := posix cwd) start (abspath (OsPath := posix cwd) f) = true /\
  relpath (OsPath := posix cwd) (abspath (OsPath := posix cwd) f) start = name /\
  relpath (OsPath := posix cwd) (abspath (OsPath := posix cwd) start) start = lit ".".
Proof.
  intros Hstart Hname start f.
  assert (Hcs : Forall (fun e => valid_name e = true) comps)
    by (apply Forall_forall; now apply forallb_forall).
  assert (Hf : f = abs_of (comps ++ [name])) by now apply join_abs_of.
  assert (Habs : abspath (OsPath := posix cwd) f = f).
  { rewrite Hf. apply abspath_abs_of. apply Forall_app. auto. }
  assert (Hs : abspath (OsPath := posix cwd) start = start)
    by now apply abspath_abs_of.
  rewrite Habs, Hs. split; [apply same_drive_posix|]. split.
  - rewrite Hf. apply (relpath_under cwd comps [name]); auto.
  - pose proof (relpath_under cwd comps [] Hcs (Forall_nil _)) as E.
    rewrite app_nil_r in E. exact E.
Qed.


(** ** Distinct directories, distinct keys *)

Lemma apply_decorations_no_leader (p : str) (decorations : list decoration) :
  has NoLeader decorations = false -> has RelLeader decorations = false ->
  apply_decorations p decorations = map (slash_chr decorations) p.
Proof.
  intros H1 H2. unfold apply_decorations, slash_chr, replace. rewrite H1, H2.
  destruct (has Unix decorations); [reflexivity|].
  destruct (has Windows decorations); [reflexivity|].
  now rewrite map_id.
Qed.

Lemma map_slash_chr_inj (decorations : list decoration) (a b : str) :
  (rewrites_slashes decorations = true ->
   mem_chr "\" a = false /\ mem_chr "\" b = false) ->
  map (slash_chr decorations) a = map (slash_chr decorations) b -> a = b.
Proof.
  unfold rewrites_slashes, slash_chr.
  destruct (has Unix decorations) eqn:U; [|destruct (has Windows decorations) eqn:W].
  - intros H. destruct (H eq_refl) as [Ha Hb]. clear H.
    revert b Hb. induction a as [|x a IH]; intros [|y b] Hb; simpl; try discriminate;
      [reflexivity|].
    simpl in Ha, Hb. apply orb_false_iff in Ha as [Hx Ha], Hb as [Hy Hb].
    rewrite chr_eqb_sym in Hx, Hy. rewrite Hx, Hy. intros [= -> E].
    f_equal. now apply IH.
  - intros H. destruct (H eq_refl) as [Ha Hb]. clear H.
    revert b Hb. induction a as [|x a IH]; intros [|y b] Hb; simpl; try discriminate;
      [reflexivity|].
    simpl in Ha, Hb. apply orb_false_iff in Ha as [Hx Ha], Hb as [Hy Hb].
    intros [= Exy E]. f_equal; [|now apply IH].
    destruct (chr_eqb x "/") eqn:Ex, (chr_eqb y "/") eqn:Ey;
      try (apply chr_eqb_eq in Ex); try (apply chr_eqb_eq in Ey); subst;
      try reflexivity.
    + rewrite chr_eqb_refl in Hy. discriminate.
    + rewrite chr_eqb_refl in Hx. discriminate.
  - intros _. rewrite !map_id. auto.
Qed.

Lemma mem_chr_join_with (c : ascii) (names : list str) :
  mem_chr c (lit "/") = false ->
  Forall (fun e => mem_chr c e = false) names ->
  mem_chr c (join_with (lit "/") names) = false.
Proof.
  intros Hc. induction 1 as [|e names He _ IH]; [reflexivity|].
  destruct names as [|e' names]; [exact He|].
  cbn [join_with]. rewrite !mem_chr_app, He, Hc. exact IH.
Qed.

Lemma rel_of_no_backslash (names : list str) :
  Forall (fun e => no_backslash e = true) names ->
  mem_chr "\" (rel_of names) = false.
Proof.
  intros H. destruct names as [|e names]; [reflexivity|].
  apply mem_chr_join_with; [reflexivity|].
  revert H. apply Forall_impl. intros a Ha. now apply negb_true_iff.
Qed.

Lemma rel_of_inj (n1 n2 : list str) :
  Forall (fun e => valid_name e = true) n1 ->
  Forall (fun e => valid_name e = true) n2 ->
  rel_of n1 = rel_of n2 -> n1 = n2.
Proof.
  intros H1 H2 E.
  assert (S : forall n, Forall (fun e => valid_name e = true) n ->
                split "/" (rel_of n) = match n with [] => [lit "."] | _ => n end).
  { intros [|e n] H; [reflexivity|].
    apply (split_join_with "/"); [discriminate | now apply valid_no_slash]. }
  pose proof (S n1 H1) as S1. pose proof (S n2 H2) as S2. rewrite E in S1.
  rewrite S1 in S2.
  assert (Hdot : forall n, Forall (fun e => valid_name e = true) n -> n <> [lit "."]).
  { intros n H ->. inversion H as [|? ? He _]; subst. discriminate. }
  destruct n1, n2; try assumption; try reflexivity.
  - symmetry in S2. now apply Hdot in S2.
  - now apply Hdot in S2.
Qed.

Lemma abs_of_inj (cs n1 n2 : list str) :
  Forall (fun e => valid_name e = true) (cs ++ n1) ->
  Forall (fun e => valid_name e = true) (cs ++ n2) ->
  abs_of (cs ++ n1) = abs_of (cs ++ n2) -> n1 = n2.
Proof.
  intros H1 H2 E. apply (f_equal (fun p => filter nonempty (split "/" p))) in E.
  rewrite !comps_abs_of in E by assumption. now apply app_inv_head in E.
Qed.

Lemma names_ok_dir (ok : str -> bool) (t : Z) (r : bool)
    (entries : list (str * node)) (e : str) (c : node) :
  names_ok ok (Dir t r entries) = true -> In (e, c) entries ->
  ok e = true /\ names_ok ok c = true.
Proof.
  simpl. intros H Hin. rewrite forallb_forall in H.
  specialize (H (e, c) Hin). now apply andb_true_iff in H.
Qed.

Lemma names_ok_weaken (p q : str -> bool) (n : node) :
  (forall e, p e = true -> q e = true) ->
  names_ok p n = true -> names_ok q n = true.
Proof.
  intros Hpq. induction n as [t|t r entries IH] using node_induction; [reflexivity|].
  simpl. rewrite !forallb_forall. intros H [e c] Hin.
  specialize (H (e, c) Hin). apply andb_true_iff in H as [He Hc].
  rewrite Forall_forall in IH. apply andb_true_iff. split; [now apply Hpq|].
  now apply (IH (e, c) Hin).
Qed.

(** On a tree whose names are valid, every key of the walker's map is the
    start path extended by valid names. *)
Lemma walk_keys_under (cwd : str) (ok : str -> bool) (patterns : list str)
    (sort_by : sort_mode) (collect : collect_strategy) (max_depth prune : option Z)
    (fs : node) (comps : list str) (k : str) :
  Forall (fun e => valid_name e = true) comps ->
  names_ok valid_name fs = true -> names_ok ok fs = true ->
  In k (keys (recurse_dir (OS := posix cwd) patterns sort_by collect max_depth prune
                fs (abs_of comps) 0 [])) ->
  exists names,
    k = abs_of (comps ++ names) /\
    Forall (fun e => valid_name e = true) names /\
    Forall (fun e => ok e = true) names.
Proof.
  intros Hcs Hv Hok. revert k.
  apply (recurse_dir_invariant (OS := posix cwd) _ _ _ _ _
           (fun root _ n =>
              names_ok valid_name n = true /\ names_ok ok n = true /\
              exists names,
                root = abs_of (comps ++ names) /\
                Forall (fun e => valid_name e = true) names /\
                Forall (fun e => ok e = true) names)
           (fun d => forall k, In k (keys d) ->
              exists names,
                k = abs_of (comps ++ names) /\
                Forall (fun e => valid_name e = true) names /\
                Forall (fun e => ok e = true) names)).
  - intros root depth t entries d (_ & _ & Hroot) HI k Hk.
    apply keys_visit in Hk as [->|Hk]; [exact Hroot | now apply HI].
  - intros root depth t entries d e c (Hv' & Hok' & names & -> & Hn & Hno) Hin _.
    destruct (names_ok_dir _ _ _ _ _ _ Hv' Hin) as [He Hc].
    destruct (names_ok_dir _ _ _ _ _ _ Hok' Hin) as [He' Hc'].
    split; [exact Hc|]. split; [exact Hc'|].
    exists (names ++ [e]). split; [|split].
    + rewrite app_assoc. apply join_abs_of; [|exact He]. apply Forall_app. auto.
    + apply Forall_app. auto.
    + apply Forall_app. auto.
  - split; [exact Hv|]. split; [exact Hok|]. exists []. rewrite app_nil_r. auto.
  - intros k [].
Qed.

Section AdjustKeys.
Context {OS : OsPath}.

Variable start : str.
Variable style : path_style.
Variable decorations : list decoration.
Variable strict_rel : bool.
Variable base_label : option str.

Local Abbreviation key_of := (rendered_key start style decorations strict_rel base_label).

Lemma adjust_loop_keys (items acc adj : dict) :
  adjust_loop start style decorations strict_rel base_label items acc = Ok adj ->
  NoDup (keys acc ++ map key_of (keys items)) ->
  keys adj = keys acc ++ map key_of (keys items).
Proof.
  revert acc. induction items as [|[k fl] items IH]; cbn [adjust_loop]; intros acc H ND.
  - injection H as <-. simpl. now rewrite app_nil_r.
  - destruct (adjust_files start style decorations strict_rel base_label fl)
      as [fl'|m]; [|discriminate].
    cbn [bind] in H. unfold rendered_key in *. simpl in ND |- *.
    destruct (adjust_dir start style decorations strict_rel base_label k)
      as [key|m] eqn:E; [|discriminate].
    cbn [bind] in H.
    assert (Hnew : ~ In key (keys acc)).
    { apply NoDup_remove_2 in ND. intros I. apply ND. apply in_or_app. now left. }
    apply IH in H.
    + rewrite H, keys_dict_set_new, keys_app, <- app_assoc by exact Hnew. reflexivity.
    + rewrite keys_dict_set_new, keys_app, <- app_assoc by exact Hnew. exact ND.
Qed.

End AdjustKeys.

Lemma keys_truncate_map (limit : Z) (limit_min : option Z) (raw : dict) :
  keys (map (fun '(k, fl) => (k, truncated limit limit_min fl)) raw) = keys raw.
Proof.
  unfold keys. rewrite map_map. apply map_ext. now intros [k fl].
Qed.

Lemma keys_collect_raw {OS : OsPath} (fs : node) (start : str)
    (collect : collect_strategy) (sort_by : sort_mode)
    (exclude_patterns : option (list str))
    (collect_limit collect_limit_min max_depth prune : option Z) :
  keys (collect_raw fs start collect sort_by exclude_patterns collect_limit
          collect_limit_min max_depth prune)
  = keys (walk_directories fs start exclude_patterns sort_by collect collect_limit
            collect_limit_min max_depth prune).
Proof.
  unfold collect_raw. destruct collect; try reflexivity.
  destruct collect_limit as [limit|]; [|reflexivity].
  destruct (limit =? 0)%Z; [reflexivity|].
  rewrite truncate_as_map by apply NoDup_keys_walk. apply keys_truncate_map.
Qed.

Section PosixKeys.
Variable cwd : str.
Variable comps : list str.
Variable decorations : list decoration.
Variable strict_rel : bool.
Variable base_label : option str.
Hypothesis Hcomps : Forall (fun e => valid_name e = true) comps.

Local Abbreviation start := (abs_of comps).
Local Abbreviation L := (label (OS := posix cwd) (abs_of comps) base_label).
Local Abbreviation glue :=
  (if negb (nonempty (label (OS := posix cwd) (abs_of comps) base_label))
      || endswith_chr "/" (label (OS := posix cwd) (abs_of comps) base_label)
   then [] else ["/"%char]).

Lemma posix_key_absolute (style : path_style) (names : list str) :
  Forall (fun e => valid_name e = true) names ->
  is_rel style = false ->
  adjust_dir (OS := posix cwd) start style decorations strict_rel base_label
    (abs_of (comps ++ names))
  = Ok (abs_of (comps ++ names)).
Proof.
  intros Hn Hs. unfold adjust_dir.
  assert (E : abspath (OsPath := posix cwd) (abs_of (comps ++ names))
              = abs_of (comps ++ names))
    by (apply abspath_abs_of, Forall_app; auto).
  rewrite E. destruct style; try discriminate; try reflexivity.
  now rewrite andb_false_r.
Qed.

Lemma rel_of_starts_without_slash (names : list str) :
  Forall (fun e => valid_name e = true) names ->
  startswith [posixpath.sep] (rel_of names) = false /\ rel_of names <> [].
Proof.
  intros H. destruct names as [|e names]; [split; [reflexivity | discriminate]|].
  inversion H as [|? ? He _]; subst.
  apply valid_name_spec in He as (Hne & Hsl & _).
  destruct (join_with_head (lit "/") e names Hne) as (c & rest & -> & tl & Etl).
  unfold rel_of. rewrite Etl. split; [|discriminate].
  simpl in Hsl. apply orb_false_iff in Hsl as [Hc _]. rewrite chr_eqb_sym in Hc.
  unfold startswith, posixpath.sep. simpl. now rewrite Hc.
Qed.

Lemma posix_key_rel (names : list str) :
  Forall (fun e => valid_name e = true) names ->
  has NoLeader decorations = false -> has RelLeader decorations = false ->
  adjust_dir (OS := posix cwd) start Rel decorations strict_rel base_label
    (abs_of (comps ++ names))
  = Ok (map (slash_chr decorations) (rel_of names)).
Proof.
  intros Hn H1 H2. unfold adjust_dir.
  assert (E : abspath (OsPath := posix cwd) (abs_of (comps ++ names))
              = abs_of (comps ++ names))
    by (apply abspath_abs_of, Forall_app; auto).
  rewrite E, same_drive_posix, andb_false_r.
  change (relpath (OsPath := posix cwd)) with (posixpath.relpath cwd).
  rewrite relpath_under by assumption.
  now rewrite apply_decorations_no_leader.
Qed.

Lemma posix_key_rel_base (names : list str) :
  Forall (fun e => valid_name e = true) names ->
  has NoLeader decorations = false -> has RelLeader decorations = false ->
  adjust_dir (OS := posix cwd) start RelBase decorations strict_rel base_label
    (abs_of (comps ++ names))
  = Ok (map (slash_chr decorations)
          (L ++ match names with [] => [] | _ :: _ => glue ++ rel_of names end)).
Proof.
  intros Hn H1 H2. unfold adjust_dir.
  assert (E : abspath (OsPath := posix cwd) (abs_of (comps ++ names))
              = abs_of (comps ++ names))
    by (apply abspath_abs_of, Forall_app; auto).
  rewrite E, same_drive_posix, andb_false_r.
  change (relpath (OsPath := posix cwd)) with (posixpath.relpath cwd).
  rewrite relpath_under by assumption.
  destruct names as [|e names].
  - change (str_eqb (rel_of []) (lit ".")) with true. cbv iota.
    now rewrite apply_decorations_no_leader, app_nil_r.
  - assert (Hdot : str_eqb (rel_of (e :: names)) (lit ".") = false).
    { apply str_eqb_neq. intros Eq.
      apply (rel_of_inj (e :: names) []) in Eq; [discriminate | exact Hn | constructor]. }
    rewrite Hdot. cbv iota.
    rewrite apply_decorations_no_leader by assumption.
    destruct (rel_of_starts_without_slash (e :: names) Hn) as [Hs _].
    change (join (OsPath := posix cwd)) with posixpath.join.
    unfold posixpath.join. rewrite Hs. unfold posixpath.sep.
    destruct (negb (nonempty L) || endswith_chr "/" L); [reflexivity|].
    reflexivity.
Qed.

(** Distinct lists of names below the start path give distinct keys. *)
Lemma posix_keys_distinct (style : path_style) (n1 n2 : list str) (k1 k2 : str) :
  Forall (fun e => valid_name e = true) n1 ->
  Forall (fun e => valid_name e = true) n2 ->
  (is_rel style = false \/
   (has NoLeader decorations = false /\ has RelLeader decorations = false /\
    (rewrites_slashes decorations = true ->
     Forall (fun e => no_backslash e = true) n1 /\
     Forall (fun e => no_backslash e = true) n2))) ->
  adjust_dir (OS := posix cwd) start style decorations strict_rel base_label
    (abs_of (comps ++ n1)) = Ok k1 ->
  adjust_dir (OS := posix cwd) start style decorations strict_rel base_label
    (abs_of (comps ++ n2)) = Ok k2 ->
  k1 = k2 -> n1 = n2.
Proof.
  intros H1 H2 Hsafe E1 E2 Ek. subst k2.
  destruct Hsafe as [Habs|(Hnl & Hrl & Hbs)].
  - rewrite posix_key_absolute in E1, E2 by assumption.
    assert (Eq : abs_of (comps ++ n1) = abs_of (comps ++ n2)) by congruence.
    apply (abs_of_inj comps); [apply Forall_app; auto .. | exact Eq].
  - assert (Hfree : rewrites_slashes decorations = true ->
                    mem_chr "\" (rel_of n1) = false /\ mem_chr "\" (rel_of n2) = false).
    { intros R. destruct (Hbs R). split; now apply rel_of_no_backslash. }
    destruct style.
    + rewrite posix_key_absolute in E1, E2 by auto.
      assert (Eq : abs_of (comps ++ n1) = abs_of (comps ++ n2)) by congruence.
      apply (abs_of_inj comps); [apply Forall_app; auto .. | exact Eq].
    + rewrite posix_key_rel in E1, E2 by assumption.
      assert (Eq : map (slash_chr decorations) (rel_of n1)
                   = map (slash_chr decorations) (rel_of n2)) by congruence.
      apply rel_of_inj; try assumption.
      now apply (map_slash_chr_inj decorations).
    + rewrite posix_key_rel_base in E1, E2 by assumption.
      assert (Eq : map (slash_chr decorations)
                     (L ++ match n1 with [] => [] | _ :: _ => glue ++ rel_of n1 end)
                   = map (slash_chr decorations)
                       (L ++ match n2 with [] => [] | _ :: _ => glue ++ rel_of n2 end))
        by congruence.
      clear E1 E2. rename Eq into E2.
      rewrite !map_app in E2. apply app_inv_head in E2.
      destruct (rel_of_starts_without_slash n1 H1) as [_ Hne1].
      destruct (rel_of_starts_without_slash n2 H2) as [_ Hne2].
      destruct n1 as [|a1 n1], n2 as [|a2 n2]; try reflexivity.
      * destruct (rel_of (a2 :: n2)) as [|c r]; [congruence|].
        apply (f_equal (@length ascii)) in E2.
        rewrite !length_map, length_app in E2. simpl in E2. lia.
      * destruct (rel_of (a1 :: n1)) as [|c r]; [congruence|].
        apply (f_equal (@length ascii)) in E2.
        rewrite !length_map, length_app in E2. simpl in E2. lia.
      * rewrite !map_app in E2. apply app_inv_head in E2.
        apply rel_of_inj; try assumption.
        now apply (map_slash_chr_inj decorations).
    + rewrite posix_key_absolute in E1, E2 by auto.
      assert (Eq : abs_of (comps ++ n1) = abs_of (comps ++ n2)) by congruence.
      apply (abs_of_inj comps); [apply Forall_app; auto .. | exact Eq].
Qed.

End PosixKeys.

Section PosixTotal.
Variable cwd : str.
Variable start : str.
Variable style : path_style.
Variable decorations : list decoration.
Variable strict_rel : bool.
Variable base_label : option str.

Lemma posix_adjust_file_lenient (f : str) :
  adjust_file (OS := posix cwd) start style decorations strict_rel base_label f
  = adjust_file (OS := posix cwd) start style decorations false base_label f.
Proof. unfold adjust_file. now rewrite same_drive_posix, andb_false_r. Qed.

Lemma posix_adjust_dir_lenient (k : str) :
  adjust_dir (OS := posix cwd) start style decorations strict_rel base_label k
  = adjust_dir (OS := posix cwd) start style decorations false base_label k.
Proof. unfold adjust_dir. now rewrite same_drive_posix, andb_false_r. Qed.

Lemma posix_adjust_files_lenient (fl : list str) :
  adjust_files (OS := posix cwd) start style decorations strict_rel base_label fl
  = adjust_files (OS := posix cwd) start style decorations false base_label fl.
Proof.
  induction fl as [|f fl IH]; cbn [adjust_files]; [reflexivity|].
  now rewrite posix_adjust_file_lenient, IH.
Qed.

Lemma posix_adjust_loop_ok (items acc : dict) :
  exists adj,
    adjust_loop (OS := posix cwd) start style decorations strict_rel base_label
      items acc = Ok adj.
Proof.
  assert (E : forall items acc,
             adjust_loop (OS := posix cwd) start style decorations strict_rel
               base_label items acc
             = adjust_loop (OS := posix cwd) start style decorations false
                 base_label items acc).
  { clear. induction items as [|[k fl] items IH]; intros acc; cbn [adjust_loop];
      [reflexivity|].
    rewrite posix_adjust_files_lenient, posix_adjust_dir_lenient.
    destruct (adjust_files _ _ _ _ _ _); [|reflexivity].
    destruct (adjust_dir _ _ _ _ _ _); [|reflexivity].
    cbn [bind]. apply IH. }
  rewrite E. apply adjust_loop_lenient.
Qed.

Lemma posix_rendered_key (k : str) :
  adjust_dir (OS := posix cwd) start style decorations strict_rel base_label k
  = Ok (rendered_key (OS := posix cwd) start style decorations strict_rel
          base_label k).
Proof.
  unfold rendered_key. rewrite posix_adjust_dir_lenient.
  destruct (adjust_dir_lenient (OS := posix cwd) start style decorations base_label k)
    as [k' ->].
  reflexivity.
Qed.

End PosixTotal.

(** C8 (as amended): on a POSIX tree with valid entry names, under the
    styles that keep absolute keys, or under [rel] and [rel-base] with a
    decoration set that has no leader option and, when it rewrites
    slashes, no backslash in any entry name, distinct directories of one
    walk are stored under distinct keys, and the adjusted map has as many
    entries as the walker's map. *)
Theorem distinct_directories_distinct_keys (cwd : str) (comps : list str) (fs : node)
    (exclude_patterns : option (list str)) (sort_by : sort_mode)
    (collect : collect_strategy)
    (collect_limit collect_limit_min max_depth prune : option Z)
    (style : path_style) (decorations : list decoration) (strict_rel : bool)
    (base_label : option str)
    (Hstart : forallb valid_name comps = true)
    (Hvalid : names_ok valid_name fs = true)
    (Hsafe :
      is_rel style = false \/
      (has NoLeader decorations = false /\ has RelLeader decorations = false /\
       (rewrites_slashes decorations = true -> names_ok no_backslash fs = true))) :
  let start := abs_of comps in
  let walked :=
    walk_directories (OS := posix cwd) fs start exclude_patterns sort_by collect
      collect_limit collect_limit_min max_depth prune in
  (forall d1 d2 k1 k2,
     In d1 (keys walked) -> In d2 (keys walked) -> d1 <> d2 ->
     adjust_dir (OS := posix cwd) start style decorations strict_rel base_label d1
     = Ok k1 ->
     adjust_dir (OS := posix cwd) start style decorations strict_rel base_label d2
     = Ok k2 ->
     k1 <> k2) /\
  exists adjusted,
    collect_files (OS := posix cwd) fs start style collect sort_by decorations
      exclude_patterns collect_limit collect_limit_min strict_rel base_label
      max_depth prune
    = Ok adjusted /\
    length adjusted = length walked /\ NoDup (keys adjusted).
Proof.
  intros start walked.
  assert (Hcs : Forall (fun e => valid_name e = true) comps)
    by (apply Forall_forall; now apply forallb_forall).
  set (ok := fun e => negb (is_rel style && rewrites_slashes decorations)
                      || no_backslash e).
  assert (Hok : names_ok ok fs = true).
  { unfold ok. destruct (is_rel style && rewrites_slashes decorations) eqn:E.
    - apply andb_true_iff in E as [Er Ew].
      destruct Hsafe as [Habs|(_ & _ & Hbs)]; [congruence|].
      apply (names_ok_weaken no_backslash); [auto | now apply Hbs].
    - apply (names_ok_weaken valid_name); auto. }
  assert (Hdistinct : forall d1 d2 k1 k2,
             In d1 (keys walked) -> In d2 (keys walked) -> d1 <> d2 ->
             adjust_dir (OS := posix cwd) start style decorations strict_rel
               base_label d1 = Ok k1 ->
             adjust_dir (OS := posix cwd) start style decorations strict_rel
               base_label d2 = Ok k2 ->
             k1 <> k2).
  { intros d1 d2 k1 k2 I1 I2 Hne E1 E2 Ek.
    apply (walk_keys_under cwd ok) in I1 as (n1 & -> & Hn1 & Ho1); try assumption.
    apply (walk_keys_under cwd ok) in I2 as (n2 & -> & Hn2 & Ho2); try assumption.
    apply Hne. f_equal. f_equal.
    apply (posix_keys_distinct cwd comps decorations strict_rel base_label Hcs
             style n1 n2 k1 k2); try assumption.
    destruct (is_rel style) eqn:Er; [right | now left].
    destruct Hsafe as [Habs|(Hnl & Hrl & _)]; [discriminate|].
    split; [exact Hnl|]. split; [exact Hrl|]. intros Hw.
    unfold ok in Ho1, Ho2. rewrite Hw in Ho1, Ho2. simpl in Ho1, Ho2. auto. }
  split; [exact Hdistinct|].
  unfold collect_files, adjust_paths.
  destruct (posix_adjust_loop_ok cwd start style decorations strict_rel base_label
              (collect_raw (OS := posix cwd) fs start collect sort_by
                 exclude_patterns collect_limit collect_limit_min max_depth prune) [])
    as [adj E].
  exists adj. split; [exact E|].
  apply adjust_loop_keys in E.
  - rewrite keys_collect_raw in E. simpl in E. fold walked in E.
    split.
    + apply (f_equal (@length str)) in E. unfold keys in E.
      rewrite !length_map in E. exact E.
    + rewrite E. apply NoDup_map_NoDup_ForallPairs; [|apply NoDup_keys_walk].
      intros d1 d2 I1 I2 Ek.
      destruct (list_eq_dec ascii_dec d1 d2) as [|Hne]; [assumption|].
      exfalso. apply (Hdistinct d1 d2 _ _ I1 I2 Hne
                        (posix_rendered_key cwd start style decorations strict_rel
                           base_label d1)
                        (posix_rendered_key cwd start style decorations strict_rel
                           base_label d2) Ek).
  - simpl. rewrite keys_collect_raw. fold walked.
    apply NoDup_map_NoDup_ForallPairs; [|apply NoDup_keys_walk].
    intros d1 d2 I1 I2 Ek.
    destruct (list_eq_dec ascii_dec d1 d2) as [|Hne]; [assumption|].
    exfalso. apply (Hdistinct d1 d2 _ _ I1 I2 Hne
                      (posix_rendered_key cwd start style decorations strict_rel
                         base_label d1)
                      (posix_rendered_key cwd start style decorations strict_rel
                         base_label d2) Ek).
Qed.

(** ** The renderer *)

Lemma tree_induction (P : tree -> Prop) :
  (forall kids, Forall (fun ns => P (snd ns)) kids -> P (Node kids)) ->
  forall t, P t.
Proof.
  intros H. fix IH 1. intros [kids]. apply H.
  induction kids as [|[name sub] kids IHk]; constructor; [apply IH | exact IHk].
Qed.

Lemma braced_refl (a : str) : braced a a.
Proof. exists 0. simpl. now rewrite app_nil_r. Qed.

Lemma braced_trans (a b c : str) : braced a b -> braced b c -> braced a c.
Proof.
  intros [k ->] [j ->]. exists (k + j). now rewrite <- app_assoc, repeat_app.
Qed.

Lemma later_refl (l : list str) : later l l.
Proof. intros a Ha. exists a. split; [exact Ha | apply braced_refl]. Qed.

Lemma later_trans (l1 l2 l3 : list str) : later l1 l2 -> later l2 l3 -> later l1 l3.
Proof.
  intros H12 H23 a Ha. destruct (H12 a Ha) as (b & Hb & Hab).
  destruct (H23 b Hb) as (c & Hc & Hbc). exists c. split; [exact Hc|].
  now apply (braced_trans a b c).
Qed.

Lemma later_app (l e : list str) : later l (l ++ e).
Proof.
  intros a Ha. exists a. split; [apply in_or_app; now left | apply braced_refl].
Qed.

Lemma later_close_last (l : list str) : later l (close_last l).
Proof.
  induction l as [|x l IH]; intros a Ha; [contradiction|].
  destruct l as [|y l].
  - destruct Ha as [->|[]]. exists (a ++ lit "}"). split; [now left|]. now exists 1.
  - destruct Ha as [->|Ha].
    + exists a. split; [now left | apply braced_refl].
    + destruct (IH a Ha) as (b & Hb & Hab). exists b. split; [now right | exact Hab].
Qed.

Section RenderFacts.
Context {OS : OsPath}.

Variable full_map : dict.
Variable collect : collect_strategy.
Variable decorations : list decoration.
Variable style : path_style.
Variable sort_by : sort_mode.
Variable indent_size : Z.
Variable compact_braces : bool.

Local Abbreviation render_item :=
  (format_item full_map collect decorations style indent_size compact_braces).
Local Abbreviation render_items :=
  (format_items full_map collect decorations style indent_size compact_braces).
Local Abbreviation render :=
  (format_directory full_map collect decorations style sort_by indent_size
     compact_braces).

Lemma later_close_brace (indent : str) (is_last : bool) (l : list str) :
  later l (close_brace compact_braces indent is_last l).
Proof.
  unfold close_brace. destruct (compact_braces && is_last);
    [apply later_close_last | apply later_app].
Qed.

Ltac later_step Hrec :=
  first
    [ apply later_refl
    | match goal with
      | |- later _ (close_brace _ _ _ _) =>
          eapply later_trans; [|apply later_close_brace]
      | |- later _ (_ ++ _) => eapply later_trans; [|apply later_app]
      | |- later _ (if ?b then _ else _) => destruct b
      | |- later _ (match ?x with _ => _ end) => destruct x
      | |- later _ _ => eapply later_trans; [|apply Hrec]
      end ].

Lemma format_item_later (name : str) (has_sub : bool)
    (recurse : str -> nat -> list str -> list str) (is_last : bool)
    (current_path : str) (level : nat) (lines : list str) :
  (forall p l ls, later ls (recurse p l ls)) ->
  later lines (render_item (name, (has_sub, recurse)) is_last current_path level lines).
Proof.
  intros Hrec. unfold format_item. cbv zeta.
  destruct collect; repeat later_step Hrec.
Qed.

Lemma format_items_later (items : list (item)) (current_path : str) (level : nat)
    (lines : list str) :
  Forall (fun it => forall p l ls, later ls (snd (snd it) p l ls)) items ->
  later lines (render_items items current_path level lines).
Proof.
  intros H. revert lines.
  induction H as [|[name [has_sub recurse]] items Hit _ IH]; intros lines;
    cbn [format_items]; [apply later_refl|].
  eapply later_trans; [|apply IH]. now apply format_item_later.
Qed.

Lemma in_items (kids : list (str * tree)) (it : item) :
  In it
    (sorted (fun it : item => get_subdir_sort_key (fst it) sort_by)
       (map (fun '(name, sub) => (name, (nonempty_tree sub, render sub))) kids)) <->
  exists name sub, In (name, sub) kids /\ it = (name, (nonempty_tree sub, render sub)).
Proof.
  rewrite in_sorted, in_map_iff. split.
  - intros ([name sub] & <- & Hin). eauto.
  - intros (name & sub & Hin & ->). now exists (name, sub).
Qed.

Lemma format_directory_later (t : tree) (current_path : str) (level : nat)
    (lines : list str) :
  later lines (render t current_path level lines).
Proof.
  revert current_path level lines.
  induction t as [kids IH] using tree_induction. intros current_path level lines.
  cbn [format_directory]. apply format_items_later.
  apply Forall_forall. intros it Hit.
  apply in_items in Hit as (name & sub & Hin & ->). simpl.
  rewrite Forall_forall in IH. exact (IH (name, sub) Hin).
Qed.

Lemma shows_later (target : str) (l l' : list str) :
  shows target l -> later l l' -> shows target l'.
Proof.
  intros (line & sfx & Hin & Hs & Hb) Hl.
  destruct (Hl line Hin) as (b & Hb' & Hlb).
  exists b, sfx. split; [exact Hb'|]. split; [exact Hs|].
  now apply (braced_trans _ line).
Qed.

Lemma shows_header (target sfx : str) (lines : list str) :
  sfx = [] \/ sfx = lit ":{" -> shows target (lines ++ [target ++ sfx]).
Proof.
  intros Hs. exists (target ++ sfx), sfx.
  split; [apply in_or_app; right; now left|]. split; [exact Hs | apply braced_refl].
Qed.

(** The header of a segment: indentation and displayed name. *)
Local Abbreviation header :=
  (fun (level : nat) (name : str) =>
     spaces (indent_size * Z.of_nat level) ++ dir_display style decorations name).

Lemma format_item_header (name : str) (has_sub : bool)
    (recurse : str -> nat -> list str -> list str) (is_last : bool)
    (current_path : str) (level : nat) (lines : list str) :
  collect <> FilesOnlyC ->
  (forall p l ls, later ls (recurse p l ls)) ->
  shows (header level name)
    (render_item (name, (has_sub, recurse)) is_last current_path level lines).
Proof.
  intros Hc Hrec.
  assert (H0 : shows (header level name) (lines ++ [header level name ++ []]))
    by (apply shows_header; now left).
  assert (H1 : shows (header level name) (lines ++ [header level name ++ lit ":{"]))
    by (apply shows_header; now right).
  cbv beta in H0, H1 |- *. rewrite app_nil_r in H0. rewrite <- app_assoc in H1.
  unfold format_item. cbv zeta. destruct collect; try contradiction.
  - eapply shows_later; [exact H1|]. repeat later_step Hrec.
  - destruct has_sub.
    + eapply shows_later; [exact H1|]. repeat later_step Hrec.
    + destruct style; exact H0.
  - destruct (has_sub || _).
    + eapply shows_later; [exact H1|]. repeat later_step Hrec.
    + eapply shows_later; [exact H0|]. repeat later_step Hrec.
Qed.

Lemma format_item_passes_down (target name : str)
    (recurse : str -> nat -> list str -> list str) (is_last : bool)
    (current_path : str) (level : nat) (lines : list str) :
  (forall p ls, shows target (recurse p (S level) ls)) ->
  shows target
    (render_item (name, (true, recurse)) is_last current_path level lines).
Proof.
  intros Hrec. unfold format_item.
  destruct collect; cbn [orb];
    (eapply shows_later; [apply Hrec | apply later_close_brace]).
Qed.

Lemma format_items_shows (target : str) (it : item) (items : list item)
    (current_path : str) (level : nat) (lines : list str) :
  In it items ->
  (forall is_last ls, shows target (render_item it is_last current_path level ls)) ->
  Forall (fun it => forall p l ls, later ls (snd (snd it) p l ls)) items ->
  shows target (render_items items current_path level lines).
Proof.
  intros Hin Hit Hall. revert lines.
  induction Hall as [|x items Hx Hall IH]; intros lines; [contradiction|].
  cbn [format_items]. destruct Hin as [->|Hin].
  - eapply shows_later; [apply Hit | now apply format_items_later].
  - now apply IH.
Qed.

Lemma items_later (kids : list (str * tree)) :
  Forall (fun it : item => forall p l ls, later ls (snd (snd it) p l ls))
    (sorted (fun it : item => get_subdir_sort_key (fst it) sort_by)
       (map (fun '(name, sub) => (name, (nonempty_tree sub, render sub))) kids)).
Proof.
  apply Forall_forall. intros it Hit.
  apply in_items in Hit as (name & sub & Hin & ->). simpl.
  intros p l ls. apply format_directory_later.
Qed.

Lemma segment_nonempty (t : tree) (base level : nat) (name : str) :
  segment_in t base level name -> nonempty_tree t = true.
Proof.
  intros [kids b n sub Hin|kids b l n parent sub Hin _];
    (destruct kids; [contradiction | reflexivity]).
Qed.

Lemma format_directory_shows (t : tree) (base level : nat) (name : str) :
  collect <> FilesOnlyC ->
  segment_in t base level name ->
  forall current_path lines,
    shows (header level name) (render t current_path base lines).
Proof.
  intros Hc Hseg.
  induction Hseg as [kids base name sub Hin|kids base level name parent sub Hin Hseg IH];
    intros current_path lines; cbn [format_directory].
  - apply (format_items_shows _ (name, (nonempty_tree sub, render sub)));
      [apply in_items; eauto | | apply items_later].
    intros is_last ls. apply format_item_header; [exact Hc|].
    intros p l ls'. apply format_directory_later.
  - apply (format_items_shows _ (parent, (nonempty_tree sub, render sub)));
      [apply in_items; eauto | | apply items_later].
    intros is_last ls. rewrite (segment_nonempty _ _ _ _ Hseg).
    apply format_item_passes_down. intros p ls'. apply IH.
Qed.

End RenderFacts.

(** C9 (as amended): in summary rendering under every collection strategy
    but [files-only], every segment of the directory tree is printed on a
    line made of the indentation of its level, the segment name, an
    optional opening brace and closing braces; the name is passed through
    the decoration transform under every path style but [rel-base], where
    it is printed as it is. *)
Theorem summary_segments_are_decorated {OS : OsPath} (collected : dict)
    (collect : collect_strategy) (decorations : list decoration) (style : path_style)
    (sort_by : sort_mode) (indent_size : Z) (compact_braces : bool)
    (level : nat) (name : str)
    (Hcollect : collect <> FilesOnlyC)
    (Hsegment : segment_in (build_directory_tree collected) 0 level name) :
  exists line sfx k,
    In line
      (format_lines collected Summary collect decorations style sort_by indent_size
         compact_braces) /\
    (sfx = [] \/ sfx = lit ":{") /\
    line = spaces (indent_size * Z.of_nat level)
             ++ match style with
                | RelBase => name
                | _ => apply_decorations name decorations
                end
             ++ sfx ++ repeat "}"%char k.
Proof.
  destruct (format_directory_shows collected collect decorations style sort_by
              indent_size compact_braces _ _ _ _ Hcollect Hsegment [] [])
    as (line & sfx & Hin & Hs & k & E).
  exists line, sfx, k. split; [exact Hin|]. split; [exact Hs|].
  rewrite E. now rewrite <- !app_assoc.
Qed.

(** ** Concrete runs of the adjuster and the renderer *)


(** The same file on a drive of the [ntpath] model. *)
Lemma direct_children_on_a_drive :
  adjust_file (OS := win) (lit "C:\p\src") Rel [Windows] true None
    (lit "C:\p\src\main.py")
  = Ok (lit "main.py") /\
  adjust_file (OS := win) (lit "C:\p\src") RelBase [Windows] true None
    (lit "C:\p\src\main.py")
  = Ok (lit "src\main.py") /\
  adjust_dir (OS := win) (lit "C:\p\src") RelBase [Windows] true None (lit "C:\p\src")
  = Ok (lit "src").
Proof. repeat split. Qed.

(** C8, counterexample: under the [unix] decoration the directories
    [/p/a/b] and [/p/a\b] are both stored under the key [a/b], and the
    adjusted map has three entries for the four of the walker's map. *)
Lemma backslash_name_merges_directories :
  ~ (forall d1 d2 k1 k2,
       In d1 (keys (walk_directories (OS := linux) slash_names (lit "/p") None IName
                      All None None None None)) ->
       In d2 (keys (walk_directories (OS := linux) slash_names (lit "/p") None IName
                      All None None None None)) ->
       d1 <> d2 ->
       adjust_dir (OS := linux) (lit "/p") Rel [Unix] false None d1 = Ok k1 ->
       adjust_dir (OS := linux) (lit "/p") Rel [Unix] false None d2 = Ok k2 ->
       k1 <> k2) /\
  (exists adjusted,
     collect_files (OS := linux) slash_names (lit "/p") Rel All IName [Unix] None
       None None false None None None = Ok adjusted /\
     length adjusted = 3 /\
     length (walk_directories (OS := linux) slash_names (lit "/p") None IName All
               None None None None) = 4).
Proof.
  split.
  - intros H.
    apply (H (lit "/p/a/b") (lit "/p/a\b") (lit "a/b") (lit "a/b"));
      try reflexivity; try discriminate; vm_compute; tauto.
  - eexists. split; [vm_compute; reflexivity|]. split; reflexivity.
Qed.

(** The leader options merge directories as well: with [no-leader] the
    keys of [.git] and [git] are both [git]. *)
Lemma no_leader_merges_directories :
  collect_files (OS := linux) dot_git (lit "/p") Rel All IName [NoLeader] None None
    None false None None None
  = Ok [([], []); (lit "git", [lit "git/x"])].
Proof. reflexivity. Qed.

(** C8, witness: two levels of directories under [/d] in style
    [rel-base] with the [unix] decoration. *)
Lemma distinct_directories_distinct_keys_witness :
  (forall d1 d2 k1 k2,
     In d1 (keys (walk_directories (OS := linux) two_levels (lit "/d") None IName
                    All None None None None)) ->
     In d2 (keys (walk_directories (OS := linux) two_levels (lit "/d") None IName
                    All None None None None)) ->
     d1 <> d2 ->
     adjust_dir (OS := linux) (lit "/d") RelBase [Unix] false None d1 = Ok k1 ->
     adjust_dir (OS := linux) (lit "/d") RelBase [Unix] false None d2 = Ok k2 ->
     k1 <> k2) /\
  exists adjusted,
    collect_files (OS := linux) two_levels (lit "/d") RelBase All IName [Unix] None
      None None false None None None = Ok adjusted /\
    length adjusted
    = length (walk_directories (OS := linux) two_levels (lit "/d") None IName All
                None None None None) /\
    NoDup (keys adjusted).
Proof.
  exact (distinct_directories_distinct_keys (lit "/") [lit "d"] two_levels None IName
           All None None None None RelBase [Unix] false None eq_refl eq_refl
           (or_intror (conj eq_refl (conj eq_refl (fun _ => eq_refl))))).
Defined.

(** [dotted_map] is what [collect_files] returns for [/p/src]. *)
Lemma dotted_map_is_collected :
  collect_files (OS := linux) src_tree (lit "/p/src") RelBase All IName [NoLeader]
    None None None false None None None
  = Ok dotted_map.
Proof. reflexivity. Qed.

(** C9, counterexample: in style [rel-base] with [no-leader] the segment
    [.git] of the tree is printed as it is; no line shows its decorated
    form [git]. *)
Lemma rel_base_prints_segment_undecorated :
  segment_in (build_directory_tree (OS := linux) dotted_map) 0 1 (lit ".git") /\
  format_lines (OS := linux) dotted_map Summary All [NoLeader] RelBase IName 2 false
  = [lit "src:{"; lit "  main.py"; lit "  .git:{"; lit "    config"; lit "  }";
     lit "}"] /\
  ~ (exists line sfx k,
       In line
         (format_lines (OS := linux) dotted_map Summary All [NoLeader] RelBase IName
            2 false) /\
       (sfx = [] \/ sfx = lit ":{") /\
       line = spaces (2 * Z.of_nat 1) ++ apply_decorations (lit ".git") [NoLeader]
                ++ sfx ++ repeat "}"%char k).
Proof.
  split; [|split].
  - change (build_directory_tree (OS := linux) dotted_map)
      with (Node [(lit "src", Node [(lit ".git", Node [])])]).
    eapply seg_below; [now left|]. eapply seg_child. now left.
  - reflexivity.
  - intros (line & sfx & k & Hin & _ & E).
    change (format_lines (OS := linux) dotted_map Summary All [NoLeader] RelBase IName
              2 false)
      with [lit "src:{"; lit "  main.py"; lit "  .git:{"; lit "    config";
            lit "  }"; lit "}"] in Hin.
    simpl in Hin, E.
    repeat (destruct Hin as [<-|Hin]; [discriminate E|]). contradiction.
Qed.

(** C9, witness: the segment [lib] of a tree in style [rel] with the
    [unix] decoration. *)
Lemma summary_segments_are_decorated_witness :
  All <> FilesOnlyC /\
  exists line sfx k,
    In line
      (format_lines (OS := linux)
         [(lit "src", [lit "src/a.py"]); (lit "src/lib", [lit "src/lib/b.py"])]
         Summary All [Unix] Rel IName 2 false) /\
    (sfx = [] \/ sfx = lit ":{") /\
    line = spaces (2 * Z.of_nat 1) ++ apply_decorations (lit "lib") [Unix]
             ++ sfx ++ repeat "}"%char k.
Proof.
  split; [discriminate|].
  refine (@summary_segments_are_decorated linux
            [(lit "src", [lit "src/a.py"]); (lit "src/lib", [lit "src/lib/b.py"])]
            All [Unix] Rel IName 2 false 1 (lit "lib") _ _); [discriminate|].
  change (build_directory_tree (OS := linux)
            [(lit "src", [lit "src/a.py"]); (lit "src/lib", [lit "src/lib/b.py"])])
    with (Node [(lit "src", Node [(lit "lib", Node [])])]).
  eapply seg_below; [now left|]. eapply seg_child. now left.
Defined.

(** * Further properties of the code *)

(** ** Order of the sort keys *)

Lemma str_ltb_asym (a b : str) : str_ltb a b = true -> str_ltb b a = false.
Proof.
  revert b. induction a as [|x a IH]; intros [|y b]; simpl; try congruence.
  destruct (nat_of_ascii x <? nat_of_ascii y)%nat eqn:Exy.
  - intros _. apply Nat.ltb_lt in Exy.
    replace (nat_of_ascii y <? nat_of_ascii x)%nat with false
      by (symmetry; apply Nat.ltb_ge; lia).
    destruct (chr_eqb y x) eqn:E; [|reflexivity].
    apply chr_eqb_eq in E. subst. lia.
  - destruct (chr_eqb x y) eqn:E; [|discriminate].
    apply chr_eqb_eq in E. subst y. rewrite Exy, chr_eqb_refl. apply IH.
Qed.

Lemma str_ltb_irrefl (a : str) : str_ltb a a = false.
Proof.
  destruct (str_ltb a a) eqn:E; [|reflexivity].
  pose proof (str_ltb_asym a a E). congruence.
Qed.

Lemma nat_of_ascii_inj (x y : ascii) : nat_of_ascii x = nat_of_ascii y -> x = y.
Proof.
  intros H. rewrite <- (ascii_nat_embedding x), <- (ascii_nat_embedding y). now f_equal.
Qed.

(** [a <= b] on strings, as [not (b < a)], is transitive. *)
Lemma str_leb_trans (a b c : str) :
  str_ltb b a = false -> str_ltb c b = false -> str_ltb c a = false.
Proof.
  revert b c. induction a as [|x a IH]; intros b c Hba Hcb.
  - now destruct c.
  - destruct b as [|y b]; [simpl in Hba; discriminate|].
    destruct c as [|z c]; [simpl in Hcb; discriminate|].
    simpl in *.
    destruct (nat_of_ascii y <? nat_of_ascii x)%nat eqn:Eyx; [discriminate|].
    destruct (nat_of_ascii z <? nat_of_ascii y)%nat eqn:Ezy; [discriminate|].
    apply Nat.ltb_ge in Eyx, Ezy.
    destruct (nat_of_ascii z <? nat_of_ascii x)%nat eqn:Ezx;
      [apply Nat.ltb_lt in Ezx; lia|].
    destruct (chr_eqb z x) eqn:E; [|reflexivity].
    apply chr_eqb_eq in E. subst z.
    assert (y = x) by (apply nat_of_ascii_inj; lia). subst y.
    rewrite chr_eqb_refl in Hba, Hcb. now apply (IH b c).
Qed.

Lemma key_ltb_asym (a b : key) : key_ltb a b = true -> key_ltb b a = false.
Proof.
  destruct a as [x|n x|t], b as [y|m y|u]; simpl; try congruence.
  - apply str_ltb_asym.
  - intros H. apply orb_true_iff in H as [H|H].
    + apply Z.ltb_lt in H.
      replace (m <? n)%Z with false by (symmetry; apply Z.ltb_ge; lia).
      replace (m =? n)%Z with false by (symmetry; apply Z.eqb_neq; lia).
      reflexivity.
    + apply andb_true_iff in H as [E H]. apply Z.eqb_eq in E. subst m.
      rewrite Z.ltb_irrefl, Z.eqb_refl. simpl. now apply str_ltb_asym.
  - intros H. apply Z.ltb_lt in H. apply Z.ltb_ge. lia.
Qed.

Lemma key_leb_trans (a b c : key) :
  same_kind a b = true -> same_kind b c = true ->
  key_ltb b a = false -> key_ltb c b = false -> key_ltb c a = false.
Proof.
  destruct a as [x|n x|t], b as [y|m y|u], c as [z|p z|v]; simpl; try congruence;
    intros _ _.
  - apply str_leb_trans.
  - intros H1 H2. apply orb_false_iff in H1 as [L1 E1], H2 as [L2 E2].
    apply Z.ltb_ge in L1, L2.
    apply orb_false_iff. split; [apply Z.ltb_ge; lia|].
    destruct (p =? n)%Z eqn:E; [|reflexivity]. apply Z.eqb_eq in E. subst p.
    assert (m = n) by lia. subst m.
    rewrite Z.eqb_refl in E1, E2. simpl in *. now apply (str_leb_trans x y z).
  - intros H1 H2. apply Z.ltb_ge in H1, H2. apply Z.ltb_ge. lia.
Qed.

Section SortedOrder.
Variable A : Type.
Variable k : A -> key.

(** [a] may stand before [b]: the key of [b] is not below the key of [a]. *)
Local Abbreviation before := (fun a b : A => key_ltb (k b) (k a) = false).

Lemma insert_sorted_permutation (x : A) (l : list A) :
  Permutation (x :: l) (insert_sorted k x l).
Proof.
  induction l as [|y l IH]; simpl; [apply Permutation_refl|].
  destruct (key_ltb (k y) (k x)); [|apply Permutation_refl].
  eapply Permutation_trans; [apply perm_swap|]. now apply perm_skip.
Qed.

Lemma sorted_permutation (l : list A) : Permutation l (sorted k l).
Proof.
  induction l as [|x l IH]; simpl; [constructor|].
  eapply Permutation_trans; [apply perm_skip, IH | apply insert_sorted_permutation].
Qed.

Lemma insert_sorted_strongly (x : A) (l : list A) :
  (forall a b c, In a (x :: l) -> In b (x :: l) -> In c (x :: l) ->
     before a b -> before b c -> before a c) ->
  StronglySorted before l -> StronglySorted before (insert_sorted k x l).
Proof.
  intros Htrans Hl. induction Hl as [|y l Hl IH Hy]; simpl.
  - repeat constructor.
  - destruct (key_ltb (k y) (k x)) eqn:E.
    + constructor.
      * apply IH. intros a b c Ha Hb Hc. apply Htrans; simpl in *; tauto.
      * apply Forall_forall. intros z Hz. apply in_insert_sorted in Hz as [->|Hz].
        -- now apply key_ltb_asym.
        -- rewrite Forall_forall in Hy. now apply Hy.
    + constructor; [now constructor|]. constructor; [exact E|].
      apply Forall_forall. intros z Hz. rewrite Forall_forall in Hy.
      apply (Htrans x y z); simpl; auto.
Qed.

Lemma sorted_strongly (l : list A) :
  (forall a b c, In a l -> In b l -> In c l ->
     before a b -> before b c -> before a c) ->
  StronglySorted before (sorted k l).
Proof.
  induction l as [|x l IH]; intros Htrans; simpl; [constructor|].
  apply insert_sorted_strongly.
  - intros a b c Ha Hb Hc. apply Htrans.
    + destruct Ha as [->|Ha]; [now left | right; now apply in_sorted in Ha].
    + destruct Hb as [->|Hb]; [now left | right; now apply in_sorted in Hb].
    + destruct Hc as [->|Hc]; [now left | right; now apply in_sorted in Hc].
  - apply IH. intros a b c Ha Hb Hc. apply Htrans; now right.
Qed.

(** A list whose neighbours are in order is left as it is. *)
Lemma sorted_fixpoint (l : list A) : Sorted before l -> sorted k l = l.
Proof.
  induction 1 as [|x l Hl IH Hx]; simpl; [reflexivity|].
  rewrite IH. destruct Hx as [|y l' Hxy]; simpl; [reflexivity|].
  now rewrite Hxy.
Qed.

(** Elements whose keys are not ordered among themselves keep their
    order. *)
Lemma sorted_stable (p : A -> bool) (l : list A) :
  (forall x y, In x l -> In y l -> p x = true -> p y = true ->
     key_ltb (k x) (k y) = false) ->
  filter p (sorted k l) = filter p l.
Proof.
  induction l as [|x l IH]; intros H; simpl; [reflexivity|].
  assert (IH' : filter p (sorted k l) = filter p l)
    by (apply IH; intros a b Ha Hb; apply H; now right).
  rewrite <- IH'.
  assert (Hin : forall y, In y (sorted k l) -> In y (x :: l))
    by (intros y Hy; right; now apply in_sorted in Hy).
  revert Hin. generalize (sorted k l). intros s Hs.
  induction s as [|y s IHs]; simpl; [reflexivity|].
  destruct (key_ltb (k y) (k x)) eqn:E; simpl.
  - rewrite IHs by (intros z Hz; apply Hs; now right).
    destruct (p x) eqn:Px, (p y) eqn:Py; try reflexivity.
    rewrite (H y x) in E; [discriminate | apply Hs; now left | now left | | ];
      assumption.
  - reflexivity.
Qed.

End SortedOrder.

Lemma sort_map_same_kind {OS : OsPath} (getmtime : str -> Z) (mode : sort_mode)
    (a b : str) :
  same_kind (sort_map getmtime mode a) (sort_map getmtime mode b) = true.
Proof.
  destruct mode; simpl; try reflexivity; unfold numerical_sort;
    repeat match goal with |- context [first_digits ?v] => destruct (first_digits v) end;
    reflexivity.
Qed.

(** ** The sort engine, continued *)

(** X1: [sort_files] returns a permutation of its input: no path is
    dropped, added or duplicated, whatever the mode. *)
Theorem sort_files_permutation {OS : OsPath} (getmtime : str -> Z) (files : list str)
    (mode : sort_mode) :
  Permutation files (sort_files getmtime files mode) /\
  length (sort_files getmtime files mode) = length files /\
  (forall f, In f (sort_files getmtime files mode) <-> In f files).
Proof.
  split; [apply sorted_permutation|]. split; [apply length_sorted | intros f; apply in_sorted].
Qed.

Lemma sort_files_strongly_sorted {OS : OsPath} (getmtime : str -> Z)
    (files : list str) (mode : sort_mode) :
  StronglySorted
    (fun a b => key_ltb (sort_map getmtime mode b) (sort_map getmtime mode a) = false)
    (sort_files getmtime files mode).
Proof.
  apply (sorted_strongly str (sort_map getmtime mode)).
  intros a b c _ _ _. apply key_leb_trans; apply sort_map_same_kind.
Qed.

(** X2: in the list [sort_files] returns no path stands before a path
    with a smaller key: the list is sorted by the key of the mode. *)
Theorem sort_files_sorted {OS : OsPath} (getmtime : str -> Z) (files : list str)
    (mode : sort_mode) (before after : list str) (a b : str) :
  sort_files getmtime files mode = before ++ a :: after ->
  In b after ->
  key_ltb (sort_map getmtime mode b) (sort_map getmtime mode a) = false.
Proof.
  intros E Hb.
  pose proof (sort_files_strongly_sorted getmtime files mode) as H.
  rewrite E in H. clear E.
  induction before as [|x before IH]; simpl in H.
  - apply StronglySorted_inv in H as [_ H]. rewrite Forall_forall in H. now apply H.
  - apply StronglySorted_inv in H as [H _]. now apply IH.
Qed.

(** X3: sorting is idempotent: a list [sort_files] returned is left
    unchanged by a second sort in the same mode. *)
Theorem sort_files_idempotent {OS : OsPath} (getmtime : str -> Z) (files : list str)
    (mode : sort_mode) :
  sort_files getmtime (sort_files getmtime files mode) mode
  = sort_files getmtime files mode.
Proof.
  unfold sort_files at 1. apply sorted_fixpoint.
  apply StronglySorted_Sorted, sort_files_strongly_sorted.
Qed.

(** X2, witness: [A.txt] stands before [b.txt] under [iname]. *)
Lemma sort_files_sorted_witness :
  key_ltb (sort_map (OS := linux) (fun _ => 0%Z) IName (lit "/d/b.txt"))
    (sort_map (OS := linux) (fun _ => 0%Z) IName (lit "/d/A.txt")) = false.
Proof.
  apply (@sort_files_sorted linux (fun _ => 0%Z) [lit "/d/b.txt"; lit "/d/A.txt"] IName
           [] [lit "/d/b.txt"] (lit "/d/A.txt") (lit "/d/b.txt")).
  - reflexivity.
  - now left.
Defined.

(** X4: the sort is stable: paths whose keys are not ordered among
    themselves (equal keys) come out in the order they came in. *)
Theorem sort_files_stable {OS : OsPath} (getmtime : str -> Z) (files : list str)
    (mode : sort_mode) (p : str -> bool)
    (Hclass : forall x y, In x files -> In y files -> p x = true -> p y = true ->
                key_ltb (sort_map getmtime mode x) (sort_map getmtime mode y) = false) :
  filter p (sort_files getmtime files mode) = filter p files.
Proof. now apply sorted_stable. Qed.

(** X4, witness: [A.txt] and [a.txt] have the same [iname] key and keep
    their listing order around [0.txt]. *)
Lemma sort_files_stable_witness :
  filter (fun f => str_eqb (lower (basename (OsPath := linux) f)) (lit "a.txt"))
    (sort_files (OS := linux) (fun _ => 0%Z)
       [lit "/d/a.txt"; lit "/d/b.txt"; lit "/d/A.txt"; lit "/d/0.txt"] IName)
  = [lit "/d/a.txt"; lit "/d/A.txt"].
Proof.
  apply (@sort_files_stable linux (fun _ => 0%Z)
           [lit "/d/a.txt"; lit "/d/b.txt"; lit "/d/A.txt"; lit "/d/0.txt"] IName
           (fun f => str_eqb (lower (basename (OsPath := linux) f)) (lit "a.txt"))).
  intros x y Hx Hy.
  simpl in Hx, Hy.
  destruct Hx as [<-|[<-|[<-|[<-|[]]]]], Hy as [<-|[<-|[<-|[<-|[]]]]];
    intros Px Py; try reflexivity; discriminate.
Defined.

(** ** Numeric keys *)

Lemma first_digits_none (v : str) :
  forallb (fun c => negb (is_digit c)) v = true -> first_digits v = None.
Proof.
  induction v as [|c v IH]; simpl; [reflexivity|].
  intros H. apply andb_true_iff in H as [Hc Hv]. apply negb_true_iff in Hc.
  rewrite Hc. now apply IH.
Qed.

Lemma take_digits_run (ds rest : str) :
  forallb is_digit ds = true ->
  match rest with [] => True | c :: _ => is_digit c = false end ->
  take_digits (ds ++ rest) = ds.
Proof.
  intros Hds Hrest. induction ds as [|d ds IH]; simpl.
  - destruct rest as [|c rest]; [reflexivity|]. simpl. now rewrite Hrest.
  - simpl in Hds. apply andb_true_iff in Hds as [Hd Hds]. rewrite Hd.
    now rewrite IH.
Qed.

(** X5: the numeric key of a name is the value of its first run of
    decimal digits, paired with the name; a name without digits gets the
    number 0. *)
Theorem numerical_sort_first_number (pre ds rest : str) :
  forallb (fun c => negb (is_digit c)) pre = true ->
  (forallb is_digit ds = true ->
   ds <> [] ->
   match rest with [] => True | c :: _ => is_digit c = false end ->
   numerical_sort (pre ++ ds ++ rest) = KNum (int_of_digits ds) (pre ++ ds ++ rest)) /\
  numerical_sort pre = KNum 0 pre.
Proof.
  intros Hpre. split.
  - intros Hds Hne Hrest. unfold numerical_sort.
    assert (E : first_digits (pre ++ ds ++ rest) = Some ds).
    { induction pre as [|c pre IH]; simpl.
      - destruct ds as [|d ds]; [congruence|]. simpl in *.
        apply andb_true_iff in Hds as [Hd Hds]. rewrite Hd.
        now rewrite take_digits_run.
      - simpl in Hpre. apply andb_true_iff in Hpre as [Hc Hp].
        apply negb_true_iff in Hc. rewrite Hc. now apply IH. }
    now rewrite E.
  - unfold numerical_sort. now rewrite first_digits_none.
Qed.

(** X5, witness: under [sequence] the key of [file2] is below the key
    of [file10], although [file10] is the smaller string. *)
Lemma numerical_sort_first_number_witness :
  numerical_sort (lit "file10.txt") = KNum 10 (lit "file10.txt") /\
  key_ltb (numerical_sort (lit "file2.txt")) (numerical_sort (lit "file10.txt")) = true /\
  str_ltb (lit "file10.txt") (lit "file2.txt") = true.
Proof.
  split; [|split; reflexivity].
  exact (proj1 (numerical_sort_first_number (lit "file") (lit "10") (lit ".txt") eq_refl)
           eq_refl ltac:(discriminate) eq_refl).
Defined.

(** ** The decoration transform, continued *)

Lemma mem_chr_replace_old (old new : ascii) (s : str) :
  old <> new -> mem_chr old (replace old new s) = false.
Proof.
  intros H. induction s as [|c s IH]; simpl; [reflexivity|].
  rewrite IH, orb_false_r. destruct (chr_eqb c old) eqn:E.
  - apply Ascii.eqb_neq. exact H.
  - rewrite chr_eqb_sym. exact E.
Qed.

Lemma mem_chr_replace_other (c old new : ascii) (s : str) :
  c <> new -> mem_chr c s = false -> mem_chr c (replace old new s) = false.
Proof.
  intros H. induction s as [|x s IH]; simpl; [reflexivity|].
  intros Hs. apply orb_false_iff in Hs as [Hx Hs]. rewrite IH, orb_false_r by exact Hs.
  destruct (chr_eqb x old); [now apply Ascii.eqb_neq | exact Hx].
Qed.

Lemma lstrip_head (chars s : str) :
  match lstrip chars s with
  | [] => True
  | c :: _ => mem_chr c chars = false
  end.
Proof.
  induction s as [|c s IH]; simpl; [exact I|].
  destruct (mem_chr c chars) eqn:E; [exact IH | exact E].
Qed.

(** X6: the slash decorations leave one slash style: with [unix] the
    result holds no backslash, with [windows] and no [unix] it holds no
    forward slash, whatever the leader options. *)
Theorem slash_decorations_leave_one_style (path : str) (decorations : list decoration) :
  (has Unix decorations = true ->
   mem_chr "\" (apply_decorations path decorations) = false) /\
  (has Unix decorations = false -> has Windows decorations = true ->
   mem_chr "/" (apply_decorations path decorations) = false).
Proof.
  unfold apply_decorations. split.
  - intros ->. apply mem_chr_replace_old. discriminate.
  - intros -> ->. apply mem_chr_replace_old. discriminate.
Qed.

(** X6, witness. *)
Lemma slash_decorations_leave_one_style_witness :
  mem_chr "\" (apply_decorations (lit ".\src\a/b.py") [RelLeader; Windows; Unix]) = false /\
  mem_chr "/" (apply_decorations (lit "src\a/b.py") [Windows]) = false.
Proof.
  split.
  - exact (proj1 (slash_decorations_leave_one_style (lit ".\src\a/b.py")
                    [RelLeader; Windows; Unix]) eq_refl).
  - exact (proj2 (slash_decorations_leave_one_style (lit "src\a/b.py") [Windows])
             eq_refl eq_refl).
Defined.

(** X7: with [no-leader] the result never starts with a dot (nor, when
    [unix] is not selected, with a forward slash); with [rel-leader] and
    without [no-leader] it starts with a dot and a slash, which is a
    backslash exactly when [windows] is selected and [unix] is not. *)
Theorem leader_decorations_fix_the_start (path : str) (decorations : list decoration) :
  (has NoLeader decorations = true ->
   match apply_decorations path decorations with
   | [] => True
   | c :: _ => c <> "."%char /\ (has Unix decorations = false -> c <> "/"%char)
   end) /\
  (has NoLeader decorations = false -> has RelLeader decorations = true ->
   exists rest,
     apply_decorations path decorations
     = "."%char
         :: (if has Windows decorations && negb (has Unix decorations)
             then "\"%char else "/"%char)
         :: rest).
Proof.
  unfold apply_decorations. split.
  - intros ->.
    pose proof (lstrip_head (lit "./") (lstrip (lit ".\") path)) as H.
    destruct (lstrip (lit "./") (lstrip (lit ".\") path)) as [|c s]; simpl in H.
    + destruct (has Unix decorations), (has Windows decorations); exact I.
    + apply orb_false_iff in H as [Hdot H]. apply orb_false_iff in H as [Hsl _].
      assert (Nd : c <> "."%char) by (intros ->; discriminate).
      assert (Ns : c <> "/"%char) by (intros ->; discriminate).
      destruct (has Unix decorations); simpl.
      * split; [|discriminate]. destruct (chr_eqb c "\"); [discriminate | exact Nd].
      * destruct (has Windows decorations); simpl.
        -- rewrite Hsl. auto.
        -- auto.
  - intros -> ->.
    destruct (has Windows decorations), (has Unix decorations); simpl; eauto.
Qed.

(** X7, witness. *)
Lemma leader_decorations_fix_the_start_witness :
  (exists rest,
     apply_decorations (lit "src/a.py") [RelLeader; Windows] = "."%char :: "\"%char :: rest) /\
  match apply_decorations (lit "./.hidden/a.py") [NoLeader; Unix] with
  | [] => True
  | c :: _ => c <> "."%char /\ (has Unix [NoLeader; Unix] = false -> c <> "/"%char)
  end.
Proof.
  split.
  - exact (proj2 (leader_decorations_fix_the_start (lit "src/a.py") [RelLeader; Windows])
             eq_refl eq_refl).
  - exact (proj1 (leader_decorations_fix_the_start (lit "./.hidden/a.py") [NoLeader; Unix])
             eq_refl).
Defined.

(** ** The walker, continued *)

Lemma length_first_last (files : list str) : length (first_last files) <= 2.
Proof.
  unfold first_last. destruct (1 <? length files)%nat eqn:E; [simpl; lia|].
  apply Nat.ltb_ge in E. lia.
Qed.

Lemma keys_dict_set_mono (k : str) (v : list str) (d : dict) (x : str) :
  In x (keys d) -> In x (keys (dict_set k v d)).
Proof.
  intros H. destruct (in_dec (list_eq_dec ascii_dec) k (keys d)) as [I|I].
  - now rewrite keys_dict_set_in.
  - rewrite keys_dict_set_new, keys_app by exact I. apply in_or_app. now left.
Qed.

Lemma keys_dict_set_self (k : str) (v : list str) (d : dict) :
  In k (keys (dict_set k v d)).
Proof.
  apply dict_in_keys. unfold dict_in. now rewrite dict_get_set_same.
Qed.

Lemma keys_setdefault_mono (k : str) (d : dict) (x : str) :
  In x (keys d) -> In x (keys (dict_setdefault k d)).
Proof.
  unfold dict_setdefault. destruct (dict_in k d); [auto|].
  intros H. rewrite keys_app. apply in_or_app. now left.
Qed.

Lemma keys_setdefault_self (k : str) (d : dict) : In k (keys (dict_setdefault k d)).
Proof.
  unfold dict_setdefault. destruct (dict_in k d) eqn:E.
  - now apply dict_in_keys.
  - rewrite keys_app. apply in_or_app. right. now left.
Qed.

Lemma keys_extend_mono (k : str) (vs : list str) (d : dict) (x : str) :
  In x (keys d) -> In x (keys (dict_extend k vs d)).
Proof.
  unfold dict_extend. destruct (dict_get k d); [apply keys_dict_set_mono|].
  intros H. rewrite keys_app. apply in_or_app. now left.
Qed.

Lemma keys_extend_self (k : str) (vs : list str) (d : dict) :
  In k (keys (dict_extend k vs d)).
Proof.
  unfold dict_extend. destruct (dict_get k d); [apply keys_dict_set_self|].
  rewrite keys_app. apply in_or_app. right. now left.
Qed.

Section WalkerMore.
Context {OS : OsPath}.

Variable patterns : list str.
Variable sort_by : sort_mode.
Variable collect : collect_strategy.
Variable max_depth : option Z.
Variable prune : option Z.

Lemma keys_visit_mono (root : str) (depth : nat) (sds fl : list str) (d : dict)
    (x : str) :
  In x (keys d) ->
  In x (keys (fst (visit collect max_depth prune root depth sds fl d))).
Proof.
  intros H. unfold visit.
  destruct (on_visit_directory _ _ _ _ _ _), collect; simpl;
    auto using keys_dict_set_mono, keys_setdefault_mono, keys_extend_mono.
Qed.

Lemma keys_visit_root (root : str) (depth : nat) (sds fl : list str) (d : dict) :
  In root (keys (fst (visit collect max_depth prune root depth sds fl d))).
Proof.
  unfold visit.
  destruct (on_visit_directory _ _ _ _ _ _), collect; simpl;
    auto using keys_dict_set_self, keys_setdefault_self, keys_extend_self.
Qed.

Lemma keys_recurse_dir_mono (n : node) (root : str) (depth : nat) (d : dict)
    (x : str) :
  In x (keys d) ->
  In x (keys (recurse_dir patterns sort_by collect max_depth prune n root depth d)).
Proof.
  apply (recurse_dir_invariant _ _ _ _ _ (fun _ _ _ => True)
           (fun d => In x (keys d))); auto.
  intros. now apply keys_visit_mono.
Qed.

Lemma walk_entries_exist (fs : node) (start k : str) (fl : list str) :
  In (k, fl) (recurse_dir patterns sort_by collect max_depth prune fs start 0 []) ->
  (exists depth t entries, node_at fs start depth k (Dir t true entries)) /\
  forall f, In f fl ->
    exists depth t entries e t',
      node_at fs start depth k (Dir t true entries) /\
      In (e, File t') entries /\ f = join k e.
Proof.
  revert k fl.
  apply (recurse_dir_invariant _ _ _ _ _
           (fun root depth n => node_at fs start depth root n)
           (fun d => forall k fl, In (k, fl) d ->
              (exists depth t entries, node_at fs start depth k (Dir t true entries)) /\
              forall f, In f fl ->
                exists depth t entries e t',
                  node_at fs start depth k (Dir t true entries) /\
                  In (e, File t') entries /\ f = join k e)).
  - intros root depth t entries d HQ HI k fl H.
    apply in_visit in H as [H|[-> H]]; [now apply HI|].
    split; [eauto|]. intros f Hf.
    destruct (H f Hf) as [Hin|(fl0 & Hin & Hf0)].
    + apply in_files_of in Hin as (e & c & Hec & Hd & -> & _).
      destruct c as [t'|]; [|discriminate]. eauto 10.
    + now apply (proj2 (HI root fl0 Hin)).
  - intros root depth t entries d e c HQ Hin _. eapply at_child; eassumption.
  - constructor.
  - intros k fl [].
Qed.

End WalkerMore.

(** X8: the walker records only what the tree holds: every key of its
    map is a directory of the tree that can be listed, and every file of
    its list is an entry of that directory that is not a directory. *)
Theorem walk_records_what_exists {OS : OsPath} (fs : node) (start : str)
    (exclude_patterns : option (list str)) (sort_by : sort_mode)
    (collect : collect_strategy)
    (collect_limit collect_limit_min max_depth prune : option Z)
    (k : str) (fl : list str)
    (Hin : In (k, fl)
             (walk_directories fs start exclude_patterns sort_by collect collect_limit
                collect_limit_min max_depth prune)) :
  (exists depth t entries, node_at fs start depth k (Dir t true entries)) /\
  forall f, In f fl ->
    exists depth t entries e t',
      node_at fs start depth k (Dir t true entries) /\
      In (e, File t') entries /\ f = join k e.
Proof. now apply walk_entries_exist in Hin. Qed.

(** X8, witness: the entry of [/d/one] in [two_levels]. *)
Lemma walk_records_what_exists_witness :
  (exists depth t entries,
     node_at (OS := linux) two_levels (lit "/d") depth (lit "/d/one") (Dir t true entries)) /\
  forall f, In f [lit "/d/one/a.txt"; lit "/d/one/b.txt"] ->
    exists depth t entries e t',
      node_at (OS := linux) two_levels (lit "/d") depth (lit "/d/one")
        (Dir t true entries) /\
      In (e, File t') entries /\ f = join (OsPath := linux) (lit "/d/one") e.
Proof.
  apply (@walk_records_what_exists linux two_levels (lit "/d") None IName All None None
           None None).
  vm_compute. tauto.
Defined.

(** X9: under [dirs-only] every list of the walker's map is empty, and
    under [dirs-1st-last-file] no list has more than two files. *)
Theorem strategies_bound_the_lists {OS : OsPath} (fs : node) (start : str)
    (exclude_patterns : option (list str)) (sort_by : sort_mode)
    (collect_limit collect_limit_min max_depth prune : option Z) :
  (forall k fl,
     In (k, fl)
       (walk_directories fs start exclude_patterns sort_by DirsOnly collect_limit
          collect_limit_min max_depth prune) ->
     fl = []) /\
  (forall k fl,
     In (k, fl)
       (walk_directories fs start exclude_patterns sort_by Dirs1stLastFile
          collect_limit collect_limit_min max_depth prune) ->
     length fl <= 2).
Proof.
  unfold walk_directories. split.
  - apply (recurse_dir_invariant _ _ _ _ _ (fun _ _ _ => True)
             (fun d => forall k fl, In (k, fl) d -> fl = [])); auto.
    + intros root depth t entries d _ HI k fl. unfold visit.
      destruct (on_visit_directory _ _ _ _ _ _); simpl; intros H;
        apply in_setdefault in H as [[_ ->]|H]; eauto.
    + intros k fl [].
  - apply (recurse_dir_invariant _ _ _ _ _ (fun _ _ _ => True)
             (fun d => forall k fl, In (k, fl) d -> length fl <= 2)); auto.
    + intros root depth t entries d _ HI k fl. unfold visit.
      destruct (on_visit_directory _ _ _ _ _ _); simpl; intros H;
        apply in_dict_set in H as [[_ ->]|H]; try apply length_first_last;
        apply in_setdefault in H as [[_ ->]|H]; simpl; eauto.
    + intros k fl [].
Qed.

Section Completeness.
Context {OS : OsPath}.

Variable patterns : list str.
Variable sort_by : sort_mode.
Variable collect : collect_strategy.
Variable max_depth : option Z.

Lemma assoc_walk_table (root sd : str) (depth : nat) (entries : list (str * node)) :
  assoc sd
    (map (fun '(e, c) =>
            (join root e,
             recurse_dir patterns sort_by collect max_depth None c (join root e)
               (S depth)))
       entries)
  = match assoc sd (map (fun '(e, c) => (join root e, c)) entries) with
    | Some c => Some (recurse_dir patterns sort_by collect max_depth None c sd (S depth))
    | None => None
    end.
Proof.
  induction entries as [|[e c'] entries IH]; simpl; [reflexivity|].
  destruct (str_eqb (join root e) sd) eqn:E; [|exact IH].
  apply str_eqb_eq in E. now subst sd.
Qed.

Lemma fold_reaches (step : dict -> str -> dict) (p sd : str) (sds : list str)
    (d : dict) :
  In sd sds ->
  (forall d, In p (keys (step d sd))) ->
  (forall d x, In p (keys d) -> In p (keys (step d x))) ->
  In p (keys (fold_left step sds d)).
Proof.
  intros Hin Hsd Hmono. revert d.
  induction sds as [|x sds IH]; intros d; [contradiction|]. simpl.
  destruct Hin as [->|Hin]; [|now apply IH].
  clear IH. generalize (Hsd d). generalize (step d sd). clear d.
  induction sds as [|y sds IH]; intros d Hd; simpl; [exact Hd|].
  apply IH. now apply Hmono.
Qed.

Lemma listed_is_recorded (n : node) (root : str) (depth : nat) (p : str) :
  listed patterns n root depth p ->
  forall d0 d,
    (forall md, max_depth = Some md -> (Z.of_nat (d0 + depth) <= md)%Z) ->
    In p (keys (recurse_dir patterns sort_by collect max_depth None n root d0 d)).
Proof.
  induction 1 as [t entries root|t entries root e c depth p Hc Hex Hl IH];
    intros d0 d Hmd.
  - cbn [recurse_dir].
    pose proof (keys_visit_root collect max_depth None root d0
                  (subdirs_of patterns sort_by root entries)
                  (files_of patterns sort_by root entries) d) as Hroot.
    destruct (visit _ _ _ _ _ _ _ _) as [d' sds]. simpl in Hroot.
    revert d' Hroot. induction sds as [|sd sds IHs]; intros d' Hroot; simpl;
      [exact Hroot|].
    apply IHs. destruct (assoc sd _) as [w|] eqn:E; [|exact Hroot].
    apply assoc_walks in E as (e & c & _ & _ & ->).
    now apply keys_recurse_dir_mono.
  - cbn [recurse_dir].
    assert (Hdir : isdir c = true) by (destruct Hl; reflexivity).
    assert (Hsd : In (join root e) (subdirs_of patterns sort_by root entries)).
    { apply in_subdirs_of. apply assoc_in in Hc.
      apply in_map_iff in Hc as ([e' c'] & [= Hp <-] & Hin).
      exists e', c'. rewrite Hp. auto. }
    assert (Hact : snd (visit collect max_depth None root d0
                          (subdirs_of patterns sort_by root entries)
                          (files_of patterns sort_by root entries) d)
                   = subdirs_of patterns sort_by root entries).
    { unfold visit, on_visit_directory.
      destruct max_depth as [md|]; [|reflexivity].
      specialize (Hmd md eq_refl).
      replace (md <=? Z.of_nat d0)%Z with false
        by (symmetry; apply Z.leb_gt; lia).
      reflexivity. }
    destruct (visit _ _ _ _ _ _ _ _) as [d' sds]. simpl in Hact. subst sds.
    apply (fold_reaches _ p (join root e)); [exact Hsd | |].
    + intros d1. rewrite (assoc_walk_table root _ d0 entries), Hc.
      apply IH. intros md Hm. specialize (Hmd md Hm). lia.
    + intros d1 x Hp. destruct (assoc x _) as [w|] eqn:E; [|exact Hp].
      apply assoc_walks in E as (e1 & c1 & _ & _ & ->).
      now apply keys_recurse_dir_mono.
Qed.

End Completeness.

(** X10: without pruning the walker misses no directory: every directory
    that can be listed, reached from the start directory through
    directories that can be listed and that no pattern excludes, and not
    deeper than [max_depth] when it is set, is a key of the map, under
    every collection strategy. *)
Theorem walk_misses_no_directory {OS : OsPath} (fs : node) (start : str)
    (exclude_patterns : option (list str)) (sort_by : sort_mode)
    (collect : collect_strategy) (collect_limit collect_limit_min max_depth : option Z)
    (depth : nat) (p : str)
    (Hlisted : listed (or_empty exclude_patterns) fs start depth p)
    (Hdepth : forall md, max_depth = Some md -> (Z.of_nat depth <= md)%Z) :
  In p (keys (walk_directories fs start exclude_patterns sort_by collect collect_limit
                collect_limit_min max_depth None)).
Proof.
  unfold walk_directories. now apply (listed_is_recorded _ _ _ _ fs start depth p).
Qed.

(** X10, witness: [/d/one/two] in [two_levels], two levels down with
    [max_depth = 2]. *)
Lemma walk_misses_no_directory_witness :
  In (lit "/d/one/two")
    (keys (walk_directories (OS := linux) two_levels (lit "/d") (Some [lit "*.tmp"])
             IName FilesOnlyC None None (Some 2%Z) None)).
Proof.
  apply (@walk_misses_no_directory linux two_levels (lit "/d") (Some [lit "*.tmp"]) IName
           FilesOnlyC None None (Some 2%Z) 2 (lit "/d/one/two")).
  - unfold two_levels.
    eapply (@listed_below linux _ _ _ (lit "/d") (lit "one"));
      [reflexivity | reflexivity |].
    eapply (@listed_below linux _ _ _ (lit "/d/one") (lit "two"));
      [reflexivity | reflexivity |].
    apply (@listed_here linux).
  - intros md [= <-]. simpl. lia.
Defined.

(** ** Secondary truncation, continued *)

Lemma NoDup_app_disjoint (A : Type) (l l' : list A) (x : A) :
  NoDup (l ++ l') -> In x l -> In x l' -> False.
Proof.
  induction l as [|a l IH]; simpl; [tauto|].
  intros H [->|Hin] Hx.
  - apply NoDup_cons_iff in H as [H _]. apply H, in_or_app. now right.
  - apply NoDup_cons_iff in H as [_ H]. now apply IH.
Qed.

Lemma nth_in_firstn (A : Type) (i h : nat) (l : list A) (d : A) :
  i < h -> i < length l -> In (nth i l d) (firstn h l).
Proof.
  revert h l. induction i as [|i IH]; intros [|h] [|a l]; simpl; try lia.
  - now left.
  - intros Hh Hl. right. apply IH; lia.
Qed.

Lemma nth_in_skipn (A : Type) (i : nat) (l : list A) (d : A) :
  i < length l -> In (nth i l d) (skipn i l).
Proof.
  revert l. induction i as [|i IH]; intros [|a l]; simpl; try lia.
  - now left.
  - intros Hl. apply IH. lia.
Qed.

Lemma ends_length (h : nat) (fl : list str) :
  length (ends h fl) = 2 * Nat.min h (length fl).
Proof. unfold ends. rewrite length_app, length_firstn, length_skipn. lia. Qed.

Lemma ends_cuts_the_middle (h : nat) (fl : list str) :
  2 * h <= length fl ->
  exists middle, fl = firstn h fl ++ middle ++ skipn (length fl - h) fl.
Proof.
  intros H. exists (firstn (length fl - 2 * h) (skipn h fl)).
  rewrite <- (firstn_skipn h fl) at 1. f_equal.
  rewrite <- (firstn_skipn (length fl - 2 * h) (skipn h fl)) at 1. f_equal.
  rewrite skipn_skipn. f_equal. lia.
Qed.

Lemma ends_repeats (h : nat) (fl : list str) :
  0 < h -> 0 < length fl -> length fl < 2 * h -> ~ NoDup (ends h fl).
Proof.
  intros Hh Hn Hlt ND. unfold ends in ND.
  apply (NoDup_app_disjoint _ _ _ (nth (length fl - h) fl []) ND).
  - apply nth_in_firstn; lia.
  - apply nth_in_skipn. lia.
Qed.

(** X11: a list of [n] files the secondary truncation cuts is replaced by
    a list of [2 * min(h, n)] entries.  When [2h <= n] it is the list with
    its middle part removed, the order kept; when [n < 2h] the two slices
    overlap: the result holds a file twice (and is longer than the list it
    replaces). *)
Theorem truncation_length_and_overlap {OS : OsPath} (fs : node) (start : str)
    (sort_by : sort_mode) (exclude_patterns : option (list str)) (limit : Z)
    (limit_min max_depth prune : option Z) (k : str) (fl : list str)
    (Hlimit : limit <> 0%Z)
    (Hin : In (k, fl)
             (walk_directories fs start exclude_patterns sort_by All (Some limit)
                limit_min max_depth prune))
    (Hover : (limit < Z.of_nat (length fl))%Z) :
  let h :=
    Z.to_nat (Z.max 1 (match limit_min with Some m => m | None => 2 end / 2)) in
  exists fl',
    In (k, fl')
      (collect_raw fs start All sort_by exclude_patterns (Some limit) limit_min
         max_depth prune) /\
    length fl' = 2 * Nat.min h (length fl) /\
    (2 * h <= length fl ->
     exists first middle last, fl = first ++ middle ++ last /\ fl' = first ++ last) /\
    (0 < length fl -> length fl < 2 * h -> ~ NoDup fl').
Proof.
  intros h. exists (ends h fl).
  assert (Hh : 0 < h) by (subst h; lia).
  split; [|split; [apply ends_length | split]].
  - unfold collect_raw.
    replace (limit =? 0)%Z with false by (symmetry; now apply Z.eqb_neq).
    rewrite truncate_as_map by apply NoDup_keys_walk.
    apply in_map_iff. exists (k, fl). split; [|exact Hin].
    unfold truncated.
    replace (limit <? Z.of_nat (length fl))%Z with true
      by (symmetry; now apply Z.ltb_lt).
    now rewrite half_formula.
  - intros H2. destruct (ends_cuts_the_middle h fl H2) as [middle E].
    exists (firstn h fl), middle, (skipn (length fl - h) fl). auto.
  - intros Hn Hlt. now apply ends_repeats.
Qed.

(** X11, witness: with limit 2 and minimum 10 the three files of [/d]
    become six entries. *)
Lemma truncation_length_and_overlap_witness :
  exists fl',
    In (lit "/d", fl')
      (collect_raw (OS := linux) three_files (lit "/d") All IName None (Some 2%Z)
         (Some 10%Z) None None) /\
    length fl' = 2 * Nat.min 5 3 /\
    (2 * 5 <= 3 ->
     exists first middle last,
       [lit "/d/a"; lit "/d/b"; lit "/d/c"] = first ++ middle ++ last /\
       fl' = first ++ last) /\
    (0 < 3 -> 3 < 2 * 5 -> ~ NoDup fl').
Proof.
  apply (@truncation_length_and_overlap linux three_files (lit "/d") IName None 2%Z
           (Some 10%Z) None None (lit "/d") [lit "/d/a"; lit "/d/b"; lit "/d/c"]).
  - discriminate.
  - now left.
  - reflexivity.
Defined.

(** ** The path adjuster, continued *)

Section AdjustMore.
Context {OS : OsPath}.

Variable start : str.
Variable style : path_style.
Variable decorations : list decoration.
Variable strict_rel : bool.
Variable base_label : option str.

Local Abbreviation adjust_one' := (adjust_file start style decorations strict_rel base_label).
Local Abbreviation adjust_list' := (adjust_files start style decorations strict_rel base_label).
Local Abbreviation adjust_key' := (adjust_dir start style decorations strict_rel base_label).
Local Abbreviation adjust_all' := (adjust_loop start style decorations strict_rel base_label).

(** Entries whose key is rendered otherwise leave the entry of [key] as it
    is. *)
Lemma adjust_loop_get_other (items acc adj : dict) (key : str) :
  adjust_all' items acc = Ok adj ->
  (forall k fl, In (k, fl) items -> adjust_key' k <> Ok key) ->
  dict_get key adj = dict_get key acc.
Proof.
  revert acc. induction items as [|[k fl] items IH]; cbn [adjust_loop]; intros acc H Hno.
  - now injection H as <-.
  - destruct (adjust_list' fl) as [fl'|m]; [|discriminate]. cbn [bind] in H.
    destruct (adjust_key' k) as [k'|m] eqn:E; [|discriminate]. cbn [bind] in H.
    rewrite (IH _ H) by (intros k0 fl0 Hin; apply (Hno k0 fl0); now right).
    apply dict_get_set_other. intros ->. apply (Hno k fl); [now left | exact E].
Qed.

Lemma adjust_loop_get_last (pre post acc adj : dict) (k : str) (fl : list str)
    (key : str) :
  adjust_all' (pre ++ (k, fl) :: post) acc = Ok adj ->
  adjust_key' k = Ok key ->
  (forall k' fl', In (k', fl') post -> adjust_key' k' <> Ok key) ->
  exists fl', adjust_list' fl = Ok fl' /\ dict_get key adj = Some fl'.
Proof.
  revert acc. induction pre as [|[k0 fl0] pre IH]; intros acc H Hk Hno.
  - cbn [app adjust_loop] in H.
    destruct (adjust_list' fl) as [fl'|m]; [|discriminate]. cbn [bind] in H.
    rewrite Hk in H. cbn [bind] in H.
    exists fl'. split; [reflexivity|].
    rewrite (adjust_loop_get_other _ _ _ _ H Hno). apply dict_get_set_same.
  - rewrite <- app_comm_cons in H. cbn [adjust_loop] in H.
    destruct (adjust_list' fl0) as [fl0'|m]; [|discriminate]. cbn [bind] in H.
    destruct (adjust_key' k0) as [k0'|m]; [|discriminate]. cbn [bind] in H.
    exact (IH _ H Hk Hno).
Qed.

Lemma adjust_loop_keys_in (items acc adj : dict) (key : str) :
  adjust_all' items acc = Ok adj ->
  (In key (keys adj) <->
   In key (keys acc) \/ exists k, In k (keys items) /\ adjust_key' k = Ok key).
Proof.
  revert acc. induction items as [|[k fl] items IH]; cbn [adjust_loop]; intros acc H.
  - injection H as <-. split; [now left|]. now intros [H|(k & [] & _)].
  - destruct (adjust_list' fl) as [fl'|m]; [|discriminate]. cbn [bind] in H.
    destruct (adjust_key' k) as [k'|m] eqn:E; [|discriminate]. cbn [bind] in H.
    rewrite (IH _ H). split.
    + intros [Hin|(k0 & Hin & Hk0)].
      * destruct (list_eq_dec ascii_dec key k') as [->|Hne].
        -- right. exists k. split; [now left | exact E].
        -- left. unfold keys in Hin. apply in_map_iff in Hin as ([k1 v1] & <- & Hin).
           apply in_dict_set in Hin as [[-> _]|Hin]; [now elim Hne|].
           apply in_map_iff. now exists (k1, v1).
      * right. exists k0. split; [now right | exact Hk0].
    + intros [Hin|(k0 & [<-|Hin] & Hk0)].
      * left. now apply keys_dict_set_mono.
      * left. cbn [fst] in Hk0. rewrite E in Hk0. injection Hk0 as <-.
        apply keys_dict_set_self.
      * right. now exists k0.
Qed.

Lemma adjust_loop_NoDup (items acc adj : dict) :
  adjust_all' items acc = Ok adj -> NoDup (keys acc) -> NoDup (keys adj).
Proof.
  revert acc. induction items as [|[k fl] items IH]; cbn [adjust_loop]; intros acc H ND.
  - now injection H as <-.
  - destruct (adjust_list' fl) as [fl'|m]; [|discriminate]. cbn [bind] in H.
    destruct (adjust_key' k) as [k'|m] eqn:E; [|discriminate]. cbn [bind] in H.
    apply (IH _ H). now apply NoDup_keys_dict_set.
Qed.

Lemma length_dict_set (k : str) (v : list str) (d : dict) :
  length (dict_set k v d) <= S (length d).
Proof.
  induction d as [|[k' v'] d IH]; simpl; [lia|].
  destruct (str_eqb k' k); simpl; lia.
Qed.

Lemma adjust_loop_length (items acc adj : dict) :
  adjust_all' items acc = Ok adj -> length adj <= length acc + length items.
Proof.
  revert acc. induction items as [|[k fl] items IH]; cbn [adjust_loop]; intros acc H.
  - injection H as <-. simpl. lia.
  - destruct (adjust_list' fl) as [fl'|m]; [|discriminate]. cbn [bind] in H.
    destruct (adjust_key' k) as [k'|m] eqn:E; [|discriminate]. cbn [bind] in H.
    apply IH in H. pose proof (length_dict_set k' fl' acc). simpl. lia.
Qed.

End AdjustMore.

(** X12: when two directories are rendered to the same key the later one
    wins: in the dictionary [adjust_paths] returns, a key holds the adjusted
    files of the last entry rendered to it; the files of the earlier
    entries rendered to that key are not kept. *)
Theorem last_directory_of_a_key_wins {OS : OsPath} (before after : dict) (k : str)
    (fl : list str) (start : str) (style : path_style) (decorations : list decoration)
    (collect : collect_strategy) (strict_rel : bool) (base_label : option str)
    (adjusted : dict) (key : str)
    (Hreturns :
      adjust_paths (before ++ (k, fl) :: after) start style decorations collect
        strict_rel base_label = Ok adjusted)
    (Hkey : adjust_dir start style decorations strict_rel base_label k = Ok key)
    (Hlast : forall k' fl', In (k', fl') after ->
       adjust_dir start style decorations strict_rel base_label k' <> Ok key) :
  exists fl',
    adjust_files start style decorations strict_rel base_label fl = Ok fl' /\
    dict_get key adjusted = Some fl' /\
    forall fl'', In (key, fl'') adjusted -> fl'' = fl'.
Proof.
  unfold adjust_paths in Hreturns.
  destruct (adjust_loop_get_last _ _ _ _ _ _ _ _ _ _ _ _ Hreturns Hkey Hlast)
    as (fl' & Hfl & Hget).
  exists fl'. split; [exact Hfl|]. split; [exact Hget|].
  intros fl'' Hin.
  assert (ND : NoDup (keys adjusted))
    by (apply (adjust_loop_NoDup _ _ _ _ _ _ _ _ Hreturns); constructor).
  apply assoc_in in Hget. clear - Hin Hget ND.
  induction adjusted as [|[k0 v0] d IH]; [contradiction|].
  simpl in ND. apply NoDup_cons_iff in ND as [Hnot ND].
  destruct Hin as [Hin|Hin], Hget as [Hget|Hget].
  - congruence.
  - injection Hin as -> ->. elim Hnot. apply in_map_iff. now exists (key, fl').
  - injection Hget as -> ->. elim Hnot. apply in_map_iff. now exists (key, fl'').
  - now apply IH.
Qed.

(** X12, witness: under [no-leader] the directories [.git] and [git] are
    both rendered to [git]; the files of [git], the later one, are kept. *)
Lemma last_directory_of_a_key_wins_witness :
  exists fl',
    adjust_files (OS := linux) (lit "/d") Rel [NoLeader] false None [lit "/d/git/b"]
    = Ok fl' /\
    dict_get (lit "git")
      match
        adjust_paths (OS := linux)
          ([(lit "/d/.git", [lit "/d/.git/a"])] ++ (lit "/d/git", [lit "/d/git/b"]) :: [])
          (lit "/d") Rel [NoLeader] All false None
      with Ok adjusted => adjusted | ValueError _ => [] end
    = Some fl' /\
    forall fl'',
      In (lit "git", fl'')
        match
          adjust_paths (OS := linux)
            ([(lit "/d/.git", [lit "/d/.git/a"])] ++ (lit "/d/git", [lit "/d/git/b"]) :: [])
            (lit "/d") Rel [NoLeader] All false None
        with Ok adjusted => adjusted | ValueError _ => [] end ->
      fl'' = fl'.
Proof.
  apply (@last_directory_of_a_key_wins linux [(lit "/d/.git", [lit "/d/.git/a"])] []
           (lit "/d/git") [lit "/d/git/b"] (lit "/d") Rel [NoLeader] All false None).
  - reflexivity.
  - reflexivity.
  - intros k' fl' [].
Defined.

(** X13: the dictionary [adjust_paths] returns has one entry per rendered
    key: its keys are exactly the rendered keys of the input's keys, no key
    occurs twice, and it has at most as many entries as the input. *)
Theorem adjusted_keys_are_the_rendered_keys {OS : OsPath} (collected : dict)
    (start : str) (style : path_style) (decorations : list decoration)
    (collect : collect_strategy) (strict_rel : bool) (base_label : option str)
    (adjusted : dict)
    (Hreturns :
      adjust_paths collected start style decorations collect strict_rel base_label
      = Ok adjusted) :
  (forall key,
     In key (keys adjusted) <->
     exists k, In k (keys collected) /\
       adjust_dir start style decorations strict_rel base_label k = Ok key) /\
  NoDup (keys adjusted) /\
  length adjusted <= length collected.
Proof.
  unfold adjust_paths in Hreturns. split; [|split].
  - intros key. rewrite (adjust_loop_keys_in _ _ _ _ _ _ _ _ key Hreturns).
    simpl. tauto.
  - apply (adjust_loop_NoDup _ _ _ _ _ _ _ _ Hreturns). constructor.
  - apply adjust_loop_length in Hreturns. simpl in Hreturns. exact Hreturns.
Qed.

(** X13, witness: the two directories [.git] and [git] give one entry. *)
Lemma adjusted_keys_are_the_rendered_keys_witness :
  (forall key,
     In key (keys [(lit "git", [lit "git/b"])]) <->
     exists k, In k (keys [(lit "/d/.git", [lit "/d/.git/a"]);
                           (lit "/d/git", [lit "/d/git/b"])]) /\
       adjust_dir (OS := linux) (lit "/d") Rel [NoLeader] false None k = Ok key) /\
  NoDup (keys [(lit "git", [lit "git/b"])]) /\
  length [(lit "git", [lit "git/b"])]
  <= length [(lit "/d/.git", [lit "/d/.git/a"]); (lit "/d/git", [lit "/d/git/b"])].
Proof.
  apply (@adjusted_keys_are_the_rendered_keys linux
           [(lit "/d/.git", [lit "/d/.git/a"]); (lit "/d/git", [lit "/d/git/b"])]
           (lit "/d") Rel [NoLeader] All false None [(lit "git", [lit "git/b"])]).
  reflexivity.
Defined.

Section AbsoluteStyles.
Context {OS : OsPath}.

Variable start : str.
Variable style : path_style.
Variable decorations : list decoration.
Variable strict_rel : bool.
Variable base_label : option str.
Hypothesis Hstyle : is_rel style = false.

(** What the styles [full] and [files-only] do to a file path. *)
Local Abbreviation absolute_file :=
  (fun f => match style with FilesOnlyP => basename (abspath f) | _ => abspath f end).

Lemma adjust_file_absolute (f : str) :
  adjust_file start style decorations strict_rel base_label f = Ok (absolute_file f).
Proof.
  unfold adjust_file. rewrite Hstyle, andb_false_r. simpl.
  destruct style; try discriminate; reflexivity.
Qed.

Lemma adjust_files_absolute (fl : list str) :
  adjust_files start style decorations strict_rel base_label fl
  = Ok (map absolute_file fl).
Proof.
  induction fl as [|f fl IH]; cbn [adjust_files]; [reflexivity|].
  now rewrite adjust_file_absolute, IH.
Qed.

Lemma adjust_dir_absolute (k : str) :
  adjust_dir start style decorations strict_rel base_label k = Ok (abspath k).
Proof.
  unfold adjust_dir. destruct style; try discriminate; try reflexivity.
  now rewrite andb_false_r.
Qed.

Lemma adjust_loop_absolute (items acc : dict) :
  adjust_loop start style decorations strict_rel base_label items acc
  = Ok (fold_left
          (fun adjusted '(k, fl) => dict_set (abspath k) (map absolute_file fl) adjusted)
          items acc).
Proof.
  revert acc. induction items as [|[k fl] items IH]; intros acc; cbn [adjust_loop];
    [reflexivity|].
  rewrite adjust_files_absolute, adjust_dir_absolute. cbn [bind]. apply IH.
Qed.

End AbsoluteStyles.

(** X14: under the styles [full] and [files-only] the adjuster never
    raises and ignores the decorations, [strict_rel] and the base label:
    every entry it returns has the absolute path of a collected directory
    as its key, and as its files the absolute paths ([full]) or the
    basenames ([files-only]) of that directory's files, undecorated. *)
Theorem absolute_styles_ignore_the_options {OS : OsPath} (collected : dict)
    (start : str) (style : path_style) (decorations : list decoration)
    (collect : collect_strategy) (strict_rel : bool) (base_label : option str)
    (Hstyle : style = Full \/ style = FilesOnlyP) :
  exists adjusted,
    adjust_paths collected start style decorations collect strict_rel base_label
    = Ok adjusted /\
    (forall decorations' strict_rel' base_label',
       adjust_paths collected start style decorations' collect strict_rel' base_label'
       = Ok adjusted) /\
    forall key fl', In (key, fl') adjusted ->
      exists k fl,
        In (k, fl) collected /\ key = abspath k /\
        fl' = map (fun f => match style with
                            | FilesOnlyP => basename (abspath f)
                            | _ => abspath f
                            end) fl.
Proof.
  assert (Hrel : is_rel style = false) by (now destruct Hstyle as [->| ->]).
  unfold adjust_paths. eexists. split; [|split].
  - now apply adjust_loop_absolute.
  - intros d' s' l'. now apply adjust_loop_absolute.
  - intros key fl' Hin.
    pose proof (adjust_loop_absolute start style decorations strict_rel base_label
                  Hrel collected []) as E.
    destruct (adjust_loop_entries _ _ _ _ _ _ _ _ _ _ E Hin)
      as [[]|(k & fl & Hc & Hk & Hf)].
    rewrite adjust_dir_absolute in Hk by exact Hrel.
    rewrite adjust_files_absolute in Hf by exact Hrel.
    exists k, fl. split; [exact Hc|]. split; congruence.
Qed.

(** X14, witness: style [files-only] with the decoration [windows] and
    [strict_rel] on a cross-drive entry. *)
Lemma absolute_styles_ignore_the_options_witness :
  exists adjusted,
    adjust_paths (OS := win) [(lit "D:\a/b", [lit "D:\a/b\f.txt"])] (lit "C:\s")
      FilesOnlyP [Windows] All true None
    = Ok adjusted /\
    (forall decorations' strict_rel' base_label',
       adjust_paths (OS := win) [(lit "D:\a/b", [lit "D:\a/b\f.txt"])] (lit "C:\s")
         FilesOnlyP decorations' All strict_rel' base_label'
       = Ok adjusted) /\
    forall key fl', In (key, fl') adjusted ->
      exists k fl,
        In (k, fl) [(lit "D:\a/b", [lit "D:\a/b\f.txt"])] /\
        key = abspath (OsPath := win) k /\
        fl' = map (fun f => basename (OsPath := win) (abspath (OsPath := win) f)) fl.
Proof.
  apply (@absolute_styles_ignore_the_options win [(lit "D:\a/b", [lit "D:\a/b\f.txt"])]
           (lit "C:\s") FilesOnlyP [Windows] All true None).
  now right.
Defined.

Section PosixFull.
Variable cwd : str.
Variable comps : list str.
Hypothesis Hcomps : Forall (fun e => valid_name e = true) comps.

(** In a tree of valid names every node is found at the start path
    extended by valid names. *)
Lemma node_at_under (fs : node) (depth : nat) (p : str) (n : node) :
  names_ok valid_name fs = true ->
  node_at (OS := posix cwd) fs (abs_of comps) depth p n ->
  names_ok valid_name n = true /\
  exists names,
    p = abs_of (comps ++ names) /\ Forall (fun e => valid_name e = true) names.
Proof.
  intros Hv H. induction H as [|depth p e t r entries c H [IHv (names & -> & Hn)] Hin].
  - split; [exact Hv|]. exists []. now rewrite app_nil_r.
  - destruct (names_ok_dir _ _ _ _ _ _ IHv Hin) as [He Hc].
    split; [exact Hc|]. exists (names ++ [e]). split.
    + rewrite app_assoc. apply join_abs_of; [|exact He]. apply Forall_app. auto.
    + apply Forall_app. auto.
Qed.

Lemma adjust_loop_identity (style : path_style) (decorations : list decoration)
    (strict_rel : bool) (base_label : option str) (start : str) (items acc : dict) :
  NoDup (keys acc ++ keys items) ->
  (forall k fl, In (k, fl) items ->
     adjust_dir (OS := posix cwd) start style decorations strict_rel base_label k
     = Ok k /\
     adjust_files (OS := posix cwd) start style decorations strict_rel base_label fl
     = Ok fl) ->
  adjust_loop (OS := posix cwd) start style decorations strict_rel base_label items acc
  = Ok (acc ++ items).
Proof.
  revert acc. induction items as [|[k fl] items IH]; intros acc ND H; cbn [adjust_loop].
  - now rewrite app_nil_r.
  - destruct (H k fl (or_introl eq_refl)) as [-> ->]. cbn [bind].
    assert (Hnew : ~ In k (keys acc)).
    { simpl in ND. apply NoDup_remove_2 in ND. intros I. apply ND, in_or_app. now left. }
    rewrite keys_dict_set_new by exact Hnew.
    rewrite IH.
    + now rewrite <- app_assoc.
    + rewrite keys_app, <- app_assoc. exact ND.
    + intros k0 fl0 Hin. apply H. now right.
Qed.

Lemma map_abspath_identity (fl : list str) :
  (forall f, In f fl -> posixpath.abspath cwd f = f) ->
  map (posixpath.abspath cwd) fl = fl.
Proof.
  induction fl as [|f fl IH]; simpl; intros H; [reflexivity|].
  rewrite H by now left. f_equal. apply IH. auto.
Qed.

End PosixFull.

(** X15: on a POSIX tree of valid names walked from a normalised absolute
    start path, [collect_files] with path style [full] returns the
    walker's dictionary (after the secondary truncation) unchanged, in the
    same order, whatever the decorations, [strict_rel] and the base
    label. *)
Theorem full_style_returns_the_walk (cwd : str) (comps : list str) (fs : node)
    (exclude_patterns : option (list str)) (sort_by : sort_mode)
    (collect : collect_strategy)
    (collect_limit collect_limit_min max_depth prune : option Z)
    (decorations : list decoration) (strict_rel : bool) (base_label : option str)
    (Hstart : forallb valid_name comps = true)
    (Hvalid : names_ok valid_name fs = true) :
  collect_files (OS := posix cwd) fs (abs_of comps) Full collect sort_by decorations
    exclude_patterns collect_limit collect_limit_min strict_rel base_label
    max_depth prune
  = Ok (collect_raw (OS := posix cwd) fs (abs_of comps) collect sort_by
          exclude_patterns collect_limit collect_limit_min max_depth prune).
Proof.
  assert (Hcs : Forall (fun e => valid_name e = true) comps)
    by (apply Forall_forall; now apply forallb_forall).
  unfold collect_files, adjust_paths.
  rewrite (adjust_loop_identity cwd).
  - now rewrite app_nil_l.
  - rewrite app_nil_l, keys_collect_raw. apply NoDup_keys_walk.
  - intros k fl' Hin.
    apply in_collect_raw in Hin as (fl & Hin & Hincl).
    apply (walk_entries_exist (OS := posix cwd)) in Hin
      as [(depth & t & entries & Hat) Hfiles].
    destruct (node_at_under cwd comps Hcs fs depth k _ Hvalid Hat)
      as [_ (names & Ek & Hn)].
    subst k.
    rewrite adjust_dir_absolute by reflexivity.
    rewrite adjust_files_absolute by reflexivity.
    change (abspath (OsPath := posix cwd)) with (posixpath.abspath cwd).
    change (join (OsPath := posix cwd)) with posixpath.join in Hfiles.
    assert (Hall : Forall (fun e => valid_name e = true) (comps ++ names))
      by (apply Forall_app; auto).
    split.
    + now rewrite abspath_abs_of.
    + rewrite (map_abspath_identity cwd); [reflexivity|]. intros f Hf.
      destruct (Hfiles f (Hincl f Hf)) as (d' & t' & es & e & tf & Hat' & He & Ef).
      destruct (node_at_under cwd comps Hcs fs d' _ _ Hvalid Hat') as [Hes _].
      destruct (names_ok_dir _ _ _ _ _ _ Hes He) as [Hev _].
      rewrite Ef, join_abs_of by assumption.
      apply abspath_abs_of. apply Forall_app. auto.
Qed.

(** X15, witness: [two_levels] walked from [/d]. *)
Lemma full_style_returns_the_walk_witness :
  collect_files (OS := posix (lit "/")) two_levels (abs_of [lit "d"]) Full All IName
    [Unix; NoLeader] None None None true None None None
  = Ok (collect_raw (OS := posix (lit "/")) two_levels (abs_of [lit "d"]) All IName
          None None None None None).
Proof.
  apply (full_style_returns_the_walk (lit "/") [lit "d"] two_levels None IName All
           None None None None [Unix; NoLeader] true None).
  - reflexivity.
  - reflexivity.
Defined.

(** ** The tree builder, continued *)

Lemma assoc_upsert_same (p : str) (f : tree -> tree) (kids : list (str * tree)) :
  assoc p (upsert p f kids)
  = Some (f match assoc p kids with Some sub => sub | None => Node [] end).
Proof.
  induction kids as [|[q t] kids IH]; simpl.
  - now rewrite str_eqb_refl.
  - destruct (str_eqb q p) eqn:E; simpl; rewrite E; [reflexivity | exact IH].
Qed.

Lemma assoc_upsert_other (p x : str) (f : tree -> tree) (kids : list (str * tree)) :
  x <> p -> assoc x (upsert p f kids) = assoc x kids.
Proof.
  intros Hne. induction kids as [|[q t] kids IH]; simpl.
  - replace (str_eqb p x) with false; [reflexivity|].
    symmetry. apply str_eqb_neq. congruence.
  - destruct (str_eqb q p) eqn:E; simpl.
    + apply str_eqb_eq in E as ->.
      replace (str_eqb p x) with false; [reflexivity|].
      symmetry. apply str_eqb_neq. congruence.
    + now rewrite IH.
Qed.

Lemma has_path_leaf (q : list str) : has_path q (Node []) = true <-> q = [].
Proof. destruct q; simpl; split; congruence. Qed.

(** The paths of a tree after one key is inserted: the paths it had, and
    the prefixes of the inserted segment list. *)
Lemma has_path_insert_parts (ps q : list str) (t : tree) :
  has_path q (insert_parts ps t) = true <->
  has_path q t = true \/ exists rest, ps = q ++ rest.
Proof.
  revert q t. induction ps as [|p ps IH]; intros q t; cbn [insert_parts].
  - split; [now left|]. intros [H|(rest & H)]; [exact H|].
    symmetry in H. apply app_eq_nil in H as [-> _]. reflexivity.
  - destruct q as [|x q]; [simpl; split; eauto|].
    cbn [has_path children_of].
    destruct (list_eq_dec ascii_dec x p) as [->|Hne].
    + rewrite assoc_upsert_same, IH.
      destruct (assoc p (children_of t)) as [sub|].
      * split; intros [H|(rest & H)]; auto.
        -- right. exists rest. now rewrite H.
        -- right. exists rest. simpl in H. congruence.
      * rewrite has_path_leaf. split.
        -- intros [->|(rest & ->)]; right; [now exists ps | now exists rest].
        -- intros [H|(rest & H)]; [discriminate|].
           right. exists rest. simpl in H. congruence.
    + rewrite assoc_upsert_other by exact Hne. split; [now left|].
      intros [H|(rest & H)]; [exact H|]. simpl in H. congruence.
Qed.

Lemma has_path_build {OS : OsPath} (collected : dict) (root : tree) (q : list str) :
  has_path q
    (fold_left
       (fun root '(dkey, _) =>
          match dkey with
          | [] => root
          | _ :: _ => insert_parts (split sep dkey) root
          end)
       collected root) = true <->
  has_path q root = true \/
  exists k rest, In k (keys collected) /\ k <> [] /\ split sep k = q ++ rest.
Proof.
  revert root. induction collected as [|[k fl] d IH]; intros root; cbn [fold_left].
  - split; [now left|]. now intros [H|(k & rest & [] & _)].
  - rewrite IH. destruct k as [|c k].
    + split; intros [H|(k0 & rest & Hin & Hne & E)]; auto.
      * right. exists k0, rest. split; [now right | auto].
      * destruct Hin as [<-|Hin]; [now elim Hne|]. right. eauto.
    + rewrite has_path_insert_parts. split.
      * intros [[H|(rest & E)]|(k0 & rest & Hin & Hne & E)]; auto.
        -- right. exists (c :: k), rest. split; [now left|]. split; [discriminate | exact E].
        -- right. exists k0, rest. split; [now right | auto].
      * intros [H|(k0 & rest & [<-|Hin] & Hne & E)]; auto.
        -- left. right. now exists rest.
        -- right. eauto.
Qed.

(** X16: the tree of the summary mode holds the key paths and nothing
    else: a non-empty list of names leads to a node of the tree exactly
    when it is a prefix of the segment list ([split] at the separator) of
    some non-empty key of the dictionary. *)
Theorem tree_holds_exactly_the_key_paths {OS : OsPath} (collected : dict)
    (p : str) (q : list str) :
  has_path (p :: q) (build_directory_tree collected) = true <->
  exists k rest,
    In k (keys collected) /\ k <> [] /\ split sep k = (p :: q) ++ rest.
Proof.
  unfold build_directory_tree. rewrite has_path_build. split; [|now right].
  intros [H|H]; [discriminate | exact H].
Qed.

(** ** The renderer, continued *)

Lemma close_last_app (l : list str) (x : str) (out : list str) :
  close_last (l ++ x :: out) = l ++ close_last (x :: out).
Proof.
  induction l as [|a l IH]; [reflexivity|].
  rewrite <- !app_comm_cons. cbn [close_last]. rewrite IH.
  destruct (l ++ x :: out) eqn:E; [|reflexivity].
  now destruct l.
Qed.

Section RenderMore.
Context {OS : OsPath}.

Variable full_map : dict.
Variable collect : collect_strategy.
Variable decorations : list decoration.
Variable style : path_style.
Variable sort_by : sort_mode.
Variable indent_size : Z.
Variable compact_braces : bool.

Lemma close_brace_app (indent : str) (is_last : bool) (l : list str) (x : str)
    (out : list str) :
  close_brace compact_braces indent is_last (l ++ x :: out)
  = l ++ close_brace compact_braces indent is_last (x :: out).
Proof.
  unfold close_brace. destruct (compact_braces && is_last).
  - apply close_last_app.
  - now rewrite <- app_assoc.
Qed.

Lemma format_item_app (name : str) (has_sub : bool)
    (recurse : str -> nat -> list str -> list str) (is_last : bool)
    (current_path : str) (level : nat) (lines : list str) :
  (forall p l ls, recurse p l ls = ls ++ recurse p l []) ->
  format_item full_map collect decorations style indent_size compact_braces
    (name, (has_sub, recurse)) is_last current_path level lines
  = lines ++
    format_item full_map collect decorations style indent_size compact_braces
      (name, (has_sub, recurse)) is_last current_path level [].
Proof.
  intros Hrec. unfold format_item. cbv zeta.
  set (full_path := match current_path with [] => name | _ :: _ => join current_path name end).
  destruct collect.
  - destruct (dict_get full_path full_map) as [flist|], has_sub;
      repeat rewrite (Hrec _ _ (_ ++ _)); cbn [app]; rewrite <- ?app_assoc; cbn [app];
      now rewrite close_brace_app.
  - destruct has_sub; [|reflexivity].
    repeat rewrite (Hrec _ _ (_ ++ _)); cbn [app]; rewrite <- ?app_assoc; cbn [app].
    now rewrite close_brace_app.
  - unfold basename_lines.
    destruct (dict_get full_path full_map) as [[|f rest]|], has_sub, current_path;
      cbn [orb map]; try destruct (1 <? length (f :: rest))%nat;
      repeat rewrite (Hrec _ _ (_ ++ _)); cbn [app]; rewrite <- ?app_assoc; cbn [app];
      try rewrite close_brace_app; reflexivity.
  - destruct (dict_get full_path full_map) as [flist|];
      repeat rewrite (Hrec _ _ (_ ++ _)); cbn [app]; rewrite <- ?app_assoc; cbn [app];
      now rewrite close_brace_app.
Qed.

Lemma format_items_app (items : list item) (current_path : str) (level : nat)
    (lines : list str) :
  Forall (fun it : item => forall p l ls, snd (snd it) p l ls = ls ++ snd (snd it) p l [])
    items ->
  format_items full_map collect decorations style indent_size compact_braces
    items current_path level lines
  = lines ++
    format_items full_map collect decorations style indent_size compact_braces
      items current_path level [].
Proof.
  intros H. revert lines.
  induction H as [|[name [has_sub recurse]] items Hit _ IH]; intros lines;
    cbn [format_items]; [now rewrite app_nil_r|].
  rewrite IH, (IH (format_item _ _ _ _ _ _ _ _ _ _ [])), app_assoc. f_equal.
  now apply format_item_app.
Qed.

Lemma format_directory_app (t : tree) (current_path : str) (level : nat)
    (lines : list str) :
  format_directory full_map collect decorations style sort_by indent_size
    compact_braces t current_path level lines
  = lines ++
    format_directory full_map collect decorations style sort_by indent_size
      compact_braces t current_path level [].
Proof.
  revert current_path level lines.
  induction t as [kids IH] using tree_induction. intros current_path level lines.
  cbn [format_directory]. apply format_items_app.
  apply Forall_forall. intros it Hit.
  apply in_items in Hit as (name & sub & Hin & ->). cbn [snd].
  rewrite Forall_forall in IH. exact (IH (name, sub) Hin).
Qed.

End RenderMore.

(** X17: the summary renderer only appends: rendering a tree after the
    lines [lines] gives [lines], unchanged, followed by the rendering of
    the tree on its own; a compact closing brace is only ever added to a
    line of the tree being rendered. *)
Theorem rendering_only_appends {OS : OsPath} (full_map : dict)
    (collect : collect_strategy) (decorations : list decoration) (style : path_style)
    (sort_by : sort_mode) (indent_size : Z) (compact_braces : bool) (t : tree)
    (current_path : str) (level : nat) (lines : list str) :
  format_directory full_map collect decorations style sort_by indent_size
    compact_braces t current_path level lines
  = lines ++
    format_directory full_map collect decorations style sort_by indent_size
      compact_braces t current_path level [].
Proof. apply format_directory_app. Qed.

(** ** Summary rendering of absolute keys *)

Lemma split_parts_no_sep (c : ascii) (s : str) :
  Forall (fun e => mem_chr c e = false) (split c s).
Proof.
  induction s as [|x s IH]; cbn [split]; [repeat constructor|].
  destruct (chr_eqb x c) eqn:E; [constructor; [reflexivity | exact IH]|].
  destruct (split c s) as [|h t]; [repeat constructor; simpl|].
  - rewrite chr_eqb_sym, E. reflexivity.
  - apply Forall_cons_iff in IH as [Hh Ht]. constructor; [|exact Ht].
    simpl. now rewrite chr_eqb_sym, E, Hh.
Qed.

Lemma sep_free_kids (c : ascii) (kids : list (str * tree)) :
  sep_free c (Node kids) ->
  Forall (fun ns => mem_chr c (fst ns) = false /\ sep_free c (snd ns)) kids.
Proof. now inversion 1. Qed.

Lemma sep_free_assoc (c : ascii) (kids : list (str * tree)) (p : str) :
  sep_free c (Node kids) ->
  sep_free c match assoc p kids with Some sub => sub | None => Node [] end.
Proof.
  intros H. apply sep_free_kids in H.
  induction H as [|[q t] kids [_ Ht] _ IH]; simpl; [repeat constructor|].
  now destruct (str_eqb q p).
Qed.

Lemma sep_free_upsert (c : ascii) (p : str) (f : tree -> tree)
    (kids : list (str * tree)) :
  mem_chr c p = false ->
  (forall t, sep_free c t -> sep_free c (f t)) ->
  sep_free c (Node kids) -> sep_free c (Node (upsert p f kids)).
Proof.
  intros Hp Hf H. apply sep_free_kids in H. constructor.
  induction H as [|[q t] kids [Hq Ht] Hk IH]; simpl.
  - repeat constructor; [exact Hp|]. apply Hf. repeat constructor.
  - simpl in Hq, Ht. destruct (str_eqb q p); constructor; simpl; auto.
Qed.

Lemma sep_free_insert_parts (c : ascii) (parts : list str) (t : tree) :
  Forall (fun e => mem_chr c e = false) parts ->
  sep_free c t -> sep_free c (insert_parts parts t).
Proof.
  intros H. revert t. induction H as [|p ps Hp _ IH]; intros t Ht; [exact Ht|].
  cbn [insert_parts]. destruct t as [kids]. now apply sep_free_upsert.
Qed.

Lemma sep_free_build {OS : OsPath} (collected : dict) :
  sep_free sep (build_directory_tree collected).
Proof.
  unfold build_directory_tree.
  assert (H : sep_free sep (Node [])) by repeat constructor.
  revert H. generalize (Node []).
  induction collected as [|[k fl] d IH]; intros root H; cbn [fold_left]; [exact H|].
  apply IH. destruct k; [exact H|].
  apply sep_free_insert_parts; [apply split_parts_no_sep | exact H].
Qed.

Section SortedMap.
Variables A B : Type.
Variable k : B -> key.
Variable g : A -> B.

Lemma insert_sorted_map (x : A) (l : list A) :
  insert_sorted k (g x) (map g l) = map g (insert_sorted (fun a => k (g a)) x l).
Proof.
  induction l as [|y l IH]; simpl; [reflexivity|].
  destruct (key_ltb (k (g y)) (k (g x))); simpl; [now rewrite IH | reflexivity].
Qed.

Lemma sorted_map (l : list A) :
  sorted k (map g l) = map g (sorted (fun a => k (g a)) l).
Proof.
  induction l as [|x l IH]; simpl; [reflexivity|].
  unfold sorted in *. simpl. now rewrite IH, insert_sorted_map.
Qed.

Lemma sorted_ext (k1 k2 : A -> key) (l : list A) :
  (forall a, k1 a = k2 a) -> sorted k1 l = sorted k2 l.
Proof.
  intros H. induction l as [|x l IH]; [reflexivity|].
  unfold sorted in *. simpl. rewrite IH. generalize (fold_right (insert_sorted k2) [] l).
  intros m. induction m as [|y m IHm]; simpl; [reflexivity|].
  now rewrite !H, IHm.
Qed.

Lemma sorted_map_key (k0 : A -> key) (l : list A) :
  (forall a, k (g a) = k0 a) -> sorted k (map g l) = map g (sorted k0 l).
Proof. intros H. rewrite sorted_map. f_equal. now apply sorted_ext. Qed.

End SortedMap.

Section PosixSummary.
Variable cwd : str.
Variable full_map : dict.
Variable collect : collect_strategy.
Variable decorations : list decoration.
Variable style : path_style.
Variable sort_by : sort_mode.
Variable indent_size : Z.
Variable compact_braces : bool.
Hypothesis Habs : forall k, In k (keys full_map) -> startswith (lit "/") k = true.

Lemma relative_not_found (p : str) : relative p -> dict_get p full_map = None.
Proof.
  intros Hp. destruct (dict_get p full_map) as [fl|] eqn:E; [|reflexivity].
  apply assoc_in in E.
  assert (Hk : In p (keys full_map)) by (apply in_map_iff; now exists (p, fl)).
  apply Habs in Hk. destruct p as [|c p]; [discriminate|].
  unfold startswith in Hk. simpl in Hk.
  apply andb_true_iff in Hk as [Hc _]. apply chr_eqb_eq in Hc as ->.
  now elim (Hp p).
Qed.

Lemma relative_full_path (current_path name : str) :
  relative current_path -> mem_chr "/" name = false ->
  relative match current_path with
           | [] => name
           | _ :: _ => join (OsPath := posix cwd) current_path name
           end.
Proof.
  intros Hc Hn.
  assert (Hname : relative name).
  { intros s ->. simpl in Hn. discriminate. }
  destruct current_path as [|x cur]; [exact Hname|].
  change (join (OsPath := posix cwd)) with posixpath.join. unfold posixpath.join.
  replace (startswith [posixpath.sep] name) with false.
  - destruct (negb (nonempty (x :: cur)) || endswith_chr posixpath.sep (x :: cur));
      intros s E; apply (Hc cur); simpl in E; congruence.
  - symmetry. destruct name as [|c name]; [reflexivity|].
    unfold startswith. simpl. simpl in Hn. apply orb_false_iff in Hn as [Hn _].
    change posixpath.sep with "/"%char. now rewrite chr_eqb_sym, Hn.
Qed.

Lemma format_item_without_files (name : str) (has_sub : bool)
    (recurse recurse' : str -> nat -> list str -> list str) (is_last : bool)
    (current_path : str) (level : nat) (lines : list str) :
  relative current_path -> mem_chr "/" name = false ->
  (forall p l ls, relative p -> recurse p l ls = recurse' p l ls) ->
  format_item (OS := posix cwd) full_map collect decorations style indent_size
    compact_braces (name, (has_sub, recurse)) is_last current_path level lines
  = format_item (OS := posix cwd) [] collect decorations style indent_size
      compact_braces (name, (has_sub, recurse')) is_last current_path level lines.
Proof.
  intros Hc Hn Hrec. unfold format_item. cbv zeta.
  pose proof (relative_full_path current_path name Hc Hn) as Hfull.
  set (full_path := match current_path with
                    | [] => name
                    | _ :: _ => join (OsPath := posix cwd) current_path name
                    end) in *.
  rewrite (relative_not_found full_path Hfull).
  change (dict_get full_path []) with (@None (list str)).
  destruct collect, has_sub; rewrite ?(Hrec _ _ _ Hfull); reflexivity.
Qed.

Lemma format_items_without_files (g g' : str * tree -> item)
    (kids : list (str * tree)) (current_path : str) (level : nat) (lines : list str) :
  relative current_path ->
  Forall (fun ns =>
            mem_chr "/" (fst ns) = false /\
            fst (g ns) = fst ns /\ fst (g' ns) = fst ns /\
            fst (snd (g ns)) = fst (snd (g' ns)) /\
            forall p l ls, relative p ->
              snd (snd (g ns)) p l ls = snd (snd (g' ns)) p l ls) kids ->
  format_items (OS := posix cwd) full_map collect decorations style indent_size
    compact_braces (map g kids) current_path level lines
  = format_items (OS := posix cwd) [] collect decorations style indent_size
      compact_braces (map g' kids) current_path level lines.
Proof.
  intros Hc H. revert lines.
  induction H as [|ns kids (Hn & H1 & H2 & H3 & H4) _ IH]; intros lines;
    [reflexivity|].
  cbn [map format_items]. rewrite IH.
  replace (match map g kids with [] => true | _ :: _ => false end)
    with (match map g' kids with [] => true | _ :: _ => false end)
    by now destruct kids.
  f_equal.
  destruct (g ns) as [n [b r]], (g' ns) as [n' [b' r']]. simpl in *. subst.
  apply format_item_without_files; assumption.
Qed.

Lemma format_directory_without_files (t : tree) (current_path : str) (level : nat)
    (lines : list str) :
  sep_free "/" t -> relative current_path ->
  format_directory (OS := posix cwd) full_map collect decorations style sort_by
    indent_size compact_braces t current_path level lines
  = format_directory (OS := posix cwd) [] collect decorations style sort_by
      indent_size compact_braces t current_path level lines.
Proof.
  revert current_path level lines.
  induction t as [kids IH] using tree_induction. intros current_path level lines Hfree Hc.
  cbn [format_directory].
  set (k0 := fun ns : str * tree => get_subdir_sort_key (fst ns) sort_by).
  rewrite (sorted_map_key _ _ _ _ k0) by now intros [n s].
  rewrite (sorted_map_key _ _ _ _ k0) by now intros [n s].
  apply format_items_without_files; [exact Hc|].
  apply sep_free_kids in Hfree. rewrite Forall_forall in IH, Hfree |- *.
  intros [name sub] Hin. apply in_sorted in Hin.
  destruct (Hfree _ Hin) as [Hn Hs]. cbn [fst snd].
  repeat split; try assumption.
  intros p l ls Hp. now apply (IH (name, sub) Hin).
Qed.

End PosixSummary.

(** X18: on POSIX the summary rendering of a dictionary whose keys are
    absolute paths (the keys of the styles [full] and [files-only]) prints
    no file: the path the renderer rebuilds from the segments of a key never
    starts with a slash, so it is never found in the dictionary, and the
    rendering is that of the bare directory tree. *)
Theorem absolute_keys_print_no_files (cwd : str) (collected : dict)
    (collect : collect_strategy) (decorations : list decoration) (style : path_style)
    (sort_by : sort_mode) (indent_size : Z) (compact_braces : bool)
    (Habs : forall k, In k (keys collected) -> startswith (lit "/") k = true) :
  format_lines (OS := posix cwd) collected Summary collect decorations style sort_by
    indent_size compact_braces
  = format_directory (OS := posix cwd) [] collect decorations style sort_by
      indent_size compact_braces (build_directory_tree (OS := posix cwd) collected)
      [] 0 [].
Proof.
  unfold format_lines. apply format_directory_without_files.
  - exact Habs.
  - apply (sep_free_build (OS := posix cwd)).
  - intros s. discriminate.
Qed.

(** X18, witness: the three files of [/d] under style [full]. *)
Lemma absolute_keys_print_no_files_witness :
  format_lines (OS := posix (lit "/"))
    [(lit "/d", [lit "/d/a"; lit "/d/b"; lit "/d/c"])] Summary All [Unix] Full IName
    2 false
  = format_directory (OS := posix (lit "/")) [] All [Unix] Full IName 2 false
      (build_directory_tree (OS := posix (lit "/"))
         [(lit "/d", [lit "/d/a"; lit "/d/b"; lit "/d/c"])])
      [] 0 [].
Proof.
  apply (absolute_keys_print_no_files (lit "/")
           [(lit "/d", [lit "/d/a"; lit "/d/b"; lit "/d/c"])] All [Unix] Full IName
           2 false).
  intros k Hk. simpl in Hk. destruct Hk as [<-|[]]. reflexivity.
Defined.

(** ** Inline rendering of adjusted paths *)

Lemma replace_idempotent (old new : ascii) (s : str) :
  old <> new -> replace old new (replace old new s) = replace old new s.
Proof.
  intros H. unfold replace. rewrite map_map. apply map_ext. intros c.
  destruct (chr_eqb c old) eqn:E; [|now rewrite E].
  replace (chr_eqb new old) with false; [reflexivity|].
  symmetry. apply Ascii.eqb_neq. congruence.
Qed.

Lemma apply_decorations_idempotent (p : str) (decorations : list decoration) :
  has NoLeader decorations = false -> has RelLeader decorations = false ->
  apply_decorations (apply_decorations p decorations) decorations
  = apply_decorations p decorations.
Proof.
  intros Hn Hr. unfold apply_decorations. rewrite Hn, Hr.
  destruct (has Unix decorations); [now apply replace_idempotent|].
  destruct (has Windows decorations); [now apply replace_idempotent | reflexivity].
Qed.

Section PosixInline.
Variable cwd : str.
Variable start : str.
Variable style : path_style.
Variable decorations : list decoration.
Variable strict_rel : bool.
Variable base_label : option str.
Hypothesis Hrel : is_rel style = true.

Lemma posix_rel_file_decorated (f f' : str) :
  adjust_file (OS := posix cwd) start style decorations strict_rel base_label f = Ok f' ->
  exists x, f' = apply_decorations x decorations.
Proof.
  rewrite posix_adjust_file_lenient. unfold adjust_file.
  rewrite same_drive_posix. cbn [andb negb]. intros [= <-].
  destruct style; try discriminate; eauto.
Qed.

Lemma posix_rel_dir_decorated (k k' : str) :
  adjust_dir (OS := posix cwd) start style decorations strict_rel base_label k = Ok k' ->
  exists x, k' = apply_decorations x decorations.
Proof.
  rewrite posix_adjust_dir_lenient. unfold adjust_dir.
  rewrite same_drive_posix. cbn [andb negb].
  destruct style; try discriminate; intros [= <-]; [eauto|].
  destruct (str_eqb _ _); eauto.
Qed.

Lemma posix_rel_entries_decorated (raw adjusted : dict) (k' : str) (fl' : list str) :
  adjust_loop (OS := posix cwd) start style decorations strict_rel base_label raw []
  = Ok adjusted ->
  In (k', fl') adjusted ->
  (exists x, k' = apply_decorations x decorations) /\
  Forall (fun f' => exists x, f' = apply_decorations x decorations) fl'.
Proof.
  intros H Hin.
  destruct (adjust_loop_entries _ _ _ _ _ _ _ _ _ _ H Hin)
    as [[]|(k & fl & _ & Hk & Hf)].
  split; [exact (posix_rel_dir_decorated _ _ Hk)|].
  apply adjust_files_ok in Hf.
  clear Hin. induction Hf as [|f f' l l' Hff _ IH]; [constructor|].
  constructor; [exact (posix_rel_file_decorated _ _ Hff) | exact IH].
Qed.

End PosixInline.

Lemma map_decorated (decorations : list decoration) (l : list str) :
  has NoLeader decorations = false -> has RelLeader decorations = false ->
  Forall (fun f => exists x, f = apply_decorations x decorations) l ->
  map (fun f => apply_decorations f decorations) l = l.
Proof.
  intros Hn Hr H. induction H as [|f l (x & ->) _ IH]; simpl; [reflexivity|].
  now rewrite apply_decorations_idempotent, IH.
Qed.

(** X19: inline rendering decorates the adjusted paths a second time.  On
    POSIX, under the styles [rel] and [rel-base] and a decoration set
    without leader option, this changes nothing: the lines of the inline
    mode are the adjusted file paths (the keys under [dirs-only]) as the
    adjuster returned them, in the order of the dictionary. *)
Theorem inline_prints_the_adjusted_paths (cwd : str) (raw : dict) (start : str)
    (style : path_style) (decorations : list decoration) (collect : collect_strategy)
    (strict_rel : bool) (base_label : option str) (adjusted : dict)
    (sort_by : sort_mode) (indent_size : Z) (compact_braces : bool)
    (Hreturns :
      adjust_paths (OS := posix cwd) raw start style decorations collect strict_rel
        base_label = Ok adjusted)
    (Hrel : is_rel style = true)
    (Hno : has NoLeader decorations = false)
    (Hrl : has RelLeader decorations = false) :
  format_lines (OS := posix cwd) adjusted Inline collect decorations style sort_by
    indent_size compact_braces
  = match collect with
    | DirsOnly => keys adjusted
    | _ => concat (map snd adjusted)
    end.
Proof.
  unfold adjust_paths in Hreturns.
  pose proof (fun k' fl' =>
                posix_rel_entries_decorated cwd start style decorations strict_rel
                  base_label Hrel raw adjusted k' fl' Hreturns) as Hdec.
  assert (Hfiles :
            flat_map (fun '(_, flist) => map (fun f => apply_decorations f decorations) flist)
              adjusted
            = concat (map snd adjusted)).
  { clear Hreturns. induction adjusted as [|[k fl] d IH]; [reflexivity|].
    cbn [flat_map map concat snd]. rewrite IH by (intros; apply Hdec; now right).
    f_equal. apply map_decorated; try assumption.
    apply (Hdec k fl). now left. }
  unfold format_lines. destruct collect; try exact Hfiles.
  apply map_decorated; try assumption.
  apply Forall_forall. intros k Hk.
  apply in_map_iff in Hk as ([k0 fl] & <- & Hin). apply (Hdec k0 fl Hin).
Qed.

(** X19, witness: [src_tree] under [rel-base] and [unix]. *)
Lemma inline_prints_the_adjusted_paths_witness :
  format_lines (OS := posix (lit "/"))
    [(lit "p", [lit "p/a.txt"]); (lit "p/src", [lit "p/src/b.txt"])]
    Inline All [Unix] RelBase IName 2 false
  = concat (map snd [(lit "p", [lit "p/a.txt"]); (lit "p/src", [lit "p/src/b.txt"])]).
Proof.
  apply (inline_prints_the_adjusted_paths (lit "/")
           [(lit "/p", [lit "/p/a.txt"]); (lit "/p/src", [lit "/p/src/b.txt"])]
           (lit "/p") RelBase [Unix] All false None
           [(lit "p", [lit "p/a.txt"]); (lit "p/src", [lit "p/src/b.txt"])]
           IName 2 false).
  - reflexivity.
  - reflexivity.
  - reflexivity.
  - reflexivity.
Defined.

(** ** The command line *)

Lemma str_in_In (x : str) (l : list str) : str_in x l = true <-> In x l.
Proof.
  unfold str_in. rewrite existsb_exists. split.
  - intros (y & Hin & E). apply str_eqb_eq in E as ->. exact Hin.
  - intros Hin. exists x. split; [exact Hin | apply str_eqb_refl].
Qed.

Lemma index_first (x : str) (pre rest : list str) :
  ~ In x pre -> index x (pre ++ x :: rest) = Some (length pre).
Proof.
  induction pre as [|y pre IH]; simpl; intros H.
  - now rewrite str_eqb_refl.
  - replace (str_eqb y x) with false
      by (symmetry; apply str_eqb_neq; intros ->; apply H; now left).
    rewrite IH; [reflexivity|]. intros Hin. apply H. now right.
Qed.

Lemma index_some (x : str) (l : list str) (i : nat) :
  index x l = Some i ->
  exists pre rest, l = pre ++ x :: rest /\ length pre = i /\ ~ In x pre.
Proof.
  revert i. induction l as [|y l IH]; simpl; intros i H; [discriminate|].
  destruct (str_eqb y x) eqn:E.
  - injection H as <-. apply str_eqb_eq in E as ->. exists [], l. auto.
  - destruct (index x l) as [j|]; [|discriminate]. injection H as <-.
    destruct (IH j eq_refl) as (pre & rest & -> & <- & Hno).
    exists (y :: pre), rest. repeat split. intros [->|Hin]; [|auto].
    now rewrite str_eqb_refl in E.
Qed.

Lemma nth_error_after (pre : list str) (x : str) (rest : list str) :
  nth_error (pre ++ x :: rest) (length pre + 1) = nth_error rest 0.
Proof.
  induction pre as [|y pre IH]; [reflexivity|]. exact IH.
Qed.

(** What the lookup does once the flag it reads is located. *)
Lemma lookup_at (flag : str) (pre rest : list str) :
  ~ In flag pre ->
  match index flag (pre ++ flag :: rest) with
  | Some idx =>
      match nth_error (pre ++ flag :: rest) (idx + 1) with
      | Some topic =>
          if str_in topic EXTENDED_HELP then PrintsAndExits topic else Returns
      | None => Returns
      end
  | None => Returns
  end
  = match rest with
    | topic :: _ =>
        if str_in topic EXTENDED_HELP then PrintsAndExits topic else Returns
    | [] => Returns
    end.
Proof.
  intros H. rewrite index_first by exact H. rewrite nth_error_after.
  now destruct rest.
Qed.

(** X20: [extended_help_lookup] prints the extended help of a topic and
    exits exactly when the topic is a key of [EXTENDED_HELP] and is the
    token after the first [-h], or, when the arguments hold no [-h], after
    the first [--help]; in every other case it returns.  A [-h] anywhere
    in the arguments takes precedence over an earlier [--help topic]. *)
Theorem extended_help_reads_the_first_flag (argv : list str) (topic : str) :
  extended_help_lookup argv = PrintsAndExits topic <->
  In topic EXTENDED_HELP /\
  exists flag pre post,
    argv = pre ++ flag :: topic :: post /\ ~ In flag pre /\
    (flag = lit "-h" \/ (flag = lit "--help" /\ ~ In (lit "-h") argv)).
Proof.
  unfold extended_help_lookup.
  destruct (str_in (lit "-h") argv) eqn:Eh; cbn [orb].
  - assert (Hin : In (lit "-h") argv) by now apply str_in_In.
    destruct (index (lit "-h") argv) as [i|] eqn:Ei.
    + destruct (index_some _ _ _ Ei) as (pre & rest & -> & <- & Hno).
      rewrite nth_error_after. split.
      * destruct rest as [|t post]; [discriminate|]. cbn [nth_error].
        destruct (str_in t EXTENDED_HELP) eqn:Et; [|discriminate].
        intros [= <-]. split; [now apply str_in_In|].
        exists (lit "-h"), pre, post. auto.
      * intros (Ht & flag & pre' & post & E & Hno' & [->|[_ Hnone]]);
          [|now elim Hnone].
        pose proof (index_first (lit "-h") pre' (topic :: post) Hno') as Ei'.
        rewrite <- E, index_first in Ei' by exact Hno.
        injection Ei' as Elen.
        assert (Epre : pre = pre' /\ rest = topic :: post).
        { clear - E Elen. revert pre' E Elen.
          induction pre as [|a pre IH]; intros [|b pre'] E Elen; try discriminate.
          - injection E as <-. auto.
          - injection E as <- E. injection Elen as Elen.
            destruct (IH _ E Elen) as [-> ->]. auto. }
        destruct Epre as [_ ->]. cbn [nth_error].
        replace (str_in topic EXTENDED_HELP) with true; [reflexivity|].
        symmetry. now apply str_in_In.
    + exfalso. clear - Hin Ei. induction argv as [|y l IH]; [contradiction|].
      cbn [index] in Ei. destruct (str_eqb y (lit "-h")) eqn:E; [discriminate|].
      destruct (index (lit "-h") l); [discriminate|].
      destruct Hin as [->|Hin]; [now rewrite str_eqb_refl in E | auto].
  - assert (Hnone : ~ In (lit "-h") argv)
      by (intros Hin; apply str_in_In in Hin; congruence).
    destruct (str_in (lit "--help") argv) eqn:Ehelp.
    + destruct (index (lit "--help") argv) as [i|] eqn:Ei.
      * destruct (index_some _ _ _ Ei) as (pre & rest & -> & <- & Hno).
        rewrite nth_error_after. split.
        -- destruct rest as [|t post]; [discriminate|]. cbn [nth_error].
           destruct (str_in t EXTENDED_HELP) eqn:Et; [|discriminate].
           intros [= <-]. split; [now apply str_in_In|].
           exists (lit "--help"), pre, post. auto.
        -- intros (Ht & flag & pre' & post & E & Hno' & [->|[-> _]]).
           ++ elim Hnone. rewrite E. apply in_or_app. right. now left.
           ++ pose proof (index_first (lit "--help") pre' (topic :: post) Hno') as Ei'.
              rewrite <- E, index_first in Ei' by exact Hno.
              injection Ei' as Elen.
              assert (Epre : pre = pre' /\ rest = topic :: post).
              { clear - E Elen. revert pre' E Elen.
                induction pre as [|a pre IH]; intros [|b pre'] E Elen; try discriminate.
                - injection E as <-. auto.
                - injection E as <- E. injection Elen as Elen.
                  destruct (IH _ E Elen) as [-> ->]. auto. }
              destruct Epre as [_ ->]. cbn [nth_error].
              replace (str_in topic EXTENDED_HELP) with true; [reflexivity|].
              symmetry. now apply str_in_In.
      * exfalso. apply str_in_In in Ehelp. clear - Ehelp Ei.
        induction argv as [|y l IH]; [contradiction|].
        cbn [index] in Ei. destruct (str_eqb y (lit "--help")) eqn:E; [discriminate|].
        destruct (index (lit "--help") l); [discriminate|].
        destruct Ehelp as [->|Hin]; [now rewrite str_eqb_refl in E | auto].
    + split; [discriminate|].
      intros (_ & flag & pre & post & E & _ & [->|[-> _]]).
      * elim Hnone. rewrite E. apply in_or_app. right. now left.
      * assert (Hin : In (lit "--help") argv)
          by (rewrite E; apply in_or_app; right; now left).
        apply str_in_In in Hin. congruence.
Qed.

Lemma has_filter (d : decoration) (p : decoration -> bool) (l : list decoration) :
  has d (filter p l) = has d l && p d.
Proof.
  unfold has. induction l as [|x l IH]; [reflexivity|]. simpl.
  destruct (p x) eqn:Ex; simpl; rewrite IH.
  - destruct (decoration_eqb d x) eqn:E; [|reflexivity].
    destruct d, x; try discriminate; now rewrite Ex.
  - destruct (decoration_eqb d x) eqn:E; [|reflexivity].
    destruct d, x; try discriminate; rewrite Ex; simpl; now rewrite andb_false_r.
Qed.

(** X21: the decoration set [main] passes on never holds both [unix] and
    [windows] and is never empty; the leader options given on the command
    line are kept; and when both slash styles are given, the one that is
    not the system default is the one kept. *)
Theorem final_decorations_hold_one_slash_style (os_type : str)
    (decorator : list decoration) :
  let final := final_decs os_type decorator in
  has Unix final && has Windows final = false /\
  final <> [] /\
  has NoLeader final = has NoLeader decorator /\
  has RelLeader final = has RelLeader decorator /\
  (has Unix decorator = true -> has Windows decorator = true ->
   has (sys_def_dec os_type) final = false /\
   has (match sys_def_dec os_type with Unix => Windows | _ => Unix end) final = true).
Proof.
  cbv zeta. unfold final_decs.
  set (sys := sys_def_dec os_type).
  assert (Hsys : sys = Unix \/ sys = Windows)
    by (unfold sys, sys_def_dec; destruct (str_in _ _); auto).
  destruct decorator as [|d ds].
  - destruct Hsys as [-> | ->]; simpl; repeat split; discriminate.
  - assert (Hne : d :: ds <> []) by discriminate.
    generalize dependent (d :: ds). intros l Hne.
    destruct (has Unix l && has Windows l) eqn:E.
    + apply andb_true_iff in E as [Eu Ew].
      assert (Hfinal : forall x,
                has x (filter (fun d0 => negb (decoration_eqb d0 sys)) l)
                = has x l && negb (decoration_eqb x sys))
        by (intros x; apply has_filter).
      rewrite !Hfinal, Eu, Ew.
      split; [now destruct Hsys as [-> | ->]|].
      split.
      { intros Hnil.
        pose proof (Hfinal (match sys with Unix => Windows | _ => Unix end)) as H.
        rewrite Hnil in H. destruct Hsys as [Es | Es]; rewrite Es in H; simpl in H.
        - now rewrite Ew in H.
        - now rewrite Eu in H. }
      split; [destruct Hsys as [-> | ->]; simpl; now rewrite andb_true_r|].
      split; [destruct Hsys as [-> | ->]; simpl; now rewrite andb_true_r|].
      intros _ _. destruct Hsys as [-> | ->]; simpl; rewrite Eu, Ew; auto.
    + split; [exact E|]. split; [exact Hne|].
      split; [reflexivity|]. split; [reflexivity|].
      intros Hu Hw. rewrite Hu, Hw in E. discriminate.
Qed.

(** X21, witness: on Linux, [unix] and [windows] given together leave
    [windows]. *)
Lemma final_decorations_hold_one_slash_style_witness :
  let final := final_decs (lit "Linux") [Unix; Windows; NoLeader] in
  has Unix final && has Windows final = false /\
  final <> [] /\
  has NoLeader final = has NoLeader [Unix; Windows; NoLeader] /\
  has RelLeader final = has RelLeader [Unix; Windows; NoLeader] /\
  (has Unix [Unix; Windows; NoLeader] = true ->
   has Windows [Unix; Windows; NoLeader] = true ->
   has (sys_def_dec (lit "Linux")) final = false /\
   has (match sys_def_dec (lit "Linux") with Unix => Windows | _ => Unix end) final
   = true).
Proof.
  exact (final_decorations_hold_one_slash_style (lit "Linux") [Unix; Windows; NoLeader]).
Defined.

(** ** Further closed instances *)

(** X9, witness: [two_levels] walked from [/d]. *)
Lemma strategies_bound_the_lists_witness :
  (forall k fl,
     In (k, fl)
       (walk_directories (OS := linux) two_levels (lit "/d") None IName DirsOnly None
          None None None) ->
     fl = []) /\
  (forall k fl,
     In (k, fl)
       (walk_directories (OS := linux) two_levels (lit "/d") None IName Dirs1stLastFile
          None None None None) ->
     length fl <= 2).
Proof.
  exact (@strategies_bound_the_lists linux two_levels (lit "/d") None IName None None
           None None).
Defined.

(** X16, witness: the key [a/b/c] gives the path [a], [b]. *)
Lemma tree_holds_exactly_the_key_paths_witness :
  has_path (lit "a" :: [lit "b"]) (build_directory_tree (OS := linux) [(lit "a/b/c", [])])
  = true <->
  exists k rest,
    In k (keys [(lit "a/b/c", [])]) /\ k <> [] /\
    split (sep (OsPath := linux)) k = (lit "a" :: [lit "b"]) ++ rest.
Proof.
  exact (@tree_holds_exactly_the_key_paths linux [(lit "a/b/c", [])] (lit "a") [lit "b"]).
Defined.

(** X20, witness: [--help sort -h]: the flag read is [-h], which no topic
    follows. *)
Lemma extended_help_reads_the_first_flag_witness :
  extended_help_lookup [lit "--help"; lit "sort"; lit "-h"] = PrintsAndExits (lit "sort") <->
  In (lit "sort") EXTENDED_HELP /\
  exists flag pre post,
    [lit "--help"; lit "sort"; lit "-h"] = pre ++ flag :: lit "sort" :: post /\
    ~ In flag pre /\
    (flag = lit "-h" \/
     (flag = lit "--help" /\ ~ In (lit "-h") [lit "--help"; lit "sort"; lit "-h"])).
Proof.
  exact (extended_help_reads_the_first_flag [lit "--help"; lit "sort"; lit "-h"]
           (lit "sort")).
Defined.

(** ** Cross-root handling *)

Section LenientEntries.
Context {OS : OsPath}.

Variable start : str.
Variable style : path_style.
Variable decorations : list decoration.
Variable base_label : option str.
Hypothesis Hstyle : is_rel style = true.

Lemma adjust_file_cross (f : str) :
  same_drive start (abspath f) = false ->
  adjust_file start style decorations false base_label f = Ok (abspath f).
Proof.
  intros Hp. unfold adjust_file. simpl. rewrite Hp.
  destruct style; try discriminate; reflexivity.
Qed.

Lemma adjust_dir_cross (k : str) :
  same_drive start (abspath k) = false ->
  adjust_dir start style decorations false base_label k = Ok (abspath k).
Proof.
  intros Hp. unfold adjust_dir. simpl. rewrite Hp.
  destruct style; try discriminate; reflexivity.
Qed.

Lemma adjust_files_cross (fl fl' : list str) :
  adjust_files start style decorations false base_label fl = Ok fl' ->
  Forall2
    (fun f f' =>
       adjust_file start style decorations false base_label f = Ok f' /\
       (same_drive start (abspath f) = false -> f' = abspath f))
    fl fl'.
Proof.
  intros H. apply adjust_files_ok in H.
  induction H as [|f f' l l' Hf _ IH]; constructor; [|exact IH].
  split; [exact Hf|]. intros Hc. rewrite adjust_file_cross in Hf by exact Hc.
  congruence.
Qed.

End LenientEntries.

(** C5: in style [rel] or [rel-base], when some file or directory key of
    the input lies on another drive than the start path, the strict
    adjuster fails with the error that names the absolute path of such an
    entry.  Without strict mode the adjuster always returns a dictionary:
    each of its entries is the rendering of an entry of the input, the
    last entry of the input rendered to a key is the one stored under it,
    and in a rendered entry a key or a file on another drive is its
    absolute path, unchanged. *)
Theorem cross_root_handling {OS : OsPath} (raw : dict) (start : str)
    (style : path_style) (decorations : list decoration) (collect : collect_strategy)
    (base_label : option str) (Hstyle : is_rel style = true) :
  let rendered (k : str) (fl : list str) (k' : str) (fl' : list str) :=
    adjust_dir start style decorations false base_label k = Ok k' /\
    (same_drive start (abspath k) = false -> k' = abspath k) /\
    Forall2
      (fun f f' =>
         adjust_file start style decorations false base_label f = Ok f' /\
         (same_drive start (abspath f) = false -> f' = abspath f))
      fl fl' in
  ((exists k fl, In (k, fl) raw /\
      (same_drive start (abspath k) = false \/
       exists f, In f fl /\ same_drive start (abspath f) = false)) ->
   exists p,
     adjust_paths raw start style decorations collect true base_label
     = ValueError (lit "Cannot create relative path across drives: " ++ p) /\
     same_drive start p = false /\
     exists k fl, In (k, fl) raw /\
       (p = abspath k \/ exists f, In f fl /\ p = abspath f)) /\
  (exists adj,
     adjust_paths raw start style decorations collect false base_label = Ok adj /\
     (forall k' fl', In (k', fl') adj ->
        exists k fl, In (k, fl) raw /\ rendered k fl k' fl') /\
     (forall before k fl after,
        raw = before ++ (k, fl) :: after ->
        (forall k0 fl0, In (k0, fl0) after ->
           adjust_dir start style decorations false base_label k0
           <> adjust_dir start style decorations false base_label k) ->
        exists k' fl', dict_get k' adj = Some fl' /\ rendered k fl k' fl')) /\
  (forall p, same_drive start (abspath p) = false ->
     adjust_file start style decorations false base_label p = Ok (abspath p) /\
     adjust_dir start style decorations false base_label p = Ok (abspath p)).
Proof.
  intros rendered.
  assert (Hrendered : forall k fl k' fl',
             adjust_dir start style decorations false base_label k = Ok k' ->
             adjust_files start style decorations false base_label fl = Ok fl' ->
             rendered k fl k' fl').
  { intros k fl k' fl' Hk Hfl. split; [exact Hk|]. split.
    - intros Hc. rewrite (adjust_dir_cross start style decorations base_label Hstyle)
        in Hk by exact Hc. congruence.
    - now apply adjust_files_cross. }
  split; [|split].
  - intros (k & fl & Hin & Hcross). unfold adjust_paths.
    destruct (adjust_loop start style decorations true base_label raw [])
      as [adj|msg] eqn:E.
    + exfalso.
      destruct (adjust_loop_all_ok _ _ _ _ _ _ _ _ E k fl Hin) as [[k' Hk] Hf].
      destruct Hcross as [Hc|(f & Hfin & Hc)].
      * rewrite adjust_dir_strict, Hc in Hk by exact Hstyle. discriminate.
      * destruct (Hf f Hfin) as [f' Hf'].
        rewrite adjust_file_strict, Hc in Hf' by exact Hstyle. discriminate.
    + apply adjust_loop_error in E as (k0 & fl0 & Hin0 & [Hk|(f & Hfin & Hf)]).
      * rewrite adjust_dir_strict in Hk by exact Hstyle.
        destruct (same_drive start (abspath k0)) eqn:Hd.
        -- destruct (adjust_dir_lenient start style decorations base_label k0) as [? E'].
           rewrite E' in Hk. discriminate.
        -- injection Hk as <-. exists (abspath k0). repeat split; eauto.
      * rewrite adjust_file_strict in Hf by exact Hstyle.
        destruct (same_drive start (abspath f)) eqn:Hd.
        -- destruct (adjust_file_lenient start style decorations base_label f) as [? E'].
           rewrite E' in Hf. discriminate.
        -- injection Hf as <-. exists (abspath f). repeat split; eauto 7.
  - unfold adjust_paths.
    destruct (adjust_loop_lenient start style decorations base_label raw [])
      as [adj E].
    exists adj. split; [exact E|]. split.
    + intros k' fl' Hin.
      destruct (adjust_loop_entries _ _ _ _ _ _ _ _ _ _ E Hin)
        as [[]|(k & fl & Hraw & Hk & Hfl)].
      exists k, fl. split; [exact Hraw | now apply Hrendered].
    + intros before k fl after -> Hlast.
      destruct (adjust_dir_lenient start style decorations base_label k) as [k' Hk].
      destruct (adjust_loop_get_last start style decorations false base_label
                  before after [] adj k fl k' E Hk) as (fl' & Hfl & Hget).
      * intros k0 fl0 Hin0 Hk0. apply (Hlast k0 fl0 Hin0). congruence.
      * exists k', fl'. split; [exact Hget | now apply Hrendered].
  - intros p Hp. split.
    + now apply adjust_file_cross.
    + now apply adjust_dir_cross.
Qed.

(** Without strict mode the file on drive [D:] is kept as its absolute
    path beside the relative path of the file on the start drive. *)
Lemma cross_root_lenient_example :
  adjust_paths (OS := win) [(lit "C:\p", [lit "C:\p\a.txt"; lit "D:\q\b.txt"])]
    (lit "C:\p") Rel [Windows] All false None
  = Ok [(lit ".", [lit "a.txt"; lit "D:\q\b.txt"])].
Proof. reflexivity. Qed.

(** C5, witness: a file on drive [D:] under a start path on [C:].  In
    strict mode the adjuster fails with an error naming a path on another
    drive; without strict mode the entry is stored with that file as its
    absolute path. *)
Lemma cross_root_handling_witness :
  is_rel Rel = true /\
  (exists p,
     adjust_paths (OS := win) [(lit "C:\p", [lit "C:\p\a.txt"; lit "D:\q\b.txt"])]
       (lit "C:\p") Rel [Windows] All true None
     = ValueError (lit "Cannot create relative path across drives: " ++ p) /\
     same_drive (OS := win) (lit "C:\p") p = false /\
     exists k fl,
       In (k, fl) [(lit "C:\p", [lit "C:\p\a.txt"; lit "D:\q\b.txt"])] /\
       (p = abspath (OsPath := win) k \/
        exists f, In f fl /\ p = abspath (OsPath := win) f)) /\
  exists adj k' fl',
    adjust_paths (OS := win) [(lit "C:\p", [lit "C:\p\a.txt"; lit "D:\q\b.txt"])]
      (lit "C:\p") Rel [Windows] All false None
    = Ok adj /\
    dict_get k' adj = Some fl' /\
    Forall2
      (fun f f' =>
         adjust_file (OS := win) (lit "C:\p") Rel [Windows] false None f = Ok f' /\
         (same_drive (OS := win) (lit "C:\p") (abspath (OsPath := win) f) = false ->
          f' = abspath (OsPath := win) f))
      [lit "C:\p\a.txt"; lit "D:\q\b.txt"] fl'.
Proof.
  pose proof (@cross_root_handling win
                [(lit "C:\p", [lit "C:\p\a.txt"; lit "D:\q\b.txt"])]
                (lit "C:\p") Rel [Windows] All None eq_refl) as H.
  cbv zeta in H. destruct H as (Hstrict & (adj & Hadj & _ & Hlast) & _).
  split; [reflexivity|]. split.
  - apply Hstrict.
    exists (lit "C:\p"), [lit "C:\p\a.txt"; lit "D:\q\b.txt"].
    split; [now left|]. right. exists (lit "D:\q\b.txt").
    split; [right; now left | reflexivity].
  - destruct (Hlast [] (lit "C:\p") [lit "C:\p\a.txt"; lit "D:\q\b.txt"] [] eq_refl)
      as (k' & fl' & Hget & _ & _ & Hfiles).
    + intros k0 fl0 [].
    + exists adj, k', fl'. auto.
Defined.

(** ** Exclusion, from the walk to the rendered lines *)

Section VisitedFacts.
Context {OS : OsPath}.

Variable patterns : list str.
Variable sort_by : sort_mode.
Variable collect : collect_strategy.
Variable max_depth : option Z.
Variable prune : option Z.

(** Every key of the walker's map is a directory the walk came to and
    could list, and every file of its list is an entry of such a directory
    at that key, not a directory and not excluded. *)
Lemma walk_entries_visited (fs : node) (start k : str) (fl : list str) :
  In (k, fl) (recurse_dir patterns sort_by collect max_depth prune fs start 0 []) ->
  (exists t entries, visited patterns fs start k (Dir t true entries)) /\
  forall f, In f fl ->
    is_excluded patterns f = false /\
    exists t entries e t',
      visited patterns fs start k (Dir t true entries) /\
      In (e, File t') entries /\ f = join k e.
Proof.
  revert k fl.
  apply (recurse_dir_invariant _ _ _ _ _
           (fun root _ n => visited patterns fs start root n)
           (fun d => forall k fl, In (k, fl) d ->
              (exists t entries, visited patterns fs start k (Dir t true entries)) /\
              forall f, In f fl ->
                is_excluded patterns f = false /\
                exists t entries e t',
                  visited patterns fs start k (Dir t true entries) /\
                  In (e, File t') entries /\ f = join k e)).
  - intros root depth t entries d HQ HI k fl H.
    apply in_visit in H as [H|[-> H]]; [now apply HI|].
    split; [eauto|]. intros f Hf.
    destruct (H f Hf) as [Hin|(fl0 & Hin & Hf0)].
    + apply in_files_of in Hin as (e & c & Hec & Hd & -> & Hex).
      destruct c as [t'|]; [|discriminate]. split; [exact Hex|]. eauto 10.
    + now apply (proj2 (HI root fl0 Hin)).
  - intros root depth t entries d e c HQ Hin Hsd.
    apply in_visit_subdirs, in_subdirs_of in Hsd as (e' & c' & _ & _ & E & Hex).
    eapply visited_child; eassumption.
  - constructor.
  - intros k fl [].
Qed.

Lemma visited_not_excluded (fs : node) (start k : str) (n : node) :
  visited patterns fs start k n -> k = start \/ is_excluded patterns k = false.
Proof. intros [|p e t entries c _ _ H]; auto. Qed.

End VisitedFacts.

Lemma snoc_or_nil (A : Type) (l : list A) :
  l = [] \/ exists l' x, l = l' ++ [x].
Proof.
  destruct l as [|a l]; [now left|]. right.
  destruct (@exists_last _ (a :: l)) as (l' & x & E); [discriminate|]. eauto.
Qed.

(** On POSIX, in a tree of valid names, the walk comes to a node only by
    names none of whose paths is excluded. *)
Lemma visited_under (cwd : str) (patterns : list str) (comps : list str) (fs : node)
    (p : str) (n : node) :
  Forall (fun e => valid_name e = true) comps ->
  names_ok valid_name fs = true ->
  visited (OS := posix cwd) patterns fs (abs_of comps) p n ->
  names_ok valid_name n = true /\
  exists names,
    p = abs_of (comps ++ names) /\
    Forall (fun e => valid_name e = true) names /\
    forall first rest, names = first ++ rest -> first <> [] ->
      is_excluded (OS := posix cwd) patterns (abs_of (comps ++ first)) = false.
Proof.
  intros Hcs Hv H.
  induction H as [|p e t entries c H [IHv (names & -> & Hn & Hpre)] Hin Hex].
  - split; [exact Hv|]. exists []. rewrite app_nil_r. repeat split; [constructor|].
    intros first rest E Hne. symmetry in E. apply app_eq_nil in E as [-> _].
    now elim Hne.
  - destruct (names_ok_dir _ _ _ _ _ _ IHv Hin) as [He Hc].
    assert (Ej : join (OsPath := posix cwd) (abs_of (comps ++ names)) e
                 = abs_of (comps ++ names ++ [e])).
    { rewrite app_assoc. apply join_abs_of; [|exact He]. apply Forall_app. auto. }
    split; [exact Hc|]. exists (names ++ [e]). split; [exact Ej|].
    split; [apply Forall_app; auto|].
    intros first rest E Hne.
    destruct (snoc_or_nil _ rest) as [->|(rest' & x & ->)].
    + rewrite app_nil_r in E. subst first. rewrite <- Ej. exact Hex.
    + rewrite app_assoc in E. apply app_inj_tail in E as [E _].
      now apply (Hpre first rest').
Qed.

(** *** Segments of the tree *)

Lemma in_upsert (p : str) (f : tree -> tree) (kids : list (str * tree))
    (n : str) (sub : tree) :
  In (n, sub) (upsert p f kids) ->
  In (n, sub) kids \/
  (n = p /\ exists sub0, sub = f sub0 /\ (In (p, sub0) kids \/ sub0 = Node [])).
Proof.
  induction kids as [|[q t] kids IH]; simpl.
  - intros [[= <- <-]|[]]. right. split; [reflexivity|]. exists (Node []). auto.
  - destruct (str_eqb q p) eqn:E; intros [H|H].
    + injection H as <- <-. apply str_eqb_eq in E as ->.
      right. split; [reflexivity|]. exists t. auto.
    + auto.
    + auto.
    + destruct (IH H) as [Hin|(-> & sub0 & -> & [Hin| ->])]; auto.
      * right. split; [reflexivity|]. exists sub0. auto.
      * right. split; [reflexivity|]. exists (Node []). auto.
Qed.

Lemma segment_in_leaf (base level : nat) (name : str) :
  ~ segment_in (Node []) base level name.
Proof. intros H. inversion H; subst; contradiction. Qed.

Lemma segment_insert_parts (parts : list str) (t : tree) (base level : nat)
    (name : str) :
  segment_in (insert_parts parts t) base level name ->
  segment_in t base level name \/
  exists i, level = base + i /\ nth_error parts i = Some name.
Proof.
  revert t base. induction parts as [|p ps IH]; intros t base H; [now left|].
  cbn [insert_parts] in H. destruct t as [kids]. cbn [children_of] in H.
  inversion H as [kids' b n sub Hin|kids' b l n parent sub Hin Hsub]; subst.
  - apply in_upsert in Hin as [Hin|(-> & _)].
    + left. eapply seg_child; eassumption.
    + right. exists 0. split; [lia | reflexivity].
  - apply in_upsert in Hin as [Hin|(-> & sub0 & -> & Hsub0)].
    + left. eapply seg_below; eassumption.
    + apply IH in Hsub as [Hsub|(i & -> & Hi)].
      * destruct Hsub0 as [Hin| ->].
        -- left. eapply seg_below; eassumption.
        -- now apply segment_in_leaf in Hsub.
      * right. exists (S i). split; [lia | exact Hi].
Qed.

(** Every segment of the tree of the summary mode is a segment of a
    key. *)
Lemma segment_build {OS : OsPath} (collected : dict) (level : nat) (name : str) :
  segment_in (build_directory_tree collected) 0 level name ->
  exists k, In k (keys collected) /\ k <> [] /\
            nth_error (split sep k) level = Some name.
Proof.
  unfold build_directory_tree.
  assert (H : forall root,
             segment_in
               (fold_left
                  (fun root '(dkey, _) =>
                     match dkey with
                     | [] => root
                     | _ :: _ => insert_parts (split sep dkey) root
                     end)
                  collected root) 0 level name ->
             segment_in root 0 level name \/
             exists k, In k (keys collected) /\ k <> [] /\
                       nth_error (split sep k) level = Some name).
  { induction collected as [|[k fl] d IH]; intros root H; cbn [fold_left] in H;
      [now left|].
    apply IH in H as [H|(k0 & Hin & Hne & Hk)].
    - destruct k as [|c k]; [now left|].
      apply segment_insert_parts in H as [H|(i & -> & Hi)]; [now left|].
      right. exists (c :: k). split; [now left|]. split; [discriminate | exact Hi].
    - right. exists k0. split; [now right | auto]. }
  intros Hs. destruct (H _ Hs) as [Hleaf|Hk]; [|exact Hk].
  now apply segment_in_leaf in Hleaf.
Qed.

Lemma segment_shift (t : tree) (base level : nat) (name : str) :
  segment_in t base level name -> segment_in t (S base) (S level) name.
Proof.
  induction 1 as [kids b n sub Hin|kids b l n parent sub Hin _ IH].
  - eapply seg_child; eassumption.
  - eapply seg_below; eassumption.
Qed.

(** *** Lines of the summary mode *)

Lemma in_last (A : Type) (x : A) (l : list A) (d : A) : In (last (x :: l) d) (x :: l).
Proof.
  revert x. induction l as [|y l IH]; intros x; [now left|].
  right. apply (IH y).
Qed.

Section RenderLines.
Context {OS : OsPath}.

Variable full_map : dict.
Variable collect : collect_strategy.
Variable decorations : list decoration.
Variable style : path_style.
Variable sort_by : sort_mode.
Variable indent_size : Z.
Variable compact_braces : bool.
Variable names : str -> Prop.

Local Abbreviation of_map := (fun f : str => exists k fl, In (k, fl) full_map /\ In f fl).
Local Abbreviation ok_line := (summary_line names of_map style decorations).

Lemma ok_line_braced (a b : str) : ok_line a -> braced a b -> ok_line b.
Proof.
  intros (n & body & Hb & H) Hab. exists n, body. split; [|exact H].
  now apply (braced_trans _ a).
Qed.

Lemma ok_line_body (a b : Z) (body : str) :
  (body = lit "{" \/ body = lit "}" \/
   (exists name sfx,
      names name /\ (sfx = [] \/ sfx = lit ":{") /\
      body = dir_display style decorations name ++ sfx) \/
   (exists f, of_map f /\ body = apply_decorations (basename f) decorations)) ->
  ok_line ((spaces a ++ spaces b) ++ body).
Proof.
  intros H. exists (Z.to_nat a + Z.to_nat b), body. split; [|exact H].
  unfold spaces. rewrite repeat_app. apply braced_refl.
Qed.

Lemma ok_line_indent (a : Z) (body : str) :
  (body = lit "{" \/ body = lit "}" \/
   (exists name sfx,
      names name /\ (sfx = [] \/ sfx = lit ":{") /\
      body = dir_display style decorations name ++ sfx) \/
   (exists f, of_map f /\ body = apply_decorations (basename f) decorations)) ->
  ok_line (spaces a ++ body).
Proof.
  intros H. exists (Z.to_nat a), body. split; [apply braced_refl | exact H].
Qed.

Lemma ok_close_last (lines : list str) :
  Forall ok_line lines -> Forall ok_line (close_last lines).
Proof.
  induction 1 as [|l ls Hl Hls IH]; [constructor|].
  destruct ls as [|l2 ls].
  - constructor; [|constructor]. apply (ok_line_braced l); [exact Hl|].
    now exists 1.
  - change (close_last (l :: l2 :: ls)) with (l :: close_last (l2 :: ls)).
    constructor; assumption.
Qed.

Lemma ok_close_brace (a : Z) (is_last : bool) (lines : list str) :
  Forall ok_line lines ->
  Forall ok_line (close_brace compact_braces (spaces a) is_last lines).
Proof.
  intros H. unfold close_brace. destruct (compact_braces && is_last).
  - now apply ok_close_last.
  - apply Forall_app. split; [exact H|]. constructor; [|constructor].
    apply ok_line_indent. auto.
Qed.

Lemma ok_header (a : Z) (name sfx : str) :
  names name -> sfx = [] \/ sfx = lit ":{" ->
  ok_line (spaces a ++ dir_display style decorations name ++ sfx).
Proof. intros Hn Hs. apply ok_line_indent. right. right. left. eauto. Qed.

Lemma ok_basename_lines (a b : Z) (flist : list str) :
  (forall f, In f flist -> of_map f) ->
  Forall ok_line (basename_lines decorations (spaces a ++ spaces b) flist).
Proof.
  intros H. unfold basename_lines. apply Forall_forall. intros line Hl.
  apply in_map_iff in Hl as (f & <- & Hf). apply ok_line_body.
  right. right. right. eauto.
Qed.

Lemma format_item_lines (name : str) (has_sub : bool)
    (recurse : str -> nat -> list str -> list str) (is_last : bool)
    (current_path : str) (level : nat) (lines : list str) :
  names name ->
  (forall p l ls, Forall ok_line ls -> Forall ok_line (recurse p l ls)) ->
  Forall ok_line lines ->
  Forall ok_line
    (format_item full_map collect decorations style indent_size compact_braces
       (name, (has_sub, recurse)) is_last current_path level lines).
Proof.
  intros Hname Hrec Hlines. unfold format_item. cbv zeta.
  set (full_path := match current_path with
                    | [] => name
                    | _ :: _ => join current_path name
                    end).
  assert (Hbare : ok_line (spaces (indent_size * Z.of_nat level)
                           ++ dir_display style decorations name)).
  { rewrite <- (app_nil_r (dir_display style decorations name)).
    apply ok_header; auto. }
  assert (Hopen : ok_line (spaces (indent_size * Z.of_nat level)
                           ++ dir_display style decorations name ++ lit ":{"))
    by (apply ok_header; auto).
  assert (Hbrace : ok_line (spaces (indent_size * Z.of_nat level) ++ lit "{"))
    by (apply ok_line_indent; auto).
  destruct (dict_get full_path full_map) as [flist|] eqn:E.
  - assert (Hfl : forall f, In f flist -> of_map f).
    { intros f Hf. exists full_path, flist. split; [now apply assoc_in | exact Hf]. }
    destruct collect.
    + apply ok_close_brace. destruct has_sub; [apply Hrec|];
        (apply Forall_app; split; [|now apply ok_basename_lines]);
        apply Forall_app; split; auto.
    + destruct has_sub.
      * apply ok_close_brace, Hrec. apply Forall_app. auto.
      * apply Forall_app. auto.
    + assert (Hfirst : forall lines',
                Forall ok_line lines' ->
                Forall ok_line
                  match flist with
                  | f :: rest =>
                      if (1 <? length (f :: rest))%nat
                      then (lines' ++ basename_lines decorations
                                        (spaces (indent_size * Z.of_nat level)
                                         ++ spaces indent_size) [f])
                           ++ basename_lines decorations
                                (spaces (indent_size * Z.of_nat level)
                                 ++ spaces indent_size) [last (f :: rest) []]
                      else lines' ++ basename_lines decorations
                                       (spaces (indent_size * Z.of_nat level)
                                        ++ spaces indent_size) [f]
                  | [] => lines'
                  end).
      { intros lines' Hl'. destruct flist as [|f rest]; [exact Hl'|].
        assert (H1 : Forall ok_line
                       (lines' ++ basename_lines decorations
                                    (spaces (indent_size * Z.of_nat level)
                                     ++ spaces indent_size) [f])).
        { apply Forall_app. split; [exact Hl'|]. apply ok_basename_lines.
          intros x [<-|[]]. apply Hfl. now left. }
        destruct (1 <? length (f :: rest))%nat; [|exact H1].
        apply Forall_app. split; [exact H1|]. apply ok_basename_lines.
        intros x [<-|[]]. apply Hfl, in_last. }
      destruct has_sub, current_path; cbn [orb];
        try apply ok_close_brace; try apply Hrec; apply Hfirst;
        apply Forall_app; auto.
    + apply ok_close_brace, Hrec.
      apply Forall_app. split; [|now apply ok_basename_lines].
      apply Forall_app. auto.
  - destruct collect.
    + apply ok_close_brace. destruct has_sub; [apply Hrec|]; apply Forall_app; auto.
    + destruct has_sub.
      * apply ok_close_brace, Hrec. apply Forall_app. auto.
      * apply Forall_app. auto.
    + destruct has_sub, current_path; cbn [orb];
        try apply ok_close_brace; try apply Hrec; apply Forall_app; auto.
    + apply ok_close_brace, Hrec. apply Forall_app. auto.
Qed.

Lemma format_items_lines (items : list item) (current_path : str) (level : nat)
    (lines : list str) :
  Forall (fun it : item =>
            names (fst it) /\
            forall p l ls, Forall ok_line ls -> Forall ok_line (snd (snd it) p l ls))
    items ->
  Forall ok_line lines ->
  Forall ok_line
    (format_items full_map collect decorations style indent_size compact_braces
       items current_path level lines).
Proof.
  intros H. revert lines.
  induction H as [|[name [has_sub recurse]] items [Hn Hr] _ IH]; intros lines Hl;
    cbn [format_items]; [exact Hl|].
  apply IH. now apply format_item_lines.
Qed.

End RenderLines.

Lemma format_directory_lines {OS : OsPath} (full_map : dict)
    (collect : collect_strategy) (decorations : list decoration) (style : path_style)
    (sort_by : sort_mode) (indent_size : Z) (compact_braces : bool)
    (names : str -> Prop) (t : tree) (current_path : str) (level : nat)
    (lines : list str) :
  (forall lv name, segment_in t 0 lv name -> names name) ->
  Forall (summary_line names (fun f => exists k fl, In (k, fl) full_map /\ In f fl)
            style decorations) lines ->
  Forall (summary_line names (fun f => exists k fl, In (k, fl) full_map /\ In f fl)
            style decorations)
    (format_directory full_map collect decorations style sort_by indent_size
       compact_braces t current_path level lines).
Proof.
  revert current_path level lines.
  induction t as [kids IH] using tree_induction.
  intros current_path level lines Hnames Hlines.
  cbn [format_directory]. apply format_items_lines; [|exact Hlines].
  apply Forall_forall. intros it Hit.
  apply in_items in Hit as (name & sub & Hin & ->). cbn [fst snd].
  split; [apply (Hnames 0); eapply seg_child; eassumption|].
  intros p l ls Hls. rewrite Forall_forall in IH.
  apply (IH (name, sub) Hin); [|exact Hls].
  intros lv n Hs. apply (Hnames (S lv)).
  eapply seg_below; [exact Hin | now apply segment_shift].
Qed.


